(** * The SQL lexer of pkg/sql/parser/lexer.go

    A shallow embedding of the second-pass lexer that sits between the
    scanner and the goyacc parser: [Lex] with its look-ahead rules,
    [lastToken], [UpdateNumPlaceholders], [PopulateErrorDetails] and
    [SetHelp], followed by the properties established about them. *)

From Stdlib Require Import ZArith List String Ascii Bool Lia.
Import ListNotations.

Local Open Scope string_scope.
Local Open Scope Z_scope.

(** ** Go values *)

(** Signed two's-complement wrap-around of a [bits]-wide Go integer. *)
Definition wrap (bits : Z) (z : Z) : Z :=
  (z + 2 ^ (bits - 1)) mod 2 ^ bits - 2 ^ (bits - 1).

(** [int] is 64 bits wide on the platforms the parser is built for. *)
Definition int (z : Z) : Z := wrap 64 z.
Definition int32 (z : Z) : Z := wrap 32 z.

Definition max_int : Z := 2 ^ 63 - 1.
Definition max_int32 : Z := 2 ^ 31 - 1.

(** A rune constant such as [','] used as an [int32] token identity. *)
Definition rune (c : ascii) : Z := Z.of_N (N_of_ascii c).

(** [len] of a slice. *)
Definition len {A : Type} (l : list A) : Z := Z.of_nat (List.length l).

(** [len] of a string: its number of bytes. *)
Definition slen (s : string) : Z := Z.of_nat (String.length s).

(** A run-time panic is [None]. *)
Definition bind {A B : Type} (o : option A) (f : A -> option B) : option B :=
  match o with
  | Some a => f a
  | None => None
  end.

Notation "x <- e ;; k" := (bind e (fun x => k))
  (at level 61, e at next level, right associativity).

(** [s[i]] on a slice: panics when the index is out of range. *)
Definition index {A : Type} (l : list A) (i : Z) : option A :=
  if i <? 0 then None else nth_error l (Z.to_nat i).

(** ** The strings package *)

Definition newline : ascii := "010"%char.
Definition dquote : string := String "034"%char EmptyString.

Fixpoint str_take (n : nat) (s : string) : string :=
  match n, s with
  | O, _ => EmptyString
  | S _, EmptyString => EmptyString
  | S n', String c s' => String c (str_take n' s')
  end.

Fixpoint str_drop (n : nat) (s : string) : string :=
  match n, s with
  | O, _ => s
  | S _, EmptyString => EmptyString
  | S n', String _ s' => str_drop n' s'
  end.

(** [s[lo:]]: panics unless [0 <= lo <= len(s)]. *)
Definition slice_from (s : string) (lo : Z) : option string :=
  if (lo <? 0) || (slen s <? lo) then None else Some (str_drop (Z.to_nat lo) s).

(** [s[:hi]]: panics unless [0 <= hi <= len(s)]. *)
Definition slice_to (s : string) (hi : Z) : option string :=
  if (hi <? 0) || (slen s <? hi) then None else Some (str_take (Z.to_nat hi) s).

(** [strings.IndexByte]: index of the first [c] in [s], or -1. *)
Fixpoint IndexByte (s : string) (c : ascii) : Z :=
  match s with
  | EmptyString => -1
  | String a s' =>
      if Ascii.eqb a c then 0
      else let k := IndexByte s' c in if k <? 0 then -1 else k + 1
  end.

(** [strings.LastIndexByte]: index of the last [c] in [s], or -1. *)
Fixpoint LastIndexByte (s : string) (c : ascii) : Z :=
  match s with
  | EmptyString => -1
  | String a s' =>
      let k := LastIndexByte s' c in
      if 0 <=? k then k + 1 else if Ascii.eqb a c then 0 else -1
  end.

(** [strings.Contains]. *)
Fixpoint Contains (s substr : string) : bool :=
  String.prefix substr s ||
  match s with
  | EmptyString => false
  | String _ s' => Contains s' substr
  end.

(** [strings.HasPrefix] and [strings.HasSuffix]. *)
Definition HasPrefix (s p : string) : bool := String.prefix p s.

Fixpoint HasSuffix (s suffix : string) : bool :=
  String.eqb s suffix ||
  match s with
  | EmptyString => false
  | String _ s' => HasSuffix s' suffix
  end.

(** [strings.TrimPrefix]. *)
Definition TrimPrefix (s prefix : string) : string :=
  if HasPrefix s prefix then str_drop (String.length prefix) s else s.

(** [strings.Repeat]: panics on a negative count. *)
Fixpoint repeat_str (s : string) (n : nat) : string :=
  match n with
  | O => EmptyString
  | S n' => s ++ repeat_str s n'
  end.

Definition Repeat (s : string) (count : Z) : option string :=
  if count <? 0 then None else Some (repeat_str s (Z.to_nat count)).

(** ** Errors

    The error values built by the lexer come from the errors and pgerror
    packages. An error is the tree of wrappers applied to a leaf; a Go
    [error] interface value is an [option], [None] being [nil]. *)

Inductive pgcode := Syntax.

Inductive error : Type :=
| errNew (msg : string)
| errWrap (cause : error) (prefix : string)
| errWithSecondaryError (e : error) (secondary : error)
| errWithDetail (e : error) (detail : string)
| errWithHint (e : error) (hint : string)
| errWithCandidateCode (e : error) (code : pgcode).

Definition goerror := option error.

(** The message of an error: a wrapper made by [Wrap] puts its prefix and
    a colon before the message of its cause, the annotating wrappers
    leave the message alone. *)
Fixpoint message (e : error) : string :=
  match e with
  | errNew msg => msg
  | errWrap cause prefix => prefix ++ ": " ++ message cause
  | errWithSecondaryError e' _ => message e'
  | errWithDetail e' _ => message e'
  | errWithHint e' _ => message e'
  | errWithCandidateCode e' _ => message e'
  end.

(** [err.Error()]: a nil dereference panics. *)
Definition Error_ (err : goerror) : option string := option_map message err.

Definition New (msg : string) : goerror := Some (errNew msg).

(** Each wrapper returns nil on a nil error. *)
Definition Wrap (err : goerror) (msg : string) : goerror :=
  option_map (fun e => errWrap e msg) err.

Definition WithDetail (err : goerror) (detail : string) : goerror :=
  option_map (fun e => errWithDetail e detail) err.

Definition WithHint (err : goerror) (hint : string) : goerror :=
  option_map (fun e => errWithHint e hint) err.

Definition WithCandidateCode (err : goerror) (code : pgcode) : goerror :=
  option_map (fun e => errWithCandidateCode e code) err.

(** [errors.WithSecondaryError] returns [err] itself when either is nil. *)
Definition WithSecondaryError (err additionalErr : goerror) : goerror :=
  match err, additionalErr with
  | Some e, Some a => Some (errWithSecondaryError e a)
  | _, _ => err
  end.

(** The hints attached to an error, outermost first. *)
Fixpoint hints (e : error) : list string :=
  match e with
  | errNew _ => []
  | errWrap c _ => hints c
  | errWithSecondaryError e' _ => hints e'
  | errWithDetail e' _ => hints e'
  | errWithHint e' h => h :: hints e'
  | errWithCandidateCode e' _ => hints e'
  end.

(** ** Tokens *)

(** Modelled from the spec: the token value [sqlSymType] is declared in the
    generated parser, which is not among these sources; a token has an
    identity, a source offset and a literal text. *)
Record sqlSymType : Type := mkSym {
  id : Z;      (* int32 *)
  pos : Z;     (* int32 *)
  str : string
}.

(** The zero value [sqlSymType{}]. *)
Definition zeroSym : sqlSymType := {| id := 0; pos := 0; str := EmptyString |}.

Definition set_id (t : sqlSymType) (v : Z) : sqlSymType :=
  {| id := v; pos := pos t; str := str t |}.
Definition set_pos (t : sqlSymType) (v : Z) : sqlSymType :=
  {| id := id t; pos := v; str := str t |}.
Definition set_str (t : sqlSymType) (v : string) : sqlSymType :=
  {| id := id t; pos := pos t; str := v |}.

(** The grammar terminals that lexer.go names. Their numeric values are
    constants of the generated parser. *)
Inductive Terminal : Type :=
| NOTHING | RETURNING | NOTHING_AFTER_RETURNING
| INDEX | OPTIONS | INVERTED | INDEX_BEFORE_PAREN
| INDEX_BEFORE_NAME_THEN_PAREN | BY | ORDER | INDEX_AFTER_ORDER_BY_BEFORE_AT
| NOT | WITH | AS | GENERATED | NULLS | RESET | ROLE | USER | ON | TENANT
| CLUSTER | SET
| OF | SYSTEM | AS_LA
| BETWEEN | IN | LIKE | ILIKE | SIMILAR | NOT_LA
| ALWAYS | GENERATED_ALWAYS | GENERATED_BY_DEFAULT
| TIME | ORDINALITY | BUCKET_COUNT | WITH_LA
| FIRST | LAST | NULLS_LA
| ALL | RESET_ALL | ROLE_ALL | USER_ALL
| DELETE | ON_LA | UPDATE | NO | RESTRICT | CASCADE
| TENANT_ALL | CLUSTER_ALL
| TRACING | SET_TRACING | SESSION
| ERROR | HELPTOKEN.

(** ** The lexer state *)

Record lexer (typesT Statement : Type) : Type := mkLexer {
  in_ : string;
  tokens : list sqlSymType;
  nakedIntType : option typesT;
  lastPos : Z;                 (* int *)
  stmt : option Statement;
  numPlaceholders : Z;         (* int *)
  numAnnotations : Z;
  lastError : goerror
}.

Arguments mkLexer {typesT Statement}.
Arguments in_ {typesT Statement}.
Arguments tokens {typesT Statement}.
Arguments nakedIntType {typesT Statement}.
Arguments lastPos {typesT Statement}.
Arguments stmt {typesT Statement}.
Arguments numPlaceholders {typesT Statement}.
Arguments numAnnotations {typesT Statement}.
Arguments lastError {typesT Statement}.

Definition nl : string := String newline EmptyString.

(** The indices visited by [for i := lo; i < hi; i++]. *)
Definition range (lo hi : Z) : list Z :=
  map (fun k => lo + Z.of_nat k) (seq 0 (Z.to_nat (hi - lo))).

(** [toks[i]] where the source guards the access by a bounds test. *)
Definition tokAt (toks : list sqlSymType) (i : Z) : sqlSymType :=
  nth (Z.to_nat i) toks zeroSym.

(** A numbering of the terminals in the manner of the parser generator,
    which hands out consecutive values above the byte range. *)
Definition ordinal (k : Terminal) : Z :=
  match k with
  | NOTHING => 0
  | RETURNING => 1
  | NOTHING_AFTER_RETURNING => 2
  | INDEX => 3
  | OPTIONS => 4
  | INVERTED => 5
  | INDEX_BEFORE_PAREN => 6
  | INDEX_BEFORE_NAME_THEN_PAREN => 7
  | BY => 8
  | ORDER => 9
  | INDEX_AFTER_ORDER_BY_BEFORE_AT => 10
  | NOT => 11
  | WITH => 12
  | AS => 13
  | GENERATED => 14
  | NULLS => 15
  | RESET => 16
  | ROLE => 17
  | USER => 18
  | ON => 19
  | TENANT => 20
  | CLUSTER => 21
  | SET => 22
  | OF => 23
  | SYSTEM => 24
  | AS_LA => 25
  | BETWEEN => 26
  | IN => 27
  | LIKE => 28
  | ILIKE => 29
  | SIMILAR => 30
  | NOT_LA => 31
  | ALWAYS => 32
  | GENERATED_ALWAYS => 33
  | GENERATED_BY_DEFAULT => 34
  | TIME => 35
  | ORDINALITY => 36
  | BUCKET_COUNT => 37
  | WITH_LA => 38
  | FIRST => 39
  | LAST => 40
  | NULLS_LA => 41
  | ALL => 42
  | RESET_ALL => 43
  | ROLE_ALL => 44
  | USER_ALL => 45
  | DELETE => 46
  | ON_LA => 47
  | UPDATE => 48
  | NO => 49
  | RESTRICT => 50
  | CASCADE => 51
  | TENANT_ALL => 52
  | CLUSTER_ALL => 53
  | TRACING => 54
  | SET_TRACING => 55
  | SESSION => 56
  | ERROR => 57
  | HELPTOKEN => 58
  end.

Definition sample_code (k : Terminal) : Z := 57347 + ordinal k.

(** Identities of the scanner's identifier and constant tokens, below the
    values [sample_code] hands out. *)
Definition IDENT : Z := 57346.
Definition SCONST : Z := 57345.
Definition ICONST : Z := 57344.

Definition punct (c : ascii) (at_ : Z) : sqlSymType :=
  {| id := rune c; pos := at_; str := String c EmptyString |}.
Definition word (code : Z) (at_ : Z) (text : string) : sqlSymType :=
  {| id := code; pos := at_; str := text |}.

(** A lexer over [toks] whose last returned position is [p]. *)
Definition lexerAt (sql : string) (toks : list sqlSymType) (p : Z)
    (err : goerror) : lexer unit unit :=
  mkLexer sql toks None p None 0 0 err.

(** Token streams of a few statements and fragments. *)
Definition sql_index_paren : string := "(INDEX (a))".
Definition toks_index_paren : list sqlSymType :=
  [punct "(" 0; word (sample_code INDEX) 1 "INDEX"; punct "(" 7;
   word IDENT 8 "a"; punct ")" 9; punct ")" 10].

Definition sql_options_index_name : string := "OPTIONS INDEX a (b)".
Definition toks_options_index_name : list sqlSymType :=
  [word (sample_code OPTIONS) 0 "OPTIONS"; word (sample_code INDEX) 8 "INDEX";
   word IDENT 14 "a"; punct "(" 16; word IDENT 17 "b"; punct ")" 18].

Definition sql_order_by_index_at : string := "ORDER BY index t.a@idx".
Definition toks_order_by_index_at : list sqlSymType :=
  [word (sample_code ORDER) 0 "ORDER"; word (sample_code BY) 6 "BY";
   word (sample_code INDEX) 9 "index"; word IDENT 15 "t"; punct "." 16;
   word IDENT 17 "a"; punct "@" 18; word IDENT 19 "idx"].

Definition sql_order_by_index : string := "ORDER BY index".
Definition toks_order_by_index : list sqlSymType :=
  [word (sample_code ORDER) 0 "ORDER"; word (sample_code BY) 6 "BY";
   word (sample_code INDEX) 9 "index"].

Definition sql_comma_index_paren : string := "a, INDEX (b@c)".
Definition toks_comma_index_paren : list sqlSymType :=
  [word IDENT 0 "a"; punct "," 1; word (sample_code INDEX) 3 "INDEX";
   punct "(" 9; word IDENT 10 "b"; punct "@" 11; word IDENT 12 "c";
   punct ")" 13].

Definition sql_set_tracing_on : string := "SET TRACING = 'on'".
Definition toks_set_tracing_on : list sqlSymType :=
  [word (sample_code SET) 0 "SET"; word (sample_code TRACING) 4 "TRACING";
   punct "=" 12; word SCONST 14 "on"].

Definition sql_set_tracing_custom : string := "SET tracing.custom = 1".
Definition toks_set_tracing_custom : list sqlSymType :=
  [word (sample_code SET) 0 "SET"; word (sample_code TRACING) 4 "tracing";
   punct "." 11; word IDENT 12 "custom"; punct "=" 19; word ICONST 21 "1"].

(** Token streams for the other look-ahead rules. *)
Definition toks_returning_nothing : list sqlSymType :=
  [word (sample_code RETURNING) 0 "RETURNING";
   word (sample_code NOTHING) 10 "NOTHING"].

Definition toks_as_of_system_time : list sqlSymType :=
  [word (sample_code AS) 0 "AS"; word (sample_code OF) 3 "OF";
   word (sample_code SYSTEM) 6 "SYSTEM"; word (sample_code TIME) 13 "TIME"].

Definition toks_not_between : list sqlSymType :=
  [word (sample_code NOT) 0 "NOT"; word (sample_code BETWEEN) 4 "BETWEEN"].

Definition toks_generated_by : list sqlSymType :=
  [word (sample_code GENERATED) 0 "GENERATED"; word (sample_code BY) 10 "BY"].

Definition toks_with_ordinality : list sqlSymType :=
  [word (sample_code WITH) 0 "WITH";
   word (sample_code ORDINALITY) 5 "ORDINALITY"].

Definition toks_nulls_last : list sqlSymType :=
  [word (sample_code NULLS) 0 "NULLS"; word (sample_code LAST) 6 "LAST"].

Definition toks_reset_all : list sqlSymType :=
  [word (sample_code RESET) 0 "RESET"; word (sample_code ALL) 6 "ALL"].

Definition toks_on_update_cascade : list sqlSymType :=
  [word (sample_code ON) 0 "ON"; word (sample_code UPDATE) 3 "UPDATE";
   word (sample_code CASCADE) 10 "CASCADE"].

(** Two token arrays that differ only in their first two tokens and in
    their last one, seven places after INDEX. *)
Definition toks_window_1 : list sqlSymType :=
  [word IDENT 0 "a"; word IDENT 2 "b"; word (sample_code ORDER) 4 "ORDER";
   word (sample_code BY) 10 "BY"; word (sample_code INDEX) 13 "index";
   word IDENT 19 "t"; punct "." 20; word IDENT 21 "a"; punct "@" 22;
   word IDENT 23 "idx"; punct "," 26; word IDENT 28 "c"].

Definition toks_window_2 : list sqlSymType :=
  [word IDENT 0 "x"; punct "(" 2; word (sample_code ORDER) 4 "ORDER";
   word (sample_code BY) 10 "BY"; word (sample_code INDEX) 13 "index";
   word IDENT 19 "t"; punct "." 20; word IDENT 21 "a"; punct "@" 22;
   word IDENT 23 "idx"; punct "," 26; punct "@" 28].

(** A statement that ends in the help token. *)
Definition sql_help : string := "SELECT ??".
Definition toks_help : list sqlSymType :=
  [word IDENT 0 "SELECT"; word (sample_code HELPTOKEN) 7 "??"].

(** A statement of three lines; offset 13 is column 5 of line 2. *)
Definition sql_three_lines : string :=
  "SELECT 1" ++ String newline "FROM x y z" ++ String newline "LIMIT 1".

(** A help message as a command, a function and a text. *)
Definition sampleHelp : Type := string * string * string.
Definition sampleCommand (m : sampleHelp) : string := fst (fst m).
Definition sampleFunction (m : sampleHelp) : string := snd (fst m).
Definition sampleHelpText (m : sampleHelp) : string := snd m.

(** ** Flag values of pkg/cli/flags_util.go *)

(** [strings.Split(s, sep)] for a separator of one byte, as at every call
    in this file: the pieces of [s] between the separators, a single piece
    when there is none. *)
Fixpoint Split (s : string) (sep : ascii) : list string :=
  match s with
  | EmptyString => [EmptyString]
  | String a s' =>
      if Ascii.eqb a sep then EmptyString :: Split s' sep
      else match Split s' sep with
           | h :: t => String a h :: t
           | [] => [String a EmptyString]
           end
  end.

(** [dumpMode]: an [int] with three named values. *)
Definition dumpBoth : Z := 0.
Definition dumpSchemaOnly : Z := 1.
Definition dumpDataOnly : Z := 2.

Definition dumpMode_String (m : Z) : string :=
  if m =? dumpBoth then "both"
  else if m =? dumpSchemaOnly then "schema"
  else if m =? dumpDataOnly then "data"
  else EmptyString.

(** [Set]: the new value of the receiver and the error; [fmt.Errorf]
    gives an error with the formatted message. *)
Definition dumpMode_Set (m : Z) (s : string) : Z * goerror :=
  if String.eqb s "both" then (dumpBoth, None)
  else if String.eqb s "schema" then (dumpSchemaOnly, None)
  else if String.eqb s "data" then (dumpDataOnly, None)
  else (m, New ("invalid value for --dump-mode: " ++ s)).

(** [nodeDecommissionWaitType]. *)
Definition nodeDecommissionWaitAll : Z := 0.
Definition nodeDecommissionWaitNone : Z := 1.

(** [String] panics on any other value. *)
Definition nodeDecommissionWaitType_String (s : Z) : option string :=
  if s =? nodeDecommissionWaitAll then Some "all"
  else if s =? nodeDecommissionWaitNone then Some "none"
  else None.

Definition nodeDecommissionWaitType_Set (s : Z) (value : string)
    : Z * goerror :=
  if String.eqb value "all" then (nodeDecommissionWaitAll, None)
  else if String.eqb value "none" then (nodeDecommissionWaitNone, None)
  else (s, New ("invalid node decommission parameter: " ++ value
                ++ " (possible values: all, none)")).

(** [nodeDecommissionCheckMode]. *)
Definition nodeDecommissionChecksSkip : Z := 0.
Definition nodeDecommissionChecksEnabled : Z := 1.
Definition nodeDecommissionChecksStrict : Z := 2.

Definition nodeDecommissionCheckMode_String (s : Z) : option string :=
  if s =? nodeDecommissionChecksSkip then Some "skip"
  else if s =? nodeDecommissionChecksEnabled then Some "enabled"
  else if s =? nodeDecommissionChecksStrict then Some "strict"
  else None.

Definition nodeDecommissionCheckMode_Set (s : Z) (value : string)
    : Z * goerror :=
  if String.eqb value "skip" then (nodeDecommissionChecksSkip, None)
  else if String.eqb value "enabled" then (nodeDecommissionChecksEnabled, None)
  else if String.eqb value "strict" then (nodeDecommissionChecksStrict, None)
  else (s, New ("invalid node decommission parameter: " ++ value
                ++ " (possible values: enabled, strict, skip)")).

(** [roachpb.Tier]. *)
Record Tier : Type := mkTier {
  Key : string;
  Value : string
}.

Section LocalityList.

(** [util.UnresolvedAddr] with its constructor and its [String] method,
    which the util package declares. *)
Variable UnresolvedAddr : Type.
Variable MakeUnresolvedAddr : string -> string -> UnresolvedAddr.
Variable UnresolvedAddr_String : UnresolvedAddr -> string.

(** [roachpb.LocalityAddress]. *)
Record LocalityAddress : Type := mkLocalityAddress {
  Address : UnresolvedAddr;
  LocalityTier : Tier
}.

Definition localityList : Type := list LocalityAddress.

(** [String]: the [for] loop appends one rendering per entry. *)
Definition localityList_String (l : localityList) : string :=
  fold_left
    (fun acc loc =>
       acc ++ (Key (LocalityTier loc) ++ "=" ++ Value (LocalityTier loc)
               ++ "@" ++ UnresolvedAddr_String (Address loc) ++ ","))
    l EmptyString.

(** The [for] loop of [Set] over the values still to parse, [l] being the
    list built so far; the message of an error renders [l] with [%s]. *)
Fixpoint localityList_Set_loop (l : localityList) (values : list string)
    : localityList * goerror :=
  match values with
  | [] => (l, None)
  | value :: rest =>
      let split := Split value "@" in
      if negb (len split =? 2) then
        (l, New ("invalid value for --locality-advertise-address: "
                 ++ localityList_String l))
      else
        let tierSplit := Split (nth 0 split EmptyString) "=" in
        if negb (len tierSplit =? 2) then
          (l, New ("invalid value for --locality-advertise-address: "
                   ++ localityList_String l))
        else
          let tier :=
            {| Key := nth 0 tierSplit EmptyString;
               Value := nth 1 tierSplit EmptyString |} in
          let locAddress :=
            {| LocalityTier := tier;
               Address := MakeUnresolvedAddr "tcp" (nth 1 split EmptyString) |}
          in
          localityList_Set_loop (l ++ [locAddress])%list rest
  end.

(** [Set]: the receiver is emptied first. *)
Definition localityList_Set (l : localityList) (value : string)
    : localityList * goerror :=
  localityList_Set_loop [] (Split value ",").

End LocalityList.

Arguments Address {UnresolvedAddr}.
Arguments LocalityTier {UnresolvedAddr}.
Arguments mkLocalityAddress {UnresolvedAddr}.
Arguments localityList_String {UnresolvedAddr}.
Arguments localityList_Set_loop {UnresolvedAddr}.
Arguments localityList_Set {UnresolvedAddr}.

(** A value that [Set] of the locality list accepts: a tier and an
    address around one at-sign, the tier a key and a value around one
    equals sign. *)
Definition parses (value : string) : Prop :=
  exists tier addr key val : string,
    Split value "@" = [tier; addr] /\ Split tier "=" = [key; val].

(** The values, each followed by a comma. *)
Definition with_commas (values : list string) : string :=
  fold_right (fun p acc => p ++ String "," acc) EmptyString values.

(** An address as its network and its text. *)
Definition sampleAddr : Type := string * string.
Definition sampleMakeAddr (network addr : string) : sampleAddr :=
  (network, addr).
Definition sampleAddrString (a : sampleAddr) : string := snd a.


(** Two entries of a locality list. *)
Definition sampleEast : LocalityAddress sampleAddr :=
  {| Address := sampleMakeAddr "tcp" "10.0.0.1:26257";
     LocalityTier := {| Key := "region"; Value := "east" |} |}.
Definition sampleZone : LocalityAddress sampleAddr :=
  {| Address := sampleMakeAddr "tcp" "10.0.0.2:26257";
     LocalityTier := {| Key := "zone"; Value := "a" |} |}.

(** [math.MaxInt64], and the conversion to [int64]. *)
Definition MaxInt64 : Z := 2 ^ 63 - 1.
Definition int64 (z : Z) : Z := wrap 64 z.

(** [percentResolverFunc]. *)
Definition percentResolverFunc : Type := Z -> Z * goerror.

(** [memoryPercentResolver], over the size and the error that
    [status.GetTotalMemoryWithoutLogging] returned; the division of Go
    truncates. *)
Definition memoryPercentResolver (sizeBytes : Z) (err : goerror)
    : percentResolverFunc :=
  fun percent =>
    match err with
    | Some e => (0, Some e)
    | None => (Z.quot (int64 (sizeBytes * int64 percent)) 100, None)
    end.

Section DiskPercentResolver.

(** [humanize.IBytes] and [humanizeutil.IBytes]. *)
Variable humanize_IBytes : Z -> string.
Variable humanizeutil_IBytes : Z -> string.

(** [diskPercentResolverFactory], over the total of the disk usage, a
    [uint64], and the error that [vfs.Default.GetDiskUsage] returned. *)
Definition diskPercentResolverFactory (TotalBytes : Z) (err : goerror)
    : option percentResolverFunc * goerror :=
  match err with
  | Some e => (None, Some e)
  | None =>
      if TotalBytes >? MaxInt64 then
        (None, New ("unsupported disk size " ++ humanize_IBytes TotalBytes
                    ++ ", max supported size is "
                    ++ humanizeutil_IBytes MaxInt64))
      else
        let deviceCapacity := int64 TotalBytes in
        (Some (fun percent =>
                 (Z.quot (int64 (deviceCapacity * int64 percent)) 100, None)),
         None)
  end.

End DiskPercentResolver.

(** A rendering of a size for the samples. *)
Definition sampleIBytes (n : Z) : string :=
  if n =? MaxInt64 then "8.0 EiB" else "16 EiB".

Section Lexer.

(** The types of the sem/tree and types packages held by the lexer, and the
    help message of help.go with its two fields and its rendering. *)
Variables typesT Statement HelpMessage : Type.
Variables Command Function : HelpMessage -> string.
Variable HelpMessage_String : HelpMessage -> string.

(** The numbering of the terminals by the parser generator. *)
Variable code : Terminal -> Z.
Local Coercion code : Terminal >-> Z.

Local Abbreviation lexer := (lexer typesT Statement).

Definition set_tokens (l : lexer) (v : list sqlSymType) : lexer :=
  mkLexer (in_ l) v (nakedIntType l) (lastPos l) (stmt l)
          (numPlaceholders l) (numAnnotations l) (lastError l).

Definition set_lastPos (l : lexer) (v : Z) : lexer :=
  mkLexer (in_ l) (tokens l) (nakedIntType l) v (stmt l)
          (numPlaceholders l) (numAnnotations l) (lastError l).

Definition set_numPlaceholders (l : lexer) (v : Z) : lexer :=
  mkLexer (in_ l) (tokens l) (nakedIntType l) (lastPos l) (stmt l)
          v (numAnnotations l) (lastError l).

Definition set_lastError (l : lexer) (v : goerror) : lexer :=
  mkLexer (in_ l) (tokens l) (nakedIntType l) (lastPos l) (stmt l)
          (numPlaceholders l) (numAnnotations l) v.

Definition init (l : lexer) (sql : string) (toks : list sqlSymType)
    (nakedInt : option typesT) : lexer :=
  mkLexer sql toks nakedInt (-1) None 0 0 None.

(** The position after [l.lastPos++]. *)
Definition nextPos (l : lexer) : Z := int (lastPos l + 1).

(** The end-of-input token. *)
Definition eofSym (l : lexer) : sqlSymType :=
  {| id := 0; pos := int32 (slen (in_ l)); str := "EOF" |}.

(** *** The look-ahead rules of [Lex] *)

(** [case NOTHING]. *)
Definition Lex_NOTHING (toks : list sqlSymType) (lastPos : Z)
    (lval : sqlSymType) : sqlSymType :=
  if (0 <? lastPos) && (id (tokAt toks (lastPos - 1)) =? RETURNING)
  then set_id lval NOTHING_AFTER_RETURNING
  else lval.

(** The [for] loop of [case INDEX]: the value of [atSignAfterObjectName]
    when the loop is left, [idxs] being the indices still to visit. *)
Fixpoint atSignLoop (toks : list sqlSymType) (lastPos : Z) (idxs : list Z)
    : bool :=
  match idxs with
  | [] => false
  | i :: rest =>
      if i <? len toks then
        let curToken := id (tokAt toks i) in
        if (curToken <? 255) && negb (curToken =? rune ".")
           && negb (curToken =? rune "@")
        then false
        else if curToken =? rune "@" then
          if i =? lastPos + 1 then false else true
        else atSignLoop toks lastPos rest
      else false
  end.

(** [case INDEX]. *)
Definition Lex_INDEX (toks : list sqlSymType) (lastPos : Z)
    (lval : sqlSymType) : sqlSymType :=
  let prevID := if 0 <? lastPos then id (tokAt toks (lastPos - 1)) else 0 in
  let pprevID := if 1 <? lastPos then id (tokAt toks (lastPos - 2)) else 0 in
  let nextID :=
    if lastPos + 1 <? len toks then id (tokAt toks (lastPos + 1)) else 0 in
  let secondID :=
    if lastPos + 2 <? len toks then id (tokAt toks (lastPos + 2)) else 0 in
  let afterCommaOrParen := (prevID =? rune ",") || (prevID =? rune "(") in
  let afterCommaOrOPTIONS := (prevID =? rune ",") || (prevID =? OPTIONS) in
  let afterCommaOrParenThenINVERTED :=
    (prevID =? INVERTED)
    && ((pprevID =? rune ",") || (pprevID =? rune "(")) in
  let followedByParen := nextID =? rune "(" in
  let followedByNonPunctThenParen :=
    (255 <? nextID) && (secondID =? rune "(") in
  if (afterCommaOrParen && followedByParen)
     || (afterCommaOrOPTIONS && followedByParen)
     || (afterCommaOrParenThenINVERTED && followedByParen)
  then set_id lval INDEX_BEFORE_PAREN
  else if (afterCommaOrParen && followedByNonPunctThenParen)
          || (afterCommaOrParenThenINVERTED && followedByNonPunctThenParen)
  then set_id lval INDEX_BEFORE_NAME_THEN_PAREN
  else
    let afterCommaOrOrderBy :=
      (prevID =? rune ",") || ((prevID =? BY) && (pprevID =? ORDER)) in
    if afterCommaOrOrderBy then
      let atSignAfterObjectName :=
        atSignLoop toks lastPos (range (lastPos + 1) (lastPos + 7)) in
      if atSignAfterObjectName
      then set_id lval INDEX_AFTER_ORDER_BY_BEFORE_AT
      else lval
    else lval.

(** [case NOT, WITH, AS, ..., SET]. *)
Definition lookaheadKeywords : list Terminal :=
  [NOT; WITH; AS; GENERATED; NULLS; RESET; ROLE; USER; ON; TENANT; CLUSTER;
   SET].

(** [case a, b, c:] of a switch on [v]. *)
Definition oneOf (v : Z) (cases : list Terminal) : bool :=
  existsb (fun k => v =? code k) cases.

Definition Lex_keyword (toks : list sqlSymType) (lastPos : Z)
    (lval : sqlSymType) : sqlSymType :=
  let nextToken :=
    if lastPos + 1 <? len toks then tokAt toks (lastPos + 1) else zeroSym in
  let secondToken :=
    if lastPos + 2 <? len toks then tokAt toks (lastPos + 2) else zeroSym in
  let thirdToken :=
    if lastPos + 3 <? len toks then tokAt toks (lastPos + 3) else zeroSym in
  if id lval =? AS then
    if id nextToken =? OF then
      if id secondToken =? SYSTEM then set_id lval AS_LA else lval
    else lval
  else if id lval =? NOT then
    if oneOf (id nextToken) [BETWEEN; IN; LIKE; ILIKE; SIMILAR]
    then set_id lval NOT_LA else lval
  else if id lval =? GENERATED then
    if id nextToken =? ALWAYS then set_id lval GENERATED_ALWAYS
    else if id nextToken =? BY then set_id lval GENERATED_BY_DEFAULT
    else lval
  else if id lval =? WITH then
    if oneOf (id nextToken) [TIME; ORDINALITY; BUCKET_COUNT]
    then set_id lval WITH_LA else lval
  else if id lval =? NULLS then
    if oneOf (id nextToken) [FIRST; LAST] then set_id lval NULLS_LA else lval
  else if id lval =? RESET then
    if id nextToken =? ALL then set_id lval RESET_ALL else lval
  else if id lval =? ROLE then
    if id nextToken =? ALL then set_id lval ROLE_ALL else lval
  else if id lval =? USER then
    if id nextToken =? ALL then set_id lval USER_ALL else lval
  else if id lval =? ON then
    if id nextToken =? DELETE then set_id lval ON_LA
    else if id nextToken =? UPDATE then
      if oneOf (id secondToken) [NO; RESTRICT; CASCADE; SET]
      then set_id lval ON_LA else lval
    else lval
  else if id lval =? TENANT then
    if id nextToken =? ALL then set_id lval TENANT_ALL else lval
  else if id lval =? CLUSTER then
    if id nextToken =? ALL then set_id lval CLUSTER_ALL else lval
  else if id lval =? SET then
    if id nextToken =? TRACING then
      if negb (String.eqb (str secondToken) ".")
      then set_id lval SET_TRACING else lval
    else if id nextToken =? SESSION then
      if id secondToken =? TRACING then
        if negb (String.eqb (str thirdToken) ".")
        then set_id lval SET_TRACING else lval
      else lval
    else lval
  else lval.

(** The outer [switch lval.id]. *)
Definition Lex_switch (toks : list sqlSymType) (lastPos : Z)
    (lval : sqlSymType) : sqlSymType :=
  if id lval =? NOTHING then Lex_NOTHING toks lastPos lval
  else if id lval =? INDEX then Lex_INDEX toks lastPos lval
  else if oneOf (id lval) lookaheadKeywords then Lex_keyword toks lastPos lval
  else lval.

(** [Lex]: the new lexer state, the token stored through [lval] and the
    returned identity. *)
Definition Lex (l : lexer) (lval : sqlSymType)
    : option (lexer * sqlSymType * Z) :=
  let l := set_lastPos l (nextPos l) in
  if len (tokens l) <=? lastPos l then
    let lval := set_id lval 0 in
    let lval := set_pos lval (int32 (slen (in_ l))) in
    let lval := set_str lval "EOF" in
    Some (l, lval, 0)
  else
    tok <- index (tokens l) (lastPos l) ;;
    let lval := Lex_switch (tokens l) (lastPos l) tok in
    Some (l, lval, id lval).

Definition lastToken (l : lexer) : sqlSymType :=
  if lastPos l <? 0 then zeroSym
  else if len (tokens l) <=? lastPos l then
    {| id := 0; pos := int32 (slen (in_ l)); str := "EOF" |}
  else tokAt (tokens l) (lastPos l).

(** [UpdateNumPlaceholders]: [idx] is the value of [p.Idx]. *)
Definition UpdateNumPlaceholders (l : lexer) (idx : Z) : lexer :=
  let n := int (idx + 1) in
  if numPlaceholders l <? n then set_numPlaceholders l n else l.

(** *** Error details *)

Definition PopulateErrorDetails (tokID : Z) (lastTokStr : string)
    (lastTokPos : Z) (lastErr : goerror) (lIn : string) : option goerror :=
  retErr <-
    (if tokID =? ERROR then
       let err :=
         WithCandidateCode (New ("lexical error: " ++ lastTokStr)) Syntax in
       Some (WithSecondaryError err lastErr)
     else
       msg <- Error_ lastErr ;;
       let lastErr :=
         if negb (Contains msg "syntax error")
         then Wrap lastErr "syntax error" else lastErr in
       Some (Wrap lastErr ("at or near " ++ dquote ++ lastTokStr ++ dquote))) ;;
  tail <- slice_from lIn lastTokPos ;;
  let i := IndexByte tail newline in
  let i := if i =? -1 then slen lIn else i + lastTokPos in
  head <- slice_to lIn lastTokPos ;;
  let j := LastIndexByte head newline + 1 in
  quoted <- slice_to lIn i ;;
  spaces <- Repeat " " (lastTokPos - j) ;;
  Some (WithDetail retErr
          ("source SQL:" ++ nl ++ quoted ++ nl ++ spaces ++ "^")).

Definition populateErrorDetails (l : lexer) : option lexer :=
  let lastTok := lastToken l in
  err <- PopulateErrorDetails (id lastTok) (str lastTok) (pos lastTok)
           (lastError l) (in_ l) ;;
  Some (set_lastError l err).

Definition specialHelpErrorPrefix : string := "help token in input".

Definition populateHelpMsg (l : lexer) (msg : string) : lexer :=
  set_lastError l (WithHint (Wrap (lastError l) specialHelpErrorPrefix) msg).

Definition isNil (e : goerror) : bool :=
  match e with
  | None => true
  | Some _ => false
  end.

Definition SetHelp (l : lexer) (msg : HelpMessage) : lexer :=
  let l :=
    if isNil (lastError l)
    then set_lastError l (WithCandidateCode (New "help request") Syntax)
    else l in
  if id (lastToken l) =? HELPTOKEN then
    populateHelpMsg l (HelpMessage_String msg)
  else if negb (String.eqb (Command msg) EmptyString) then
    set_lastError l (WithHint (lastError l) ("try \h " ++ Command msg))
  else
    set_lastError l (WithHint (lastError l) ("try \hf " ++ Function msg)).

(** *** The other methods of the lexer *)

(** The width in bits of [tree.AnnotationIdx], a signed integer type
    declared in the sem/tree package. *)
Variable AnnotationIdx_bits : Z.

Definition set_stmt (l : lexer) (v : option Statement) : lexer :=
  mkLexer (in_ l) (tokens l) (nakedIntType l) (lastPos l) v
          (numPlaceholders l) (numAnnotations l) (lastError l).

Definition set_numAnnotations (l : lexer) (v : Z) : lexer :=
  mkLexer (in_ l) (tokens l) (nakedIntType l) (lastPos l) (stmt l)
          (numPlaceholders l) v (lastError l).

(** [cleanup]: the nil slice is the empty list. *)
Definition cleanup (l : lexer) : lexer :=
  let l := set_tokens l [] in
  let l := set_stmt l None in
  set_lastError l None.

(** [NewAnnotation]: the new state and the returned index. *)
Definition NewAnnotation (l : lexer) : lexer * Z :=
  let l :=
    set_numAnnotations l (wrap AnnotationIdx_bits (numAnnotations l + 1)) in
  (l, numAnnotations l).

Definition SetStmt (l : lexer) (s : option Statement) : lexer :=
  set_stmt l s.

Definition setErr (l : lexer) (err : goerror) : option lexer :=
  let err := WithCandidateCode err Syntax in
  let l := set_lastError l err in
  populateErrorDetails l.

Definition setErrNoDetails (l : lexer) (err : goerror) : lexer :=
  let err := WithCandidateCode err Syntax in
  set_lastError l err.

(** [Error]: [errors.Newf("%s", e)] is a new error with the message [e]. *)
Definition Error (l : lexer) (e : string) : option lexer :=
  let e := TrimPrefix e "syntax error: " in
  let l := set_lastError l (WithCandidateCode (New e) Syntax) in
  populateErrorDetails l.

(** *** Notions used to state the properties *)

(** The token read at index [i] by a guarded look-ahead: the zero value
    when [i] is past the end. *)
Definition peek (toks : list sqlSymType) (i : Z) : sqlSymType :=
  if i <? len toks then tokAt toks i else zeroSym.

(** The identity read at index [i] by a guarded look-behind or look-ahead:
    zero when there is no token there. *)
Definition peekID (toks : list sqlSymType) (i : Z) : Z :=
  if (0 <=? i) && (i <? len toks) then id (tokAt toks i) else 0.

(** Two tokens with the same offset and text. *)
Definition same_text (a b : sqlSymType) : Prop :=
  pos a = pos b /\ str a = str b.

(** A token that no look-ahead rule can tell from a missing one: identity
    zero and a text other than a dot. *)
Definition inert (t : sqlSymType) : Prop :=
  id t = 0 /\ String.eqb (str t) "." = false.

(** Two tokens the look-ahead rules cannot tell apart. *)
Definition alike (a b : sqlSymType) : Prop :=
  id a = id b /\ String.eqb (str a) "." = String.eqb (str b) ".".

(** The neighbourhoods of the INDEX rules, [p] being the index of the
    INDEX token. *)
Definition afterCommaOrParen (toks : list sqlSymType) (p : Z) : Prop :=
  peekID toks (p - 1) = rune "," \/ peekID toks (p - 1) = rune "(".

Definition afterOPTIONS (toks : list sqlSymType) (p : Z) : Prop :=
  peekID toks (p - 1) = OPTIONS.

Definition afterCommaOrParenThenINVERTED (toks : list sqlSymType) (p : Z)
    : Prop :=
  peekID toks (p - 1) = INVERTED /\
  (peekID toks (p - 2) = rune "," \/ peekID toks (p - 2) = rune "(").

Definition afterCommaOrOrderBy (toks : list sqlSymType) (p : Z) : Prop :=
  peekID toks (p - 1) = rune "," \/
  (peekID toks (p - 1) = BY /\ peekID toks (p - 2) = ORDER).

Definition followedByParen (toks : list sqlSymType) (p : Z) : Prop :=
  peekID toks (p + 1) = rune "(".

Definition followedByNonPunctThenParen (toks : list sqlSymType) (p : Z)
    : Prop :=
  255 < peekID toks (p + 1) /\ peekID toks (p + 2) = rune "(".

(** An at-sign follows an object name: it stands [k] tokens after the
    INDEX token, [k] between two and six, and every token in between is
    of the identifier and keyword class or a dot. *)
Definition atSignAfterObjectName (toks : list sqlSymType) (p : Z) : Prop :=
  exists k : Z,
    2 <= k <= 6 /\ p + k < len toks /\
    id (tokAt toks (p + k)) = rune "@" /\
    forall j : Z, 1 <= j < k ->
      255 < id (tokAt toks (p + j)) \/ id (tokAt toks (p + j)) = rune ".".

(** No token of the six-token window has the identity 255. *)
Definition window_avoids_255 (toks : list sqlSymType) (p : Z) : Prop :=
  forall j : Z, 1 <= j <= 6 -> p + j < len toks ->
    id (tokAt toks (p + j)) <> 255.

(** The byte [c] occurs in [s]. *)
Fixpoint has_byte (c : ascii) (s : string) : bool :=
  match s with
  | EmptyString => false
  | String a s' => Ascii.eqb a c || has_byte c s'
  end.

(** The error [SetHelp] works on: the pending one, or the help request it
    puts in its place when there is none. *)
Definition pendingError (l : lexer) : error :=
  match lastError l with
  | Some e => e
  | None => errWithCandidateCode (errNew "help request") Syntax
  end.

(** The text put before the message of a syntactic error. *)
Definition atOrNear (lastTokStr : string) : string :=
  "at or near " ++ dquote ++ lastTokStr ++ dquote.

(** The error a syntactic failure is built on: [e] itself when its message
    already speaks of a syntax error, [e] wrapped otherwise. *)
Definition asSyntaxError (e : error) : error :=
  if Contains (message e) "syntax error" then e else errWrap e "syntax error".

(** The tokens stored by [n] successive calls to [Lex], each call being
    handed the token the call before it stored. *)
Fixpoint LexN (n : nat) (l : lexer) (lval : sqlSymType)
    : option (lexer * list sqlSymType) :=
  match n with
  | O => Some (l, [])
  | S n' =>
      match Lex l lval with
      | Some (l', tok, _) =>
          match LexN n' l' tok with
          | Some (l'', out) => Some (l'', tok :: out)
          | None => None
          end
      | None => None
      end
  end.

(** The identities the outer switch of [Lex] has a case for. *)
Definition triggers : list Terminal := NOTHING :: INDEX :: lookaheadKeywords.

(** The keywords retagged before ALL, each with its variant. *)
Definition allVariants : list (Terminal * Terminal) :=
  [(RESET, RESET_ALL); (ROLE, ROLE_ALL); (USER, USER_ALL);
   (TENANT, TENANT_ALL); (CLUSTER, CLUSTER_ALL)].

(** The details attached to an error, outermost first. *)
Fixpoint details (e : error) : list string :=
  match e with
  | errNew _ => []
  | errWrap c _ => details c
  | errWithSecondaryError e' _ => details e'
  | errWithDetail e' d => d :: details e'
  | errWithHint e' _ => details e'
  | errWithCandidateCode e' _ => details e'
  end.

(** The indices returned by [n] successive calls to [NewAnnotation]. *)
Fixpoint NewAnnotationN (n : nat) (l : lexer) : lexer * list Z :=
  match n with
  | O => (l, [])
  | S n' =>
      let (l', i) := NewAnnotation l in
      let (l'', rest) := NewAnnotationN n' l' in
      (l'', i :: rest)
  end.

(** ** Properties *)

(** The generator gives every terminal a value of its own, above the byte
    values that stand for punctuation. *)
Hypothesis code_inj : forall a b : Terminal, code a = code b -> a = b.
Hypothesis code_keyword : forall a : Terminal, 255 < code a.

(** *** Integers and slices *)

Lemma int_small (z : Z) : - 2 ^ 63 <= z <= max_int -> int z = z.
Proof.
  unfold int, wrap, max_int. intros H.
  change (2 ^ (64 - 1)) with (2 ^ 63).
  rewrite Z.mod_small; lia.
Qed.

Lemma int32_small (z : Z) : - 2 ^ 31 <= z <= max_int32 -> int32 z = z.
Proof.
  unfold int32, wrap, max_int32. intros H.
  change (2 ^ (32 - 1)) with (2 ^ 31).
  rewrite Z.mod_small; lia.
Qed.

Lemma len_nonneg {A : Type} (l : list A) : 0 <= len l.
Proof. unfold len. lia. Qed.

Lemma index_tokAt (toks : list sqlSymType) (i : Z) :
  0 <= i < len toks -> index toks i = Some (tokAt toks i).
Proof.
  intros [H0 H1]. unfold index, tokAt.
  destruct (Z.ltb_spec i 0); [lia|].
  apply nth_error_nth'. unfold len in H1. lia.
Qed.

Lemma zero_neq_code (a : Terminal) : (0 =? code a) = false.
Proof. apply Z.eqb_neq. pose proof (code_keyword a). lia. Qed.

Lemma code_eqb (a b : Terminal) : a <> b -> (code a =? code b) = false.
Proof.
  intros H. apply Z.eqb_neq. intros E. apply H, code_inj, E.
Qed.

Lemma code_neq (a b : Terminal) : a <> b -> code a <> code b.
Proof. intros H E. apply H, code_inj, E. Qed.

(** Decide the comparisons between two named terminals. *)
Ltac code_norm :=
  repeat match goal with
  | |- context [code ?a =? code ?a] => rewrite (Z.eqb_refl (code a))
  | |- context [code ?a =? code ?b] => rewrite (code_eqb a b) by discriminate
  end.

(** *** The shape of a call to [Lex] *)

Lemma Lex_in_range (l : lexer) (lval : sqlSymType) :
  0 <= nextPos l < len (tokens l) ->
  Lex l lval =
    Some (set_lastPos l (nextPos l),
          Lex_switch (tokens l) (nextPos l) (tokAt (tokens l) (nextPos l)),
          id (Lex_switch (tokens l) (nextPos l)
                (tokAt (tokens l) (nextPos l)))).
Proof.
  intros H. unfold Lex. cbn [set_lastPos lastPos tokens].
  destruct (Z.leb_spec (len (tokens l)) (nextPos l)); [lia|].
  rewrite index_tokAt by lia. reflexivity.
Qed.

Lemma Lex_past_end (l : lexer) (lval : sqlSymType) :
  len (tokens l) <= nextPos l ->
  Lex l lval = Some (set_lastPos l (nextPos l), eofSym l, 0).
Proof.
  intros H. unfold Lex. cbn [set_lastPos lastPos tokens in_].
  destruct (Z.leb_spec (len (tokens l)) (nextPos l)); [|lia].
  reflexivity.
Qed.

Lemma same_text_refl (a : sqlSymType) : same_text a a.
Proof. split; reflexivity. Qed.

Lemma same_text_set_id (a : sqlSymType) (v : Z) : same_text a (set_id a v).
Proof. split; reflexivity. Qed.

Lemma same_text_if (c : bool) (x a b : sqlSymType) :
  same_text x a -> same_text x b -> same_text x (if c then a else b).
Proof. destruct c; auto. Qed.

Ltac same_text_tac :=
  repeat first
    [ apply same_text_refl
    | apply same_text_set_id
    | apply same_text_if ].

Lemma Lex_switch_same_text (toks : list sqlSymType) (p : Z)
    (lval : sqlSymType) :
  same_text lval (Lex_switch toks p lval).
Proof.
  unfold Lex_switch, Lex_NOTHING, Lex_INDEX, Lex_keyword.
  cbv zeta. same_text_tac.
Qed.

(** *** Guarded reads as peeks *)

Lemma prev_peekID (toks : list sqlSymType) (p : Z) :
  0 <= p < len toks ->
  (if 0 <? p then id (tokAt toks (p - 1)) else 0) = peekID toks (p - 1).
Proof.
  intros H. unfold peekID.
  destruct (Z.ltb_spec 0 p), (Z.leb_spec 0 (p - 1)),
    (Z.ltb_spec (p - 1) (len toks)); try lia; reflexivity.
Qed.

Lemma pprev_peekID (toks : list sqlSymType) (p : Z) :
  0 <= p < len toks ->
  (if 1 <? p then id (tokAt toks (p - 2)) else 0) = peekID toks (p - 2).
Proof.
  intros H. unfold peekID.
  destruct (Z.ltb_spec 1 p), (Z.leb_spec 0 (p - 2)),
    (Z.ltb_spec (p - 2) (len toks)); try lia; reflexivity.
Qed.

Lemma next_peekID (toks : list sqlSymType) (i : Z) :
  0 <= i ->
  (if i <? len toks then id (tokAt toks i) else 0) = peekID toks i.
Proof.
  intros H. unfold peekID.
  destruct (Z.leb_spec 0 i); [|lia]. reflexivity.
Qed.

Lemma id_peek (toks : list sqlSymType) (i : Z) :
  0 <= i -> id (peek toks i) = peekID toks i.
Proof.
  intros H. unfold peek, peekID.
  destruct (Z.leb_spec 0 i); [|lia].
  destruct (i <? len toks); reflexivity.
Qed.

Lemma returning_guard (toks : list sqlSymType) (p : Z) :
  0 <= p < len toks ->
  ((0 <? p) && (id (tokAt toks (p - 1)) =? RETURNING))%bool
  = (peekID toks (p - 1) =? RETURNING).
Proof.
  intros H. rewrite <- prev_peekID by assumption.
  destruct (0 <? p); [reflexivity|].
  symmetry. apply zero_neq_code.
Qed.

Lemma if_same {A : Type} (c : bool) (x : A) : (if c then x else x) = x.
Proof. destruct c; reflexivity. Qed.

(** *** Identity zero is inert *)

Lemma Lex_switch_zero (toks : list sqlSymType) (p : Z) (tok : sqlSymType) :
  id tok = 0 -> Lex_switch toks p tok = tok.
Proof.
  intros H. unfold Lex_switch, oneOf, lookaheadKeywords.
  cbn [existsb]. rewrite H, !zero_neq_code. reflexivity.
Qed.

Lemma Lex_NOTHING_zero_prev (toks : list sqlSymType) (p : Z)
    (tok : sqlSymType) :
  0 <= p < len toks -> peekID toks (p - 1) = 0 ->
  Lex_NOTHING toks p tok = tok.
Proof.
  intros Hp Hprev. unfold Lex_NOTHING.
  rewrite returning_guard, Hprev, zero_neq_code by assumption. reflexivity.
Qed.

Lemma Lex_INDEX_zero_neighbours (toks : list sqlSymType) (p : Z)
    (tok : sqlSymType) :
  0 <= p < len toks ->
  peekID toks (p - 1) = 0 -> peekID toks (p + 1) = 0 ->
  Lex_INDEX toks p tok = tok.
Proof.
  intros Hp Hprev Hnext. unfold Lex_INDEX. cbv zeta.
  rewrite prev_peekID, Hprev by assumption.
  rewrite (next_peekID toks (p + 1)), Hnext by lia.
  rewrite !zero_neq_code.
  change (0 =? rune ",") with false.
  change (0 =? rune "(") with false.
  change (255 <? 0) with false.
  reflexivity.
Qed.

Lemma Lex_keyword_zero_next (toks : list sqlSymType) (p : Z)
    (tok : sqlSymType) :
  0 <= p < len toks -> peekID toks (p + 1) = 0 ->
  Lex_keyword toks p tok = tok.
Proof.
  intros Hp Hnext. unfold Lex_keyword. cbv zeta.
  change (if p + 1 <? len toks then tokAt toks (p + 1) else zeroSym)
    with (peek toks (p + 1)).
  rewrite (id_peek toks (p + 1)), Hnext by lia.
  unfold oneOf. cbn [existsb]. rewrite !zero_neq_code.
  cbn [orb]. cbv iota. rewrite !if_same. reflexivity.
Qed.

Lemma Lex_switch_zero_neighbours (toks : list sqlSymType) (p : Z)
    (tok : sqlSymType) :
  0 <= p < len toks ->
  peekID toks (p - 1) = 0 -> peekID toks (p + 1) = 0 ->
  Lex_switch toks p tok = tok.
Proof.
  intros Hp Hprev Hnext. unfold Lex_switch.
  rewrite Lex_NOTHING_zero_prev, Lex_INDEX_zero_neighbours,
    Lex_keyword_zero_next by assumption.
  rewrite !if_same. reflexivity.
Qed.

(** *** Tokens appended past the end *)

Lemma len_app {A : Type} (l1 l2 : list A) : len (l1 ++ l2) = len l1 + len l2.
Proof. unfold len. rewrite List.length_app. lia. Qed.

Lemma tokAt_app_l (toks extra : list sqlSymType) (i : Z) :
  0 <= i < len toks -> tokAt (toks ++ extra) i = tokAt toks i.
Proof.
  intros H. unfold tokAt. apply app_nth1. unfold len in H. lia.
Qed.

Lemma tokAt_app_r_inert (toks extra : list sqlSymType) (i : Z) :
  Forall inert extra -> len toks <= i ->
  inert (tokAt (toks ++ extra) i).
Proof.
  intros Hall H. unfold tokAt.
  pose proof (len_nonneg toks) as H0. unfold len in *.
  rewrite app_nth2 by lia.
  destruct (Nat.lt_ge_cases (Z.to_nat i - List.length toks) (List.length extra))
    as [Hlt|Hge].
  - rewrite Forall_forall in Hall. apply Hall, nth_In, Hlt.
  - rewrite nth_overflow by exact Hge. split; reflexivity.
Qed.

Lemma peek_app_alike (toks extra : list sqlSymType) (i : Z) :
  Forall inert extra -> 0 <= i ->
  alike (peek (toks ++ extra) i) (peek toks i).
Proof.
  intros Hall Hi. unfold peek.
  destruct (Z.ltb_spec i (len toks)) as [Hlt|Hge].
  - rewrite len_app.
    destruct (Z.ltb_spec i (len toks + len extra));
      [|pose proof (len_nonneg extra); lia].
    rewrite tokAt_app_l by lia. split; reflexivity.
  - destruct (i <? len (toks ++ extra)); [|split; reflexivity].
    destruct (tokAt_app_r_inert toks extra i Hall Hge) as [E1 E2].
    split; [rewrite E1|rewrite E2]; reflexivity.
Qed.

Lemma peekID_app (toks extra : list sqlSymType) (i : Z) :
  Forall inert extra -> 0 <= i ->
  peekID (toks ++ extra) i = peekID toks i.
Proof.
  intros Hall Hi. rewrite <- !id_peek by assumption.
  apply (peek_app_alike toks extra i Hall Hi).
Qed.

Lemma peekID_app_behind (toks extra : list sqlSymType) (i : Z) :
  i < len toks -> peekID (toks ++ extra) i = peekID toks i.
Proof.
  intros Hi. unfold peekID. rewrite len_app.
  pose proof (len_nonneg extra).
  destruct (Z.leb_spec 0 i); [|reflexivity].
  destruct (Z.ltb_spec i (len toks)), (Z.ltb_spec i (len toks + len extra));
    try lia.
  cbn [andb]. rewrite tokAt_app_l by lia. reflexivity.
Qed.

Lemma atSignLoop_app (toks extra : list sqlSymType) (p : Z) (idxs : list Z) :
  Forall inert extra -> Forall (fun i => 0 <= i) idxs ->
  atSignLoop (toks ++ extra) p idxs = atSignLoop toks p idxs.
Proof.
  intros Hall Hidx. induction Hidx as [|i rest Hi Hrest IH]; [reflexivity|].
  cbn [atSignLoop]. rewrite IH.
  destruct (Z.ltb_spec i (len toks)) as [Hlt|Hge].
  - rewrite len_app. pose proof (len_nonneg extra).
    destruct (Z.ltb_spec i (len toks + len extra)); [|lia].
    rewrite tokAt_app_l by lia. reflexivity.
  - destruct (i <? len (toks ++ extra)); [|reflexivity].
    destruct (tokAt_app_r_inert toks extra i Hall Hge) as [E1 _].
    rewrite E1. reflexivity.
Qed.

Lemma range_nonneg (lo hi : Z) : 0 <= lo -> Forall (fun i => 0 <= i) (range lo hi).
Proof.
  intros H. unfold range. apply Forall_forall. intros i Hin.
  apply in_map_iff in Hin. destruct Hin as [k [<- _]]. lia.
Qed.

Lemma Lex_keyword_alike (toks toks' : list sqlSymType) (p : Z)
    (tok : sqlSymType) :
  alike (peek toks' (p + 1)) (peek toks (p + 1)) ->
  alike (peek toks' (p + 2)) (peek toks (p + 2)) ->
  alike (peek toks' (p + 3)) (peek toks (p + 3)) ->
  Lex_keyword toks' p tok = Lex_keyword toks p tok.
Proof.
  intros [I1 S1] [I2 S2] [I3 S3]. unfold Lex_keyword. cbv zeta.
  change (if p + 1 <? len toks then tokAt toks (p + 1) else zeroSym)
    with (peek toks (p + 1)).
  change (if p + 2 <? len toks then tokAt toks (p + 2) else zeroSym)
    with (peek toks (p + 2)).
  change (if p + 3 <? len toks then tokAt toks (p + 3) else zeroSym)
    with (peek toks (p + 3)).
  change (if p + 1 <? len toks' then tokAt toks' (p + 1) else zeroSym)
    with (peek toks' (p + 1)).
  change (if p + 2 <? len toks' then tokAt toks' (p + 2) else zeroSym)
    with (peek toks' (p + 2)).
  change (if p + 3 <? len toks' then tokAt toks' (p + 3) else zeroSym)
    with (peek toks' (p + 3)).
  rewrite I1, I2, S2, S3. reflexivity.
Qed.

Lemma Lex_switch_app (toks extra : list sqlSymType) (p : Z) :
  Forall inert extra -> 0 <= p < len toks ->
  Lex_switch (toks ++ extra) p (tokAt (toks ++ extra) p)
  = Lex_switch toks p (tokAt toks p).
Proof.
  intros Hall Hp. rewrite tokAt_app_l by assumption.
  pose proof (len_nonneg extra) as Hex.
  assert (Hp' : 0 <= p < len (toks ++ extra)) by (rewrite len_app; lia).
  set (tok := tokAt toks p).
  assert (E1 : Lex_NOTHING (toks ++ extra) p tok = Lex_NOTHING toks p tok).
  { unfold Lex_NOTHING.
    rewrite !returning_guard, peekID_app_behind by (assumption || lia).
    reflexivity. }
  assert (E2 : Lex_INDEX (toks ++ extra) p tok = Lex_INDEX toks p tok).
  { unfold Lex_INDEX. cbv zeta.
    rewrite !prev_peekID, !pprev_peekID by assumption.
    rewrite !(next_peekID _ (p + 1)), !(next_peekID _ (p + 2)) by lia.
    rewrite (peekID_app_behind toks extra (p - 1)) by lia.
    rewrite (peekID_app_behind toks extra (p - 2)) by lia.
    rewrite (peekID_app toks extra (p + 1)) by (assumption || lia).
    rewrite (peekID_app toks extra (p + 2)) by (assumption || lia).
    rewrite atSignLoop_app by (try assumption; apply range_nonneg; lia).
    reflexivity. }
  assert (E3 : Lex_keyword (toks ++ extra) p tok = Lex_keyword toks p tok).
  { apply Lex_keyword_alike; apply peek_app_alike; (assumption || lia). }
  unfold Lex_switch. rewrite E1, E2, E3. reflexivity.
Qed.

(** *** The [for] loop of the INDEX case *)

Lemma range_empty (lo hi : Z) : hi <= lo -> range lo hi = [].
Proof.
  intros H. unfold range.
  replace (Z.to_nat (hi - lo)) with O by lia. reflexivity.
Qed.

Lemma range_step (lo hi : Z) :
  lo < hi -> range lo hi = lo :: range (lo + 1) hi.
Proof.
  intros H. unfold range.
  replace (Z.to_nat (hi - lo)) with (S (Z.to_nat (hi - (lo + 1)))) by lia.
  cbn [seq map]. f_equal; [lia|].
  rewrite <- seq_shift, map_map. apply map_ext. intros k. lia.
Qed.

Lemma rune_comma : rune "," = 44. Proof. reflexivity. Qed.
Lemma rune_lparen : rune "(" = 40. Proof. reflexivity. Qed.
Lemma rune_dot : rune "." = 46. Proof. reflexivity. Qed.
Lemma rune_at : rune "@" = 64. Proof. reflexivity. Qed.

(** The loop leaves with [atSignAfterObjectName] set exactly when an
    at-sign stands at some visited index other than [lastPos+1] and every
    index visited before it holds a token the loop steps over. *)
Lemma atSignLoop_true_iff (toks : list sqlSymType) (p : Z) (n : nat) :
  forall lo : Z,
    p + 1 <= lo ->
    atSignLoop toks p (range lo (lo + Z.of_nat n)) = true <->
    exists i : Z,
      lo <= i < lo + Z.of_nat n /\ i < len toks /\ i <> p + 1 /\
      id (tokAt toks i) = rune "@" /\
      forall j : Z, lo <= j < i ->
        255 <= id (tokAt toks j) \/ id (tokAt toks j) = rune ".".
Proof.
  induction n as [|n IH]; intros lo Hlo.
  - rewrite range_empty by lia. cbn [atSignLoop]. split; [discriminate|].
    intros [i [Hi _]]. lia.
  - rewrite range_step by lia. cbn [atSignLoop].
    replace (lo + Z.of_nat (S n)) with (lo + 1 + Z.of_nat n) by lia.
    specialize (IH (lo + 1) ltac:(lia)).
    rewrite rune_dot, rune_at in *.
    destruct (Z.ltb_spec lo (len toks)) as [Hlen|Hlen].
    2:{ split; [discriminate|]. intros [i [Hi [Hi' _]]]. lia. }
    set (cur := id (tokAt toks lo)) in *.
    destruct (Z.ltb_spec cur 255) as [Hc|Hc];
      destruct (Z.eqb_spec cur 46) as [Hd|Hd];
      destruct (Z.eqb_spec cur 64) as [Ha|Ha];
      cbn [andb negb]; try lia.
    + (* a dot: the loop goes on *)
      rewrite IH. split.
      * intros [i [Hi [Hi1 [Hi2 [Hi3 Hi4]]]]]. exists i.
        repeat split; try lia; try assumption.
        intros j Hj. destruct (Z.eq_dec j lo) as [->|Hne];
          [right; exact Hd | apply Hi4; lia].
      * intros [i [Hi [Hi1 [Hi2 [Hi3 Hi4]]]]]. exists i.
        assert (i <> lo) by (intros ->; fold cur in Hi3; lia).
        repeat split; try lia; try assumption.
        intros j Hj. apply Hi4. lia.
    + (* an at-sign *)
      destruct (Z.eqb_spec lo (p + 1)) as [Hfirst|Hfirst].
      * split; [discriminate|].
        intros [i [Hi [Hi1 [Hi2 [Hi3 Hi4]]]]].
        assert (i <> lo) by lia.
        specialize (Hi4 lo ltac:(lia)). fold cur in Hi4. lia.
      * split; [|reflexivity]. intros _. exists lo.
        repeat split; try lia; try assumption.
    + (* punctuation other than a dot or an at-sign: the loop stops *)
      split; [discriminate|].
      intros [i [Hi [Hi1 [Hi2 [Hi3 Hi4]]]]].
      destruct (Z.eq_dec i lo) as [->|Hne]; [fold cur in Hi3; lia|].
      specialize (Hi4 lo ltac:(lia)). fold cur in Hi4. lia.
    + (* an identifier or a keyword: the loop goes on *)
      rewrite IH. split.
      * intros [i [Hi [Hi1 [Hi2 [Hi3 Hi4]]]]]. exists i.
        repeat split; try lia; try assumption.
        intros j Hj. destruct (Z.eq_dec j lo) as [->|Hne];
          [left; fold cur; lia | apply Hi4; lia].
      * intros [i [Hi [Hi1 [Hi2 [Hi3 Hi4]]]]]. exists i.
        assert (i <> lo) by (intros ->; fold cur in Hi3; lia).
        repeat split; try lia; try assumption.
        intros j Hj. apply Hi4. lia.
Qed.

(** *** The INDEX case *)

Lemma Lex_switch_INDEX (toks : list sqlSymType) (p : Z) (tok : sqlSymType) :
  id tok = INDEX -> Lex_switch toks p tok = Lex_INDEX toks p tok.
Proof.
  intros H. unfold Lex_switch. rewrite H. code_norm. reflexivity.
Qed.

(** The three tests of the INDEX case in terms of the neighbourhoods. *)
Lemma Lex_INDEX_peeks (toks : list sqlSymType) (p : Z) (tok : sqlSymType) :
  0 <= p < len toks ->
  Lex_INDEX toks p tok =
    let prevID := peekID toks (p - 1) in
    let pprevID := peekID toks (p - 2) in
    let nextID := peekID toks (p + 1) in
    let secondID := peekID toks (p + 2) in
    if (((prevID =? rune ",") || (prevID =? rune "("))
          && (nextID =? rune "(")
        || ((prevID =? rune ",") || (prevID =? OPTIONS))
          && (nextID =? rune "(")
        || ((prevID =? INVERTED)
             && ((pprevID =? rune ",") || (pprevID =? rune "(")))
          && (nextID =? rune "("))%bool
    then set_id tok INDEX_BEFORE_PAREN
    else if (((prevID =? rune ",") || (prevID =? rune "("))
               && ((255 <? nextID) && (secondID =? rune "("))
             || ((prevID =? INVERTED)
                  && ((pprevID =? rune ",") || (pprevID =? rune "(")))
               && ((255 <? nextID) && (secondID =? rune "(")))%bool
    then set_id tok INDEX_BEFORE_NAME_THEN_PAREN
    else if ((prevID =? rune ",")
             || ((prevID =? BY) && (pprevID =? ORDER)))%bool
    then
      if atSignLoop toks p (range (p + 1) (p + 7))
      then set_id tok INDEX_AFTER_ORDER_BY_BEFORE_AT
      else tok
    else tok.
Proof.
  intros Hp. unfold Lex_INDEX. cbv zeta.
  rewrite prev_peekID, pprev_peekID by assumption.
  rewrite (next_peekID toks (p + 1)), (next_peekID toks (p + 2)) by lia.
  reflexivity.
Qed.

Lemma beforeParen_test (toks : list sqlSymType) (p : Z) :
  let prevID := peekID toks (p - 1) in
  let pprevID := peekID toks (p - 2) in
  let nextID := peekID toks (p + 1) in
  (((prevID =? rune ",") || (prevID =? rune "("))
     && (nextID =? rune "(")
   || ((prevID =? rune ",") || (prevID =? OPTIONS))
     && (nextID =? rune "(")
   || ((prevID =? INVERTED)
        && ((pprevID =? rune ",") || (pprevID =? rune "(")))
     && (nextID =? rune "("))%bool = true
  <-> (afterCommaOrParen toks p \/ afterOPTIONS toks p
       \/ afterCommaOrParenThenINVERTED toks p)
      /\ followedByParen toks p.
Proof.
  cbv zeta.
  unfold afterCommaOrParen, afterOPTIONS, afterCommaOrParenThenINVERTED,
    followedByParen.
  rewrite !orb_true_iff, !andb_true_iff, !orb_true_iff, !Z.eqb_eq.
  tauto.
Qed.

Lemma beforeNameThenParen_test (toks : list sqlSymType) (p : Z) :
  let prevID := peekID toks (p - 1) in
  let pprevID := peekID toks (p - 2) in
  let nextID := peekID toks (p + 1) in
  let secondID := peekID toks (p + 2) in
  (((prevID =? rune ",") || (prevID =? rune "("))
     && ((255 <? nextID) && (secondID =? rune "("))
   || ((prevID =? INVERTED)
        && ((pprevID =? rune ",") || (pprevID =? rune "(")))
     && ((255 <? nextID) && (secondID =? rune "(")))%bool = true
  <-> (afterCommaOrParen toks p \/ afterCommaOrParenThenINVERTED toks p)
      /\ followedByNonPunctThenParen toks p.
Proof.
  cbv zeta.
  unfold afterCommaOrParen, afterCommaOrParenThenINVERTED,
    followedByNonPunctThenParen.
  rewrite !orb_true_iff, !andb_true_iff, !orb_true_iff, !Z.eqb_eq, Z.ltb_lt.
  tauto.
Qed.

Lemma afterCommaOrOrderBy_test (toks : list sqlSymType) (p : Z) :
  let prevID := peekID toks (p - 1) in
  let pprevID := peekID toks (p - 2) in
  ((prevID =? rune ",") || ((prevID =? BY) && (pprevID =? ORDER)))%bool = true
  <-> afterCommaOrOrderBy toks p.
Proof.
  cbv zeta. unfold afterCommaOrOrderBy.
  rewrite !orb_true_iff, !andb_true_iff, !Z.eqb_eq. tauto.
Qed.

(** The loop over the window in terms of [atSignAfterObjectName]. *)
Lemma atSignLoop_window (toks : list sqlSymType) (p : Z) :
  0 <= p ->
  window_avoids_255 toks p ->
  atSignLoop toks p (range (p + 1) (p + 7)) = true
  <-> atSignAfterObjectName toks p.
Proof.
  intros Hp H255.
  replace (p + 7) with (p + 1 + Z.of_nat 6) by lia.
  rewrite atSignLoop_true_iff by lia. unfold atSignAfterObjectName. split.
  - intros [i [Hi [Hi1 [Hi2 [Hi3 Hi4]]]]]. exists (i - p).
    replace (p + (i - p)) with i by lia.
    repeat split; try lia; try assumption.
    intros j Hj. destruct (Hi4 (p + j) ltac:(lia)) as [Hge|Hdot];
      [left | right; exact Hdot].
    pose proof (H255 j ltac:(lia) ltac:(lia)). lia.
  - intros [k [Hk [Hk1 [Hk2 Hk3]]]]. exists (p + k).
    repeat split; try lia; try assumption.
    intros j Hj. replace j with (p + (j - p)) by lia.
    destruct (Hk3 (j - p) ltac:(lia)) as [Hgt|Hdot];
      [left; lia | right; exact Hdot].
Qed.

Lemma peekID_in_range (toks : list sqlSymType) (i : Z) :
  0 <= i < len toks -> peekID toks i = id (tokAt toks i).
Proof.
  intros H. unfold peekID.
  destruct (Z.leb_spec 0 i), (Z.ltb_spec i (len toks)); try lia.
  reflexivity.
Qed.

(** An object name followed by an at-sign leaves no room for the
    parenthesis of the two earlier rules. *)
Lemma atSign_excludes_paren (toks : list sqlSymType) (p : Z) :
  0 <= p ->
  atSignAfterObjectName toks p ->
  ~ followedByParen toks p /\ ~ followedByNonPunctThenParen toks p.
Proof.
  intros Hp [k [Hk [Hlen [Hat Hname]]]].
  unfold followedByParen, followedByNonPunctThenParen.
  rewrite (peekID_in_range toks (p + 1)), (peekID_in_range toks (p + 2))
    by lia.
  rewrite rune_lparen. rewrite rune_at in Hat. rewrite rune_dot in Hname.
  pose proof (Hname 1 ltac:(lia)) as H1.
  split; [lia|]. intros [_ H2].
  destruct (Z.eq_dec k 2) as [->|Hne]; [lia|].
  pose proof (Hname 2 ltac:(lia)). lia.
Qed.

(** C1 (amended). An INDEX token is retagged INDEX_BEFORE_PAREN when it is
    preceded by a comma, an opening parenthesis, OPTIONS, or INVERTED that
    itself follows a comma or an opening parenthesis, and followed by an
    opening parenthesis. It is retagged INDEX_BEFORE_NAME_THEN_PAREN when
    it is preceded by a comma, an opening parenthesis, or such an INVERTED
    (OPTIONS does not count here), and followed by a token of identity
    above 255 and then an opening parenthesis. In every other neighbourhood
    neither of the two identities is returned. *)
Theorem Lex_INDEX_before_paren (l : lexer) (lval : sqlSymType) :
  0 <= nextPos l < len (tokens l) ->
  id (tokAt (tokens l) (nextPos l)) = INDEX ->
  exists (l' : lexer) (lval' : sqlSymType),
    Lex l lval = Some (l', lval', id lval') /\
    ((afterCommaOrParen (tokens l) (nextPos l)
      \/ afterOPTIONS (tokens l) (nextPos l)
      \/ afterCommaOrParenThenINVERTED (tokens l) (nextPos l))
     /\ followedByParen (tokens l) (nextPos l) ->
     id lval' = INDEX_BEFORE_PAREN) /\
    ((afterCommaOrParen (tokens l) (nextPos l)
      \/ afterCommaOrParenThenINVERTED (tokens l) (nextPos l))
     /\ followedByNonPunctThenParen (tokens l) (nextPos l) ->
     id lval' = INDEX_BEFORE_NAME_THEN_PAREN) /\
    (~ ((afterCommaOrParen (tokens l) (nextPos l)
         \/ afterOPTIONS (tokens l) (nextPos l)
         \/ afterCommaOrParenThenINVERTED (tokens l) (nextPos l))
        /\ followedByParen (tokens l) (nextPos l)) ->
     ~ ((afterCommaOrParen (tokens l) (nextPos l)
         \/ afterCommaOrParenThenINVERTED (tokens l) (nextPos l))
        /\ followedByNonPunctThenParen (tokens l) (nextPos l)) ->
     id lval' <> INDEX_BEFORE_PAREN /\
     id lval' <> INDEX_BEFORE_NAME_THEN_PAREN).
Proof.
  intros Hp Hid.
  set (toks := tokens l) in *. set (p := nextPos l) in *.
  eexists. eexists. split; [apply Lex_in_range; exact Hp|].
  fold toks p. rewrite (Lex_switch_INDEX toks p _ Hid).
  rewrite Lex_INDEX_peeks by exact Hp. cbv zeta.
  pose proof (beforeParen_test toks p) as T1. cbv zeta in T1.
  pose proof (beforeNameThenParen_test toks p) as T2. cbv zeta in T2.
  match type of T1 with (?b = true <-> _) => destruct b end;
    [|match type of T2 with (?b = true <-> _) => destruct b end].
  - (* the first test holds *)
    cbn [id set_id]. split; [reflexivity|]. split.
    + intros [_ HN]. destruct T1 as [T1 _].
      destruct (T1 eq_refl) as [_ HP].
      unfold followedByParen, followedByNonPunctThenParen in *.
      rewrite rune_lparen in HP. lia.
    + intros HnP. exfalso. apply HnP, T1. reflexivity.
  - (* the second test holds *)
    cbn [id set_id]. split; [|split].
    + intros HP. apply T1 in HP. discriminate.
    + reflexivity.
    + intros _ HnN. exfalso. apply HnN, T2. reflexivity.
  - (* neither holds *)
    split; [|split].
    + intros HP. apply T1 in HP. discriminate.
    + intros HN. apply T2 in HN. discriminate.
    + intros _ _.
      assert (Hout :
        forall t : sqlSymType,
          t = set_id (tokAt toks p) INDEX_AFTER_ORDER_BY_BEFORE_AT
          \/ t = tokAt toks p ->
          id t <> INDEX_BEFORE_PAREN /\
          id t <> INDEX_BEFORE_NAME_THEN_PAREN).
      { intros t [->| ->]; cbn [id set_id]; rewrite ?Hid;
          split; apply code_neq; discriminate. }
      apply Hout.
      destruct (_ || _)%bool; [destruct (atSignLoop _ _ _)|]; auto.
Qed.

(** C2 (amended). For an INDEX token preceded by a comma, or by BY that
    follows ORDER, and a window of six tokens none of which has the
    identity 255: the token is retagged INDEX_AFTER_ORDER_BY_BEFORE_AT
    exactly when an at-sign stands two to six tokens after it and every
    token in between has an identity above 255 or is a dot. Without such an
    at-sign the identity stays INDEX, unless the token follows a comma and
    one of the two parenthesis rules applies. *)
Theorem Lex_INDEX_after_order_by (l : lexer) (lval : sqlSymType) :
  0 <= nextPos l < len (tokens l) ->
  id (tokAt (tokens l) (nextPos l)) = INDEX ->
  afterCommaOrOrderBy (tokens l) (nextPos l) ->
  window_avoids_255 (tokens l) (nextPos l) ->
  exists (l' : lexer) (lval' : sqlSymType),
    Lex l lval = Some (l', lval', id lval') /\
    (id lval' = INDEX_AFTER_ORDER_BY_BEFORE_AT
     <-> atSignAfterObjectName (tokens l) (nextPos l)) /\
    (~ atSignAfterObjectName (tokens l) (nextPos l) ->
     ~ (peekID (tokens l) (nextPos l - 1) = rune ","
        /\ (followedByParen (tokens l) (nextPos l)
            \/ followedByNonPunctThenParen (tokens l) (nextPos l))) ->
     id lval' = INDEX).
Proof.
  intros Hp Hid Hafter H255.
  set (toks := tokens l) in *. set (p := nextPos l) in *.
  eexists. eexists. split; [apply Lex_in_range; exact Hp|].
  fold toks p. rewrite (Lex_switch_INDEX toks p _ Hid).
  rewrite Lex_INDEX_peeks by exact Hp. cbv zeta.
  pose proof (beforeParen_test toks p) as T1. cbv zeta in T1.
  pose proof (beforeNameThenParen_test toks p) as T2. cbv zeta in T2.
  pose proof (afterCommaOrOrderBy_test toks p) as T3. cbv zeta in T3.
  pose proof (atSignLoop_window toks p ltac:(lia) H255) as T4.
  pose proof (atSign_excludes_paren toks p ltac:(lia)) as Hex.
  assert (Hprev : forall P : Prop,
            (afterCommaOrParen toks p \/ P) ->
            peekID toks (p - 1) = rune "," \/ P).
  { intros P [[Hc|Hl]|HP]; [left; exact Hc | | right; exact HP].
    exfalso. destruct Hafter as [Hc|[Hby _]].
    - rewrite Hc, rune_comma, rune_lparen in Hl. discriminate.
    - rewrite Hby, rune_lparen in Hl.
      pose proof (code_keyword BY). lia. }
  assert (HnotOpt : ~ afterOPTIONS toks p).
  { unfold afterOPTIONS. intros Ho. destruct Hafter as [Hc|[Hby _]].
    - rewrite Hc, rune_comma in Ho. pose proof (code_keyword OPTIONS). lia.
    - rewrite Hby in Ho. apply code_inj in Ho. discriminate. }
  assert (HnotInv : ~ afterCommaOrParenThenINVERTED toks p).
  { intros [Hi _]. destruct Hafter as [Hc|[Hby _]].
    - rewrite Hc, rune_comma in Hi. pose proof (code_keyword INVERTED). lia.
    - rewrite Hby in Hi. apply code_inj in Hi. discriminate. }
  match type of T1 with (?b = true <-> _) => destruct b end;
    [|match type of T2 with (?b = true <-> _) => destruct b end].
  - (* the first parenthesis rule fires *)
    destruct T1 as [T1 _]. destruct (T1 eq_refl) as [Hpre HP].
    cbn [id set_id]. split; [split|].
    + intros E. apply code_inj in E. discriminate.
    + intros Hat. exfalso. exact (proj1 (Hex Hat) HP).
    + intros _ Hno. exfalso. apply Hno. split; [|left; exact HP].
      destruct (Hprev _ Hpre) as [Hc|[Ho|Hi]];
        [exact Hc | contradiction | contradiction].
  - (* the second parenthesis rule fires *)
    destruct T2 as [T2 _]. destruct (T2 eq_refl) as [Hpre HN].
    cbn [id set_id]. split; [split|].
    + intros E. apply code_inj in E. discriminate.
    + intros Hat. exfalso. exact (proj2 (Hex Hat) HN).
    + intros _ Hno. exfalso. apply Hno. split; [|right; exact HN].
      destruct (Hprev _ Hpre) as [Hc|Hi]; [exact Hc | contradiction].
  - (* the loop decides *)
    destruct T3 as [_ T3]. rewrite (T3 Hafter).
    destruct (atSignLoop toks p (range (p + 1) (p + 7))).
    + cbn [id set_id]. split; [split|].
      * intros _. apply T4. reflexivity.
      * reflexivity.
      * intros Hno. exfalso. apply Hno, T4. reflexivity.
    + rewrite Hid. split; [split|].
      * intros E. apply code_inj in E. discriminate.
      * intros Hat. apply T4 in Hat. discriminate.
      * reflexivity.
Qed.

(** *** The SET case *)

Lemma Lex_switch_SET (toks : list sqlSymType) (p : Z) (tok : sqlSymType) :
  id tok = SET -> Lex_switch toks p tok = Lex_keyword toks p tok.
Proof.
  intros H. unfold Lex_switch, oneOf, lookaheadKeywords. rewrite H.
  cbn [existsb]. code_norm. reflexivity.
Qed.

Lemma Lex_keyword_SET (toks : list sqlSymType) (p : Z) (tok : sqlSymType) :
  id tok = SET ->
  Lex_keyword toks p tok =
    if id (peek toks (p + 1)) =? TRACING then
      if negb (String.eqb (str (peek toks (p + 2))) ".")
      then set_id tok SET_TRACING else tok
    else if id (peek toks (p + 1)) =? SESSION then
      if id (peek toks (p + 2)) =? TRACING then
        if negb (String.eqb (str (peek toks (p + 3))) ".")
        then set_id tok SET_TRACING else tok
      else tok
    else tok.
Proof.
  intros H. unfold Lex_keyword. cbv zeta. rewrite H. code_norm. reflexivity.
Qed.

(** C3. A SET token is retagged SET_TRACING exactly when the next token is
    TRACING and the text of the token after it is not a dot, or the next
    token is SESSION, the one after it TRACING, and the text of the third
    is not a dot; otherwise it keeps the identity SET. *)
Theorem Lex_SET_TRACING (l : lexer) (lval : sqlSymType) :
  0 <= nextPos l < len (tokens l) ->
  id (tokAt (tokens l) (nextPos l)) = SET ->
  exists (l' : lexer) (lval' : sqlSymType),
    Lex l lval = Some (l', lval', id lval') /\
    (id lval' = SET_TRACING <->
       (id (peek (tokens l) (nextPos l + 1)) = TRACING /\
        str (peek (tokens l) (nextPos l + 2)) <> ".")
       \/
       (id (peek (tokens l) (nextPos l + 1)) = SESSION /\
        id (peek (tokens l) (nextPos l + 2)) = TRACING /\
        str (peek (tokens l) (nextPos l + 3)) <> ".")) /\
    (id lval' <> SET_TRACING -> id lval' = SET).
Proof.
  intros Hp Hid.
  set (toks := tokens l) in *. set (p := nextPos l) in *.
  eexists. eexists. split; [apply Lex_in_range; exact Hp|].
  fold toks p. rewrite (Lex_switch_SET toks p _ Hid).
  rewrite (Lex_keyword_SET toks p _ Hid).
  assert (Hne : code TRACING <> code SESSION) by (apply code_neq; discriminate).
  assert (Hst : code SET <> code SET_TRACING) by (apply code_neq; discriminate).
  destruct (Z.eqb_spec (id (peek toks (p + 1))) TRACING) as [E1|E1].
  - destruct (String.eqb_spec (str (peek toks (p + 2))) ".") as [E2|E2];
      cbn [negb id set_id]; rewrite ?Hid.
    + split; [|tauto]. split; [tauto|].
      intros [[_ H]|[H _]]; [tauto | congruence].
    + split; [|tauto]. split; [|reflexivity]. intros _. left. tauto.
  - destruct (Z.eqb_spec (id (peek toks (p + 1))) SESSION) as [E3|E3].
    + destruct (Z.eqb_spec (id (peek toks (p + 2))) TRACING) as [E4|E4].
      * destruct (String.eqb_spec (str (peek toks (p + 3))) ".") as [E5|E5];
          cbn [negb id set_id]; rewrite ?Hid.
        -- split; [|tauto]. split; [tauto|].
           intros [[H _]|[_ [_ H]]]; tauto.
        -- split; [|tauto]. split; [|reflexivity]. intros _. right. tauto.
      * rewrite Hid. split; [|tauto]. split; [tauto|].
        intros [[H _]|[_ [H _]]]; tauto.
    + rewrite Hid. split; [|tauto]. split; [tauto|].
      intros [[H _]|[H _]]; tauto.
Qed.

(** *** Frame *)

(** C7. An in-range call to Lex returns a token with the text and the
    offset of the token at the new position of the token sequence, only
    the identity may differ, and the lexer keeps its token sequence: the
    call changes nothing but the position. *)
Theorem Lex_changes_identity_only (l : lexer) (lval : sqlSymType) :
  0 <= nextPos l < len (tokens l) ->
  exists (tok : sqlSymType) (l' : lexer) (lval' : sqlSymType),
    index (tokens l) (nextPos l) = Some tok /\
    Lex l lval = Some (l', lval', id lval') /\
    str lval' = str tok /\
    pos lval' = pos tok /\
    tokens l' = tokens l /\
    l' = set_lastPos l (nextPos l).
Proof.
  intros Hp. eexists. eexists. eexists.
  split; [apply index_tokAt; exact Hp|].
  split; [apply Lex_in_range; exact Hp|].
  destruct (Lex_switch_same_text (tokens l) (nextPos l)
              (tokAt (tokens l) (nextPos l))) as [Hpos Hstr].
  repeat split; auto.
Qed.

(** *** End of input *)

Lemma lastToken_past_end (l : lexer) :
  len (tokens l) <= lastPos l -> lastToken l = eofSym l.
Proof.
  intros H. unfold lastToken, eofSym. pose proof (len_nonneg (tokens l)).
  destruct (Z.ltb_spec (lastPos l) 0); [lia|].
  destruct (Z.leb_spec (len (tokens l)) (lastPos l)); [|lia].
  reflexivity.
Qed.

Lemma nextPos_set_tokens (l : lexer) (v : list sqlSymType) :
  nextPos (set_tokens l v) = nextPos l.
Proof. reflexivity. Qed.

Lemma tokens_set_tokens (l : lexer) (v : list sqlSymType) :
  tokens (set_tokens l v) = v.
Proof. reflexivity. Qed.

Lemma inert_eofSym (l : lexer) : inert (eofSym l).
Proof. split; reflexivity. Qed.

(** C6. Once the position has moved past the end of the token array, Lex
    returns 0 and stores the end-of-input token: identity 0, the length of
    the source text converted to int32 as offset, which is that length
    whenever it fits an int32, and the text EOF; lastToken then returns
    that same token. Identity 0 sets off no rule: a token of identity 0 is
    returned as it is, a token whose two neighbours have identity 0 or are
    missing is returned as it is, and appending end-of-input tokens to the
    token array changes no in-range result. *)
Theorem Lex_end_of_input (l : lexer) (lval : sqlSymType) :
  (len (tokens l) <= nextPos l ->
   Lex l lval =
     Some (set_lastPos l (nextPos l),
           {| id := 0; pos := int32 (slen (in_ l)); str := "EOF" |}, 0) /\
   lastToken (set_lastPos l (nextPos l)) =
     {| id := 0; pos := int32 (slen (in_ l)); str := "EOF" |}) /\
  (len (tokens l) <= lastPos l ->
   lastToken l = {| id := 0; pos := int32 (slen (in_ l)); str := "EOF" |}) /\
  (slen (in_ l) <= max_int32 -> int32 (slen (in_ l)) = slen (in_ l)) /\
  (0 <= nextPos l < len (tokens l) ->
   id (tokAt (tokens l) (nextPos l)) = 0 ->
   Lex l lval =
     Some (set_lastPos l (nextPos l), tokAt (tokens l) (nextPos l), 0)) /\
  (0 <= nextPos l < len (tokens l) ->
   peekID (tokens l) (nextPos l - 1) = 0 ->
   peekID (tokens l) (nextPos l + 1) = 0 ->
   Lex l lval =
     Some (set_lastPos l (nextPos l), tokAt (tokens l) (nextPos l),
           id (tokAt (tokens l) (nextPos l)))) /\
  (forall k : nat,
     0 <= nextPos l < len (tokens l) ->
     exists (l1 l2 : lexer) (lval' : sqlSymType),
       Lex l lval = Some (l1, lval', id lval') /\
       Lex (set_tokens l (tokens l ++ repeat (eofSym l) k)) lval
       = Some (l2, lval', id lval')).
Proof.
  split; [|split; [|split; [|split; [|split]]]].
  - intros Hend. split.
    + apply Lex_past_end, Hend.
    + apply (lastToken_past_end (set_lastPos l (nextPos l))). exact Hend.
  - intros Hend. apply lastToken_past_end, Hend.
  - intros Hfit. apply int32_small. unfold slen in *. lia.
  - intros Hp Hid. rewrite Lex_in_range by exact Hp.
    rewrite Lex_switch_zero by exact Hid. rewrite Hid. reflexivity.
  - intros Hp Hprev Hnext. rewrite Lex_in_range by exact Hp.
    rewrite Lex_switch_zero_neighbours by assumption. reflexivity.
  - intros k Hp.
    set (extra := repeat (eofSym l) k).
    assert (Hall : Forall inert extra).
    { apply Forall_forall. intros t Ht. apply repeat_spec in Ht.
      subst t. apply inert_eofSym. }
    assert (Hp' : 0 <= nextPos (set_tokens l (tokens l ++ extra))
                  < len (tokens (set_tokens l (tokens l ++ extra)))).
    { rewrite nextPos_set_tokens, tokens_set_tokens, len_app.
      pose proof (len_nonneg extra). lia. }
    eexists. eexists. eexists. split; [apply Lex_in_range; exact Hp|].
    rewrite (Lex_in_range _ lval Hp').
    rewrite nextPos_set_tokens, tokens_set_tokens.
    rewrite (Lex_switch_app (tokens l) extra (nextPos l) Hall Hp).
    reflexivity.
Qed.

(** *** Placeholders *)

Lemma UpdateNumPlaceholders_max (l : lexer) (idx : Z) :
  0 <= idx < max_int ->
  numPlaceholders (UpdateNumPlaceholders l idx)
  = Z.max (numPlaceholders l) (idx + 1).
Proof.
  intros H. unfold UpdateNumPlaceholders.
  rewrite int_small by (unfold max_int in *; lia).
  destruct (Z.ltb_spec (numPlaceholders l) (idx + 1));
    cbn [numPlaceholders set_numPlaceholders]; lia.
Qed.

Lemma UpdateNumPlaceholders_all (idxs : list Z) :
  Forall (fun i => 0 <= i < max_int) idxs ->
  forall l : lexer,
    let n := numPlaceholders (fold_left UpdateNumPlaceholders idxs l) in
    numPlaceholders l <= n /\
    (forall j : Z, In j idxs -> j + 1 <= n) /\
    (n = numPlaceholders l \/ exists i : Z, In i idxs /\ n = i + 1).
Proof.
  intros Hall. induction Hall as [|i rest Hi Hrest IH]; intros l; cbv zeta.
  - cbn [fold_left]. split; [lia|]. split; [intros j []|left; reflexivity].
  - cbn [fold_left].
    destruct (IH (UpdateNumPlaceholders l i)) as [Hle [Hub Hwit]].
    rewrite UpdateNumPlaceholders_max in Hle, Hwit by exact Hi.
    split; [lia|]. split.
    + intros j [->|Hj]; [lia | apply Hub, Hj].
    + destruct Hwit as [Heq|[i' [Hin Heq]]].
      * destruct (Z.max_spec (numPlaceholders l) (i + 1)) as [[_ Hm]|[_ Hm]].
        -- right. exists i. split; [left; reflexivity | lia].
        -- left. lia.
      * right. exists i'. split; [right; exact Hin | exact Heq].
Qed.

(** C8. After init, recording placeholder indices leaves the counter at
    one plus the largest index recorded, zero when none was recorded; each
    call sets the counter to the larger of its value and the index plus
    one, so the counter never decreases; recording 0 and then 2 gives 3. *)
Theorem UpdateNumPlaceholders_counts (l0 : lexer) (sql : string)
    (toks : list sqlSymType) (nakedInt : option typesT) (idxs : list Z) :
  Forall (fun i => 0 <= i < max_int) idxs ->
  (idxs = [] ->
   numPlaceholders
     (fold_left UpdateNumPlaceholders idxs (init l0 sql toks nakedInt)) = 0)
  /\
  (forall j : Z, In j idxs ->
     j + 1 <= numPlaceholders
       (fold_left UpdateNumPlaceholders idxs (init l0 sql toks nakedInt)))
  /\
  (idxs <> [] ->
   exists i : Z, In i idxs /\
     numPlaceholders
       (fold_left UpdateNumPlaceholders idxs (init l0 sql toks nakedInt))
     = i + 1)
  /\
  (forall (l : lexer) (idx : Z), 0 <= idx < max_int ->
     numPlaceholders (UpdateNumPlaceholders l idx)
     = Z.max (numPlaceholders l) (idx + 1) /\
     numPlaceholders l <= numPlaceholders (UpdateNumPlaceholders l idx))
  /\
  numPlaceholders
    (UpdateNumPlaceholders
       (UpdateNumPlaceholders (init l0 sql toks nakedInt) 0) 2) = 3.
Proof.
  intros Hall.
  destruct (UpdateNumPlaceholders_all idxs Hall (init l0 sql toks nakedInt))
    as [Hle [Hub Hwit]].
  cbn [init numPlaceholders] in Hle, Hwit.
  split; [|split; [|split; [|split]]].
  - intros ->. reflexivity.
  - exact Hub.
  - intros Hne. destruct Hwit as [Heq|Hex]; [|exact Hex].
    destruct idxs as [|i rest]; [contradiction|].
    exfalso. pose proof (Hub i (or_introl eq_refl)) as Hub'.
    pose proof (Forall_inv Hall) as Hi. cbv beta in Hi. lia.
  - intros l idx Hidx. rewrite UpdateNumPlaceholders_max by exact Hidx.
    split; [reflexivity | lia].
  - reflexivity.
Qed.

(** *** Strings *)

Lemma sapp_assoc (a b c : string) : (a ++ b) ++ c = a ++ b ++ c.
Proof. induction a as [|x a IH]; cbn; [reflexivity | rewrite IH; reflexivity]. Qed.

Lemma sapp_nil_r (a : string) : a ++ EmptyString = a.
Proof. induction a as [|x a IH]; cbn; [reflexivity | rewrite IH; reflexivity]. Qed.

Lemma slen_app (a b : string) : slen (a ++ b) = slen a + slen b.
Proof.
  unfold slen. induction a as [|x a IH]; cbn [String.append String.length].
  - lia.
  - rewrite !Nat2Z.inj_succ. lia.
Qed.

Lemma slen_nonneg (s : string) : 0 <= slen s.
Proof. unfold slen. lia. Qed.

Lemma str_take_drop (n : nat) (s : string) : str_take n s ++ str_drop n s = s.
Proof.
  revert s. induction n as [|n IH]; intros [|x s]; cbn; try reflexivity.
  rewrite IH. reflexivity.
Qed.

Lemma str_take_length (n : nat) (s : string) :
  (n <= String.length s)%nat -> String.length (str_take n s) = n.
Proof.
  revert s. induction n as [|n IH]; intros [|x s] H; cbn in *;
    try reflexivity; try lia.
  rewrite IH by lia. reflexivity.
Qed.

Lemma str_take_app (a b : string) : str_take (String.length a) (a ++ b) = a.
Proof. induction a as [|x a IH]; cbn; [destruct b|rewrite IH]; reflexivity. Qed.

Lemma str_take_app_l (n : nat) (a b : string) :
  (n <= String.length a)%nat -> str_take n (a ++ b) = str_take n a.
Proof.
  revert a. induction n as [|n IH]; intros [|x a] H; cbn in *;
    try reflexivity; try lia.
  rewrite IH by lia. reflexivity.
Qed.

Lemma str_take_app_r (n : nat) (a b : string) :
  str_take (String.length a + n) (a ++ b) = a ++ str_take n b.
Proof. induction a as [|x a IH]; cbn; [|rewrite IH]; reflexivity. Qed.

Lemma str_drop_app_l (n : nat) (a b : string) :
  (n <= String.length a)%nat -> str_drop n (a ++ b) = str_drop n a ++ b.
Proof.
  revert a. induction n as [|n IH]; intros [|x a] H; cbn in *;
    try reflexivity; try lia.
  apply IH. lia.
Qed.

Lemma str_drop_app_r (n : nat) (a b : string) :
  str_drop (String.length a + n) (a ++ b) = str_drop n b.
Proof. induction a as [|x a IH]; cbn; [|rewrite IH]; reflexivity. Qed.

Lemma has_byte_app (c : ascii) (a b : string) :
  has_byte c (a ++ b) = (has_byte c a || has_byte c b)%bool.
Proof.
  induction a as [|x a IH]; cbn; [reflexivity|].
  rewrite IH, orb_assoc. reflexivity.
Qed.

Lemma has_byte_take (c : ascii) (n : nat) (s : string) :
  has_byte c s = false -> has_byte c (str_take n s) = false.
Proof.
  intros H. rewrite <- (str_take_drop n s), has_byte_app in H.
  apply orb_false_iff in H. apply H.
Qed.

Lemma has_byte_drop (c : ascii) (n : nat) (s : string) :
  has_byte c s = false -> has_byte c (str_drop n s) = false.
Proof.
  intros H. rewrite <- (str_take_drop n s), has_byte_app in H.
  apply orb_false_iff in H. apply H.
Qed.

Lemma IndexByte_range (s : string) (c : ascii) : -1 <= IndexByte s c.
Proof.
  induction s as [|x s IH]; cbn [IndexByte]; [lia|].
  destruct (Ascii.eqb x c); [lia|].
  destruct (Z.ltb_spec (IndexByte s c) 0); lia.
Qed.

(** The first [c] of [a ++ b] when [a] has none. *)
Lemma IndexByte_app_lacking (a b : string) (c : ascii) :
  has_byte c a = false ->
  IndexByte (a ++ b) c
  = if IndexByte b c <? 0 then -1 else slen a + IndexByte b c.
Proof.
  intros H. induction a as [|x a IH].
  - cbn [String.append]. change (slen EmptyString) with 0.
    pose proof (IndexByte_range b c).
    destruct (Z.ltb_spec (IndexByte b c) 0); lia.
  - cbn [has_byte] in H. apply orb_false_iff in H. destruct H as [Hx Ha].
    cbn [String.append IndexByte]. rewrite Hx, (IH Ha).
    replace (slen (String x a)) with (slen a + 1)
      by (unfold slen; cbn [String.length]; lia).
    pose proof (slen_nonneg a). pose proof (IndexByte_range b c).
    destruct (Z.ltb_spec (IndexByte b c) 0) as [Hb|Hb].
    + reflexivity.
    + destruct (Z.ltb_spec (slen a + IndexByte b c) 0); lia.
Qed.

Lemma LastIndexByte_lacking (s : string) (c : ascii) :
  has_byte c s = false -> LastIndexByte s c = -1.
Proof.
  induction s as [|x s IH]; intros H; [reflexivity|].
  cbn [has_byte] in H. apply orb_false_iff in H. destruct H as [Hx Hs].
  cbn [LastIndexByte]. rewrite (IH Hs), Hx. reflexivity.
Qed.

Lemma LastIndexByte_range (s : string) (c : ascii) : -1 <= LastIndexByte s c.
Proof.
  induction s as [|x s IH]; cbn [LastIndexByte]; [lia|].
  destruct (Z.leb_spec 0 (LastIndexByte s c)); [lia|].
  destruct (Ascii.eqb x c); lia.
Qed.

(** The last [c] of [a ++ b] when [b] has none. *)
Lemma LastIndexByte_app_lacking (a b : string) (c : ascii) :
  has_byte c b = false -> LastIndexByte (a ++ b) c = LastIndexByte a c.
Proof.
  intros H. induction a as [|x a IH].
  - cbn [String.append]. rewrite LastIndexByte_lacking by exact H.
    reflexivity.
  - cbn [String.append LastIndexByte]. rewrite IH. reflexivity.
Qed.

Lemma LastIndexByte_snoc (a : string) (c : ascii) :
  LastIndexByte (a ++ String c EmptyString) c = slen a.
Proof.
  induction a as [|x a IH].
  - cbn. rewrite Ascii.eqb_refl. reflexivity.
  - cbn [String.append LastIndexByte]. rewrite IH.
    pose proof (slen_nonneg a).
    destruct (Z.leb_spec 0 (slen a)); [|lia].
    unfold slen. cbn [String.length]. lia.
Qed.

(** Cutting a string before its first [c] and after its last [c]. *)
Lemma split_first (c : ascii) (s : string) :
  exists a b : string,
    s = a ++ b /\ has_byte c a = false /\
    (b = EmptyString \/ exists b', b = String c b').
Proof.
  induction s as [|x s [a [b [E [Ha Hb]]]]].
  - exists EmptyString, EmptyString. auto.
  - destruct (Ascii.eqb_spec x c) as [->|Hne].
    + exists EmptyString, (String c s). repeat split; eauto.
    + exists (String x a), b. rewrite E. repeat split; auto.
      cbn [has_byte]. rewrite Ha.
      destruct (Ascii.eqb_spec x c); [contradiction | reflexivity].
Qed.

Lemma split_last (c : ascii) (s : string) :
  exists a b : string,
    s = a ++ b /\ has_byte c b = false /\
    (a = EmptyString \/ exists a', a = a' ++ String c EmptyString).
Proof.
  induction s as [|x s [a [b [E [Hb Ha]]]]].
  - exists EmptyString, EmptyString. auto.
  - destruct Ha as [->|[a' ->]].
    + cbn [String.append] in E. subst s.
      destruct (Ascii.eqb_spec x c) as [->|Hne].
      * exists (String c EmptyString), b. repeat split; auto.
        right. exists EmptyString. reflexivity.
      * exists EmptyString, (String x b). repeat split; auto.
        cbn [has_byte]. rewrite Hb.
        destruct (Ascii.eqb_spec x c); [contradiction | reflexivity].
    + exists (String x a' ++ String c EmptyString), b. rewrite E.
      repeat split; auto. right. exists (String x a'). reflexivity.
Qed.

Lemma slen_drop (n : nat) (s : string) :
  (n <= String.length s)%nat -> slen (str_drop n s) = slen s - Z.of_nat n.
Proof.
  intros H. pose proof (str_take_drop n s) as E.
  apply (f_equal slen) in E. rewrite slen_app in E.
  unfold slen in E at 1. rewrite str_take_length in E by exact H. lia.
Qed.

Lemma slice_from_app (before rest : string) (at_ : Z) :
  slen before <= at_ <= slen before + slen rest ->
  slice_from (before ++ rest) at_
  = Some (str_drop (Z.to_nat (at_ - slen before)) rest).
Proof.
  intros H. unfold slice_from. rewrite slen_app.
  pose proof (slen_nonneg before).
  destruct (Z.ltb_spec at_ 0); [lia|].
  destruct (Z.ltb_spec (slen before + slen rest) at_); [lia|].
  cbn [orb]. f_equal.
  replace (Z.to_nat at_)
    with (String.length before + Z.to_nat (at_ - slen before))%nat
    by (unfold slen in *; lia).
  apply str_drop_app_r.
Qed.

Lemma slice_to_app (before rest : string) (at_ : Z) :
  slen before <= at_ <= slen before + slen rest ->
  slice_to (before ++ rest) at_
  = Some (before ++ str_take (Z.to_nat (at_ - slen before)) rest).
Proof.
  intros H. unfold slice_to. rewrite slen_app.
  pose proof (slen_nonneg before).
  destruct (Z.ltb_spec at_ 0); [lia|].
  destruct (Z.ltb_spec (slen before + slen rest) at_); [lia|].
  cbn [orb]. f_equal.
  replace (Z.to_nat at_)
    with (String.length before + Z.to_nat (at_ - slen before))%nat
    by (unfold slen in *; lia).
  apply str_take_app_r.
Qed.

(** *** The detail block *)

(** The detail computed for an offset on the line [line] of the source
    text [before ++ line ++ after]. *)
Lemma PopulateErrorDetails_at (before line after : string) (tokID : Z)
    (lastTokStr : string) (lastTokPos : Z) (lastErr : goerror) :
  has_byte newline line = false ->
  (before = EmptyString \/ exists b, before = b ++ nl) ->
  (after = EmptyString \/ exists a, after = nl ++ a) ->
  slen before <= lastTokPos <= slen before + slen line ->
  PopulateErrorDetails tokID lastTokStr lastTokPos lastErr
    (before ++ line ++ after)
  = retErr <-
      (if tokID =? ERROR then
         let err :=
           WithCandidateCode (New ("lexical error: " ++ lastTokStr)) Syntax in
         Some (WithSecondaryError err lastErr)
       else
         msg <- Error_ lastErr ;;
         let lastErr :=
           if negb (Contains msg "syntax error")
           then Wrap lastErr "syntax error" else lastErr in
         Some (Wrap lastErr
                 ("at or near " ++ dquote ++ lastTokStr ++ dquote))) ;;
    Some (WithDetail retErr
            ("source SQL:" ++ nl ++ (before ++ line) ++ nl
             ++ repeat_str " " (Z.to_nat (lastTokPos - slen before))
             ++ "^")).
Proof.
  intros Hline Hbefore Hafter Hpos. unfold PopulateErrorDetails.
  match goal with |- bind ?X _ = bind ?X _ => destruct X as [retErr|] end;
    [|reflexivity].
  cbn [bind].
  set (n := Z.to_nat (lastTokPos - slen before)).
  assert (Hn : (n <= String.length line)%nat) by (unfold slen in *; lia).
  pose proof (slen_nonneg before) as Hb0.
  pose proof (slen_nonneg line) as Hl0.
  pose proof (slen_nonneg after) as Ha0.
  (* lIn[lastTokPos:] *)
  rewrite slice_from_app by (rewrite slen_app; lia). fold n.
  rewrite str_drop_app_l by exact Hn. cbn [bind].
  (* lIn[:lastTokPos] *)
  rewrite slice_to_app by (rewrite slen_app; lia). fold n.
  rewrite str_take_app_l by exact Hn. cbn [bind].
  (* the end of the line *)
  rewrite IndexByte_app_lacking by (apply has_byte_drop; exact Hline).
  rewrite slen_drop by exact Hn.
  assert (Hend :
    (if (if IndexByte after newline <? 0 then -1
         else slen line - Z.of_nat n + IndexByte after newline) =? -1
     then slen (before ++ line ++ after)
     else (if IndexByte after newline <? 0 then -1
           else slen line - Z.of_nat n + IndexByte after newline)
          + lastTokPos)
    = slen before + slen line).
  { destruct Hafter as [->|[a ->]].
    - cbn [IndexByte]. change (-1 <? 0) with true. cbv iota.
      change (-1 =? -1) with true. cbv iota.
      rewrite !slen_app. change (slen EmptyString) with 0. lia.
    - cbn [nl String.append IndexByte]. rewrite Ascii.eqb_refl.
      change (0 <? 0) with false. cbv iota.
      destruct (Z.eqb_spec (slen line - Z.of_nat n + 0) (-1)); lia. }
  rewrite Hend.
  (* the beginning of the line *)
  rewrite LastIndexByte_app_lacking by (apply has_byte_take; exact Hline).
  assert (Hbegin : LastIndexByte before newline + 1 = slen before).
  { destruct Hbefore as [->|[b ->]].
    - reflexivity.
    - unfold nl. rewrite LastIndexByte_snoc, slen_app.
      reflexivity. }
  rewrite Hbegin.
  (* lIn[:i] *)
  rewrite slice_to_app by (rewrite slen_app; lia).
  replace (Z.to_nat (slen before + slen line - slen before))
    with (String.length line) by (unfold slen; lia).
  rewrite <- (Nat.add_0_r (String.length line)), str_take_app_r.
  cbn [str_take bind]. rewrite sapp_nil_r.
  (* the caret line *)
  unfold Repeat. destruct (Z.ltb_spec (lastTokPos - slen before) 0); [lia|].
  fold n. cbn [bind]. reflexivity.
Qed.

(** The error wrapped by [PopulateErrorDetails] when one is pending. *)
Lemma PopulateErrorDetails_cause (tokID : Z) (lastTokStr : string)
    (e : error) :
  (if tokID =? ERROR then
     let err :=
       WithCandidateCode (New ("lexical error: " ++ lastTokStr)) Syntax in
     Some (WithSecondaryError err (Some e))
   else
     msg <- Error_ (Some e) ;;
     let lastErr :=
       if negb (Contains msg "syntax error")
       then Wrap (Some e) "syntax error" else Some e in
     Some (Wrap lastErr ("at or near " ++ dquote ++ lastTokStr ++ dquote)))
  = Some (Some
      (if tokID =? ERROR then
         errWithSecondaryError
           (errWithCandidateCode (errNew ("lexical error: " ++ lastTokStr))
              Syntax) e
       else errWrap (asSyntaxError e) (atOrNear lastTokStr))).
Proof.
  unfold asSyntaxError, atOrNear.
  destruct (tokID =? ERROR); [reflexivity|].
  cbn [Error_ option_map bind].
  destruct (Contains (message e) "syntax error"); reflexivity.
Qed.

(** Every offset within the source text lies on a line, and the detail
    block is the one computed for that line. *)
Lemma PopulateErrorDetails_line (tokID : Z) (lastTokStr : string)
    (lastTokPos : Z) (e : error) (lIn : string) :
  0 <= lastTokPos <= slen lIn ->
  exists (retErr : error) (before line after : string),
    lIn = before ++ line ++ after /\
    has_byte newline line = false /\
    (before = EmptyString \/ exists b, before = b ++ nl) /\
    (after = EmptyString \/ exists a, after = nl ++ a) /\
    slen before <= lastTokPos <= slen before + slen line /\
    retErr = (if tokID =? ERROR then
                errWithSecondaryError
                  (errWithCandidateCode
                     (errNew ("lexical error: " ++ lastTokStr)) Syntax) e
              else errWrap (asSyntaxError e) (atOrNear lastTokStr)) /\
    PopulateErrorDetails tokID lastTokStr lastTokPos (Some e) lIn
    = Some (Some (errWithDetail retErr
        ("source SQL:" ++ nl ++ (before ++ line) ++ nl
         ++ repeat_str " " (Z.to_nat (lastTokPos - slen before))
         ++ "^"))).
Proof.
  intros Hpos.
  set (n := Z.to_nat lastTokPos).
  assert (Hn : (n <= String.length lIn)%nat) by (unfold slen in *; lia).
  destruct (split_last newline (str_take n lIn))
    as [a1 [b1 [E1 [Hb1 Ha1]]]].
  destruct (split_first newline (str_drop n lIn))
    as [a2 [b2 [E2 [Ha2 Hb2]]]].
  assert (Hsplit : lIn = a1 ++ (b1 ++ a2) ++ b2).
  { rewrite <- (str_take_drop n lIn) at 1. rewrite E1, E2.
    rewrite !sapp_assoc. reflexivity. }
  assert (Hlen : slen a1 + slen b1 = lastTokPos).
  { rewrite <- slen_app, <- E1. unfold slen.
    rewrite str_take_length by exact Hn. lia. }
  assert (Hline : has_byte newline (b1 ++ a2) = false).
  { rewrite has_byte_app, Hb1, Ha2. reflexivity. }
  assert (Hbefore : a1 = EmptyString \/ exists b, a1 = b ++ nl)
    by exact Ha1.
  assert (Hafter : b2 = EmptyString \/ exists a, b2 = nl ++ a)
    by exact Hb2.
  assert (Hin : slen a1 <= lastTokPos <= slen a1 + slen (b1 ++ a2)).
  { rewrite slen_app. pose proof (slen_nonneg b1).
    pose proof (slen_nonneg a2). lia. }
  pose proof (PopulateErrorDetails_at a1 (b1 ++ a2) b2 tokID lastTokStr
                lastTokPos (Some e) Hline Hbefore Hafter Hin) as Hrun.
  rewrite PopulateErrorDetails_cause in Hrun.
  cbn [bind WithDetail option_map] in Hrun.
  eexists. exists a1, (b1 ++ a2), b2.
  repeat split; try assumption; try lia.
  rewrite Hsplit at 1. exact Hrun.
Qed.

(** C5. The detail block quotes the source text up to the end of the line
    that holds the offset of the token, a line that runs from the nearest
    newline before the offset, or the start of the text, to the nearest
    newline at or after it, or the end of the text; then comes a line of
    as many spaces as the offset lies beyond the beginning of that line,
    and a caret. For a token at column 5 of line 2 the block quotes the
    first two lines and ends in four spaces and the caret. *)
Theorem PopulateErrorDetails_detail (tokID : Z) (lastTokStr : string)
    (lastTokPos : Z) (e : error) (lIn : string) :
  0 <= lastTokPos <= slen lIn ->
  (exists (retErr : error) (before line after : string),
     lIn = before ++ line ++ after /\
     has_byte newline line = false /\
     (before = EmptyString \/ exists b, before = b ++ nl) /\
     (after = EmptyString \/ exists a, after = nl ++ a) /\
     slen before <= lastTokPos <= slen before + slen line /\
     PopulateErrorDetails tokID lastTokStr lastTokPos (Some e) lIn
     = Some (Some (errWithDetail retErr
         ("source SQL:" ++ nl ++ (before ++ line) ++ nl
          ++ repeat_str " " (Z.to_nat (lastTokPos - slen before))
          ++ "^"))))
  /\
  (forall line1 line2 rest : string,
     lIn = line1 ++ nl ++ line2 ++ rest ->
     has_byte newline line1 = false ->
     has_byte newline line2 = false ->
     (rest = EmptyString \/ exists a, rest = nl ++ a) ->
     lastTokPos = slen line1 + 1 + 4 ->
     4 <= slen line2 ->
     exists retErr : error,
       PopulateErrorDetails tokID lastTokStr lastTokPos (Some e) lIn
       = Some (Some (errWithDetail retErr
           ("source SQL:" ++ nl ++ line1 ++ nl ++ line2 ++ nl
            ++ "    ^")))).
Proof.
  intros Hpos. split.
  - destruct (PopulateErrorDetails_line tokID lastTokStr lastTokPos e lIn
                Hpos)
      as [r [before [line [after [E [Hl [Hb [Ha [Hin [_ Hrun]]]]]]]]]].
    exists r, before, line, after. repeat split; try assumption; lia.
  - intros line1 line2 rest -> H1 H2 Hrest -> H4.
    assert (Hbefore : line1 ++ nl = EmptyString
                      \/ exists b, line1 ++ nl = b ++ nl)
      by (right; exists line1; reflexivity).
    assert (Hin : slen (line1 ++ nl) <= slen line1 + 1 + 4
                  <= slen (line1 ++ nl) + slen line2).
    { rewrite slen_app. change (slen nl) with 1. lia. }
    pose proof (PopulateErrorDetails_at (line1 ++ nl) line2 rest tokID
                  lastTokStr (slen line1 + 1 + 4) (Some e) H2 Hbefore
                  Hrest Hin) as Hrun.
    rewrite PopulateErrorDetails_cause in Hrun.
    cbn [bind WithDetail option_map] in Hrun.
    rewrite slen_app in Hrun. change (slen nl) with 1 in Hrun.
    replace (Z.to_nat (slen line1 + 1 + 4 - (slen line1 + 1))) with 4%nat
      in Hrun by lia.
    rewrite !sapp_assoc in Hrun. eexists. exact Hrun.
Qed.


(** *** Help requests *)

Lemma lastToken_set_lastError (l : lexer) (v : goerror) :
  lastToken (set_lastError l v) = lastToken l.
Proof. reflexivity. Qed.


(** *** Before the first token *)

(** C10. While no token has been returned, lastToken is the zero token:
    identity 0, offset 0, empty text, which is not the end-of-input token.
    An error raised then is built as a syntactic one, its message opens
    with at or near an empty quoted text, and its detail quotes the first
    line of the source with the caret in the first column. *)
Theorem lastToken_before_first_token (l : lexer) (e : error) :
  lastPos l < 0 ->
  lastError l = Some e ->
  lastToken l = {| id := 0; pos := 0; str := EmptyString |} /\
  lastToken l <> eofSym l /\
  exists first rest : string,
    in_ l = first ++ rest /\
    has_byte newline first = false /\
    (rest = EmptyString \/ exists a, rest = nl ++ a) /\
    populateErrorDetails l
    = Some (set_lastError l
        (Some (errWithDetail
           (errWrap (asSyntaxError e) ("at or near " ++ dquote ++ dquote))
           ("source SQL:" ++ nl ++ first ++ nl ++ "^")))).
Proof.
  intros Hpos Herr.
  assert (Hlast : lastToken l = zeroSym).
  { unfold lastToken. destruct (Z.ltb_spec (lastPos l) 0); [reflexivity|lia]. }
  split; [exact Hlast|]. split.
  - rewrite Hlast. unfold eofSym, zeroSym. intros H.
    apply (f_equal str) in H. discriminate H.
  - destruct (split_first newline (in_ l)) as [first [rest [E [Hf Hr]]]].
    exists first, rest. repeat split; try assumption.
    unfold populateErrorDetails. rewrite Hlast, Herr.
    cbn [id pos str zeroSym].
    assert (Hin : slen EmptyString <= 0 <= slen EmptyString + slen first).
    { change (slen EmptyString) with 0. pose proof (slen_nonneg first). lia. }
    pose proof (PopulateErrorDetails_at EmptyString first rest 0 EmptyString
                  0 (Some e) Hf (or_introl eq_refl) Hr Hin) as Hrun.
    change (EmptyString ++ first ++ rest) with (first ++ rest) in Hrun.
    rewrite <- E in Hrun.
    rewrite PopulateErrorDetails_cause, zero_neq_code in Hrun.
    rewrite Hrun. reflexivity.
Qed.

(** ** Further properties *)

(** *** The remaining look-ahead rules *)

Lemma oneOf_true_iff (v : Z) (cases : list Terminal) :
  oneOf v cases = true <-> exists k : Terminal, In k cases /\ v = code k.
Proof.
  unfold oneOf. rewrite existsb_exists. split; intros [k [Hin H]];
    exists k; split; try assumption; apply Z.eqb_eq; assumption.
Qed.

Lemma Lex_switch_lookahead (toks : list sqlSymType) (p : Z)
    (tok : sqlSymType) (k : Terminal) :
  In k lookaheadKeywords -> id tok = code k ->
  Lex_switch toks p tok = Lex_keyword toks p tok.
Proof.
  intros Hin Hid. unfold Lex_switch, oneOf. rewrite Hid.
  unfold lookaheadKeywords in *. cbn [In] in Hin.
  repeat (destruct Hin as [<-|Hin];
          [cbn [existsb]; code_norm; reflexivity|]).
  contradiction.
Qed.

Lemma Lex_keyword_call (l : lexer) (lval : sqlSymType) (k : Terminal) :
  In k lookaheadKeywords ->
  0 <= nextPos l < len (tokens l) ->
  id (tokAt (tokens l) (nextPos l)) = code k ->
  Lex l lval =
    Some (set_lastPos l (nextPos l),
          Lex_keyword (tokens l) (nextPos l) (tokAt (tokens l) (nextPos l)),
          id (Lex_keyword (tokens l) (nextPos l)
                (tokAt (tokens l) (nextPos l)))).
Proof.
  intros Hin Hp Hid. rewrite Lex_in_range by exact Hp.
  rewrite (Lex_switch_lookahead _ _ _ k Hin Hid). reflexivity.
Qed.

(** Unfold the keyword case at a token of known identity and name the
    three tokens read ahead. *)
Ltac keyword_case toks p Hid :=
  unfold Lex_keyword; cbv zeta;
  change (if p + 1 <? len toks then tokAt toks (p + 1) else zeroSym)
    with (peek toks (p + 1));
  change (if p + 2 <? len toks then tokAt toks (p + 2) else zeroSym)
    with (peek toks (p + 2));
  change (if p + 3 <? len toks then tokAt toks (p + 3) else zeroSym)
    with (peek toks (p + 3));
  rewrite Hid; code_norm; cbv iota.

(** X1. A NOTHING token is retagged NOTHING_AFTER_RETURNING exactly when
    the token before it is RETURNING; otherwise, and in particular as the
    first token, it stays NOTHING. *)
Theorem Lex_NOTHING_AFTER_RETURNING (l : lexer) (lval : sqlSymType) :
  0 <= nextPos l < len (tokens l) ->
  id (tokAt (tokens l) (nextPos l)) = NOTHING ->
  exists (l' : lexer) (lval' : sqlSymType),
    Lex l lval = Some (l', lval', id lval') /\
    (id lval' = NOTHING_AFTER_RETURNING
     <-> peekID (tokens l) (nextPos l - 1) = RETURNING) /\
    (id lval' <> NOTHING_AFTER_RETURNING -> id lval' = NOTHING) /\
    (nextPos l = 0 -> id lval' = NOTHING).
Proof.
  intros Hp Hid.
  set (toks := tokens l) in *. set (p := nextPos l) in *.
  eexists. eexists. split; [apply Lex_in_range; exact Hp|].
  fold toks p. unfold Lex_switch. rewrite Hid, Z.eqb_refl.
  unfold Lex_NOTHING. rewrite returning_guard by exact Hp.
  assert (Hne : code NOTHING <> code NOTHING_AFTER_RETURNING)
    by (apply code_neq; discriminate).
  destruct (Z.eqb_spec (peekID toks (p - 1)) RETURNING) as [E|E];
    cbn [id set_id]; rewrite ?Hid.
  - split; [tauto|]. split; [tauto|].
    intros H0. exfalso. unfold peekID in E. rewrite H0 in E.
    change (0 <=? 0 - 1) with false in E. cbn [andb] in E.
    pose proof (code_keyword RETURNING). lia.
  - split; [|tauto]. split; [congruence | tauto].
Qed.

(** X2. An AS token is retagged AS_LA exactly when it is followed by OF
    and then SYSTEM; otherwise it stays AS. *)
Theorem Lex_AS_LA (l : lexer) (lval : sqlSymType) :
  0 <= nextPos l < len (tokens l) ->
  id (tokAt (tokens l) (nextPos l)) = AS ->
  exists (l' : lexer) (lval' : sqlSymType),
    Lex l lval = Some (l', lval', id lval') /\
    (id lval' = AS_LA
     <-> id (peek (tokens l) (nextPos l + 1)) = OF /\
         id (peek (tokens l) (nextPos l + 2)) = SYSTEM) /\
    (id lval' <> AS_LA -> id lval' = AS).
Proof.
  intros Hp Hid.
  set (toks := tokens l) in *. set (p := nextPos l) in *.
  eexists. eexists.
  split; [apply (Lex_keyword_call l lval AS); cbn; tauto|].
  fold toks p. keyword_case toks p Hid.
  assert (Hne : code AS <> code AS_LA) by (apply code_neq; discriminate).
  destruct (Z.eqb_spec (id (peek toks (p + 1))) OF) as [E1|E1];
    [destruct (Z.eqb_spec (id (peek toks (p + 2))) SYSTEM) as [E2|E2]|];
    cbn [id set_id]; rewrite ?Hid; tauto.
Qed.

(** X3. A NOT token is retagged NOT_LA exactly when the next token is
    BETWEEN, IN, LIKE, ILIKE or SIMILAR; otherwise it stays NOT. *)
Theorem Lex_NOT_LA (l : lexer) (lval : sqlSymType) :
  0 <= nextPos l < len (tokens l) ->
  id (tokAt (tokens l) (nextPos l)) = NOT ->
  exists (l' : lexer) (lval' : sqlSymType),
    Lex l lval = Some (l', lval', id lval') /\
    (id lval' = NOT_LA
     <-> exists k : Terminal,
           In k [BETWEEN; IN; LIKE; ILIKE; SIMILAR] /\
           id (peek (tokens l) (nextPos l + 1)) = k) /\
    (id lval' <> NOT_LA -> id lval' = NOT).
Proof.
  intros Hp Hid.
  set (toks := tokens l) in *. set (p := nextPos l) in *.
  eexists. eexists.
  split; [apply (Lex_keyword_call l lval NOT); cbn; tauto|].
  fold toks p. keyword_case toks p Hid.
  assert (Hne : code NOT <> code NOT_LA) by (apply code_neq; discriminate).
  pose proof (oneOf_true_iff (id (peek toks (p + 1)))
                [BETWEEN; IN; LIKE; ILIKE; SIMILAR]) as Hone.
  destruct (oneOf _ _); cbn [id set_id]; rewrite ?Hid.
  - split; [|tauto]. split; [intros _; apply Hone; reflexivity | reflexivity].
  - split; [|tauto]. split; [congruence|].
    intros H. apply Hone in H. discriminate H.
Qed.

(** X4. A GENERATED token is retagged GENERATED_ALWAYS exactly when ALWAYS
    follows and GENERATED_BY_DEFAULT exactly when BY follows; before any
    other token it stays GENERATED. *)
Theorem Lex_GENERATED (l : lexer) (lval : sqlSymType) :
  0 <= nextPos l < len (tokens l) ->
  id (tokAt (tokens l) (nextPos l)) = GENERATED ->
  exists (l' : lexer) (lval' : sqlSymType),
    Lex l lval = Some (l', lval', id lval') /\
    (id lval' = GENERATED_ALWAYS
     <-> id (peek (tokens l) (nextPos l + 1)) = ALWAYS) /\
    (id lval' = GENERATED_BY_DEFAULT
     <-> id (peek (tokens l) (nextPos l + 1)) = BY) /\
    (id lval' <> GENERATED_ALWAYS -> id lval' <> GENERATED_BY_DEFAULT ->
     id lval' = GENERATED).
Proof.
  intros Hp Hid.
  set (toks := tokens l) in *. set (p := nextPos l) in *.
  eexists. eexists.
  split; [apply (Lex_keyword_call l lval GENERATED); cbn; tauto|].
  fold toks p. keyword_case toks p Hid.
  assert (H1 : code GENERATED <> code GENERATED_ALWAYS)
    by (apply code_neq; discriminate).
  assert (H2 : code GENERATED <> code GENERATED_BY_DEFAULT)
    by (apply code_neq; discriminate).
  assert (H3 : code GENERATED_ALWAYS <> code GENERATED_BY_DEFAULT)
    by (apply code_neq; discriminate).
  assert (H4 : code ALWAYS <> code BY) by (apply code_neq; discriminate).
  destruct (Z.eqb_spec (id (peek toks (p + 1))) ALWAYS) as [E1|E1];
    [|destruct (Z.eqb_spec (id (peek toks (p + 1))) BY) as [E2|E2]];
    cbn [id set_id]; rewrite ?Hid;
    repeat split; intros; try congruence; try tauto.
Qed.

(** X5. A WITH token is retagged WITH_LA exactly when the next token is
    TIME, ORDINALITY or BUCKET_COUNT; otherwise it stays WITH. *)
Theorem Lex_WITH_LA (l : lexer) (lval : sqlSymType) :
  0 <= nextPos l < len (tokens l) ->
  id (tokAt (tokens l) (nextPos l)) = WITH ->
  exists (l' : lexer) (lval' : sqlSymType),
    Lex l lval = Some (l', lval', id lval') /\
    (id lval' = WITH_LA
     <-> exists k : Terminal,
           In k [TIME; ORDINALITY; BUCKET_COUNT] /\
           id (peek (tokens l) (nextPos l + 1)) = k) /\
    (id lval' <> WITH_LA -> id lval' = WITH).
Proof.
  intros Hp Hid.
  set (toks := tokens l) in *. set (p := nextPos l) in *.
  eexists. eexists.
  split; [apply (Lex_keyword_call l lval WITH); cbn; tauto|].
  fold toks p. keyword_case toks p Hid.
  assert (Hne : code WITH <> code WITH_LA) by (apply code_neq; discriminate).
  pose proof (oneOf_true_iff (id (peek toks (p + 1)))
                [TIME; ORDINALITY; BUCKET_COUNT]) as Hone.
  destruct (oneOf _ _); cbn [id set_id]; rewrite ?Hid.
  - split; [|tauto]. split; [intros _; apply Hone; reflexivity | reflexivity].
  - split; [|tauto]. split; [congruence|].
    intros H. apply Hone in H. discriminate H.
Qed.

(** X6. A NULLS token is retagged NULLS_LA exactly when the next token is
    FIRST or LAST; otherwise it stays NULLS. *)
Theorem Lex_NULLS_LA (l : lexer) (lval : sqlSymType) :
  0 <= nextPos l < len (tokens l) ->
  id (tokAt (tokens l) (nextPos l)) = NULLS ->
  exists (l' : lexer) (lval' : sqlSymType),
    Lex l lval = Some (l', lval', id lval') /\
    (id lval' = NULLS_LA
     <-> id (peek (tokens l) (nextPos l + 1)) = FIRST \/
         id (peek (tokens l) (nextPos l + 1)) = LAST) /\
    (id lval' <> NULLS_LA -> id lval' = NULLS).
Proof.
  intros Hp Hid.
  set (toks := tokens l) in *. set (p := nextPos l) in *.
  eexists. eexists.
  split; [apply (Lex_keyword_call l lval NULLS); cbn; tauto|].
  fold toks p. keyword_case toks p Hid.
  assert (Hne : code NULLS <> code NULLS_LA)
    by (apply code_neq; discriminate).
  unfold oneOf. cbn [existsb]. rewrite orb_false_r.
  destruct (Z.eqb_spec (id (peek toks (p + 1))) FIRST) as [E1|E1];
    [|destruct (Z.eqb_spec (id (peek toks (p + 1))) LAST) as [E2|E2]];
    cbn [orb id set_id]; rewrite ?Hid; tauto.
Qed.

(** X7. Each of RESET, ROLE, USER, TENANT and CLUSTER is retagged to its
    ALL variant exactly when the next token is ALL; otherwise it keeps its
    identity. *)
Theorem Lex_before_ALL (l : lexer) (lval : sqlSymType)
    (k variant : Terminal) :
  In (k, variant) allVariants ->
  0 <= nextPos l < len (tokens l) ->
  id (tokAt (tokens l) (nextPos l)) = k ->
  exists (l' : lexer) (lval' : sqlSymType),
    Lex l lval = Some (l', lval', id lval') /\
    (id lval' = variant <-> id (peek (tokens l) (nextPos l + 1)) = ALL) /\
    (id lval' <> variant -> id lval' = k).
Proof.
  intros Hin Hp Hid.
  set (toks := tokens l) in *. set (p := nextPos l) in *.
  unfold allVariants in Hin. cbn [In] in Hin.
  repeat (destruct Hin as [Hin|Hin];
    [injection Hin as <- <-;
     eexists; eexists;
     split; [eapply (Lex_keyword_call l lval); [|exact Hp|exact Hid];
             cbn; tauto|];
     fold toks p; keyword_case toks p Hid;
     match goal with
     | |- context [set_id _ (code ?v)] =>
         match type of Hid with
         | _ = code ?k0 =>
             assert (Hne : code k0 <> code v)
               by (apply code_neq; discriminate)
         end
     end;
     destruct (Z.eqb_spec (id (peek toks (p + 1))) ALL) as [E|E];
     cbn [id set_id]; rewrite ?Hid; tauto|]).
  contradiction.
Qed.

(** X8. An ON token is retagged ON_LA exactly when the next token is
    DELETE, or the next token is UPDATE and the one after it is NO,
    RESTRICT, CASCADE or SET; otherwise it stays ON. *)
Theorem Lex_ON_LA (l : lexer) (lval : sqlSymType) :
  0 <= nextPos l < len (tokens l) ->
  id (tokAt (tokens l) (nextPos l)) = ON ->
  exists (l' : lexer) (lval' : sqlSymType),
    Lex l lval = Some (l', lval', id lval') /\
    (id lval' = ON_LA
     <-> id (peek (tokens l) (nextPos l + 1)) = DELETE \/
         (id (peek (tokens l) (nextPos l + 1)) = UPDATE /\
          exists k : Terminal,
            In k [NO; RESTRICT; CASCADE; SET] /\
            id (peek (tokens l) (nextPos l + 2)) = k)) /\
    (id lval' <> ON_LA -> id lval' = ON).
Proof.
  intros Hp Hid.
  set (toks := tokens l) in *. set (p := nextPos l) in *.
  eexists. eexists.
  split; [apply (Lex_keyword_call l lval ON); cbn; tauto|].
  fold toks p. keyword_case toks p Hid.
  assert (Hne : code ON <> code ON_LA) by (apply code_neq; discriminate).
  assert (Hdu : code DELETE <> code UPDATE) by (apply code_neq; discriminate).
  pose proof (oneOf_true_iff (id (peek toks (p + 2)))
                [NO; RESTRICT; CASCADE; SET]) as Hone.
  destruct (Z.eqb_spec (id (peek toks (p + 1))) DELETE) as [E1|E1].
  - cbn [id set_id]. split; [|tauto]. split; [tauto | reflexivity].
  - destruct (Z.eqb_spec (id (peek toks (p + 1))) UPDATE) as [E2|E2].
    + destruct (oneOf _ _); cbn [id set_id]; rewrite ?Hid.
      * split; [|tauto]. split; [|reflexivity].
        intros _. right. split; [exact E2|]. apply Hone. reflexivity.
      * split; [|tauto]. split; [congruence|].
        intros [H|[_ H]]; [contradiction|].
        apply Hone in H. discriminate H.
    + rewrite Hid. split; [|tauto]. split; [congruence|].
      intros [H|[H _]]; contradiction.
Qed.

(** *** What Lex leaves alone *)

(** X9. A token whose identity is none of NOTHING, INDEX and the twelve
    look-ahead keywords is returned exactly as it stands in the token
    array, whatever its neighbours. *)
Theorem Lex_other_identities_unchanged (l : lexer) (lval : sqlSymType) :
  0 <= nextPos l < len (tokens l) ->
  (forall k : Terminal, In k triggers ->
     id (tokAt (tokens l) (nextPos l)) <> k) ->
  Lex l lval =
    Some (set_lastPos l (nextPos l), tokAt (tokens l) (nextPos l),
          id (tokAt (tokens l) (nextPos l))).
Proof.
  intros Hp Hnone. rewrite Lex_in_range by exact Hp.
  set (tok := tokAt (tokens l) (nextPos l)) in *.
  assert (Hsw : Lex_switch (tokens l) (nextPos l) tok = tok).
  { unfold Lex_switch.
    assert (E1 : (id tok =? NOTHING) = false)
      by (apply Z.eqb_neq, Hnone; cbn; tauto).
    assert (E2 : (id tok =? INDEX) = false)
      by (apply Z.eqb_neq, Hnone; cbn; tauto).
    assert (E3 : oneOf (id tok) lookaheadKeywords = false).
    { destruct (oneOf (id tok) lookaheadKeywords) eqn:E; [|reflexivity].
      apply oneOf_true_iff in E. destruct E as [k [Hin Hk]].
      exfalso. apply (Hnone k); [right; right; exact Hin | exact Hk]. }
    rewrite E1, E2, E3. reflexivity. }
  rewrite Hsw. reflexivity.
Qed.

(** The token stored by the switch is the token read or that token with
    the identity of a named terminal. *)
Lemma Lex_switch_retags (toks : list sqlSymType) (p : Z) (tok : sqlSymType) :
  Lex_switch toks p tok = tok \/
  exists k : Terminal, Lex_switch toks p tok = set_id tok k.
Proof.
  assert (Hif : forall (c : bool) (a b : sqlSymType),
            (a = tok \/ exists k : Terminal, a = set_id tok k) ->
            (b = tok \/ exists k : Terminal, b = set_id tok k) ->
            (if c then a else b) = tok \/
            exists k : Terminal, (if c then a else b) = set_id tok k)
    by (intros [] a b Ha Hb; assumption).
  unfold Lex_switch, Lex_NOTHING, Lex_INDEX, Lex_keyword. cbv zeta.
  repeat first
    [ apply Hif
    | left; reflexivity
    | right; eexists; reflexivity ].
Qed.

(** X10. The identity returned for a token of the array is the identity of
    that token or a value above 255; so Lex returns 0, the end-of-input
    signal, or any punctuation identity, only for a token that carries
    it. *)
Theorem Lex_returns_identity_or_keyword (l : lexer) (lval : sqlSymType) :
  0 <= nextPos l < len (tokens l) ->
  exists (l' : lexer) (lval' : sqlSymType) (r : Z),
    Lex l lval = Some (l', lval', r) /\
    r = id lval' /\
    (r = id (tokAt (tokens l) (nextPos l)) \/ 255 < r) /\
    (r = 0 <-> id (tokAt (tokens l) (nextPos l)) = 0).
Proof.
  intros Hp. eexists. eexists. eexists.
  split; [apply Lex_in_range; exact Hp|]. split; [reflexivity|].
  destruct (Lex_switch_retags (tokens l) (nextPos l)
              (tokAt (tokens l) (nextPos l))) as [E|[k E]]; rewrite E.
  - split; [left; reflexivity | tauto].
  - cbn [id set_id]. pose proof (code_keyword k) as Hk.
    split; [right; exact Hk|]. split; [lia|].
    intros H0. exfalso.
    (* the token read has identity 0, so the switch leaves it alone *)
    rewrite (Lex_switch_zero _ _ _ H0) in E.
    apply (f_equal id) in E. cbn [id set_id] in E. lia.
Qed.

(** *** The window Lex looks at *)

Lemma peek_in_range (toks : list sqlSymType) (i : Z) :
  i < len toks -> peek toks i = tokAt toks i.
Proof.
  intros H. unfold peek. destruct (Z.ltb_spec i (len toks)); [reflexivity|lia].
Qed.

Lemma peek_past_end (toks : list sqlSymType) (i : Z) :
  len toks <= i -> peek toks i = zeroSym.
Proof.
  intros H. unfold peek. destruct (Z.ltb_spec i (len toks)); [lia|reflexivity].
Qed.

(** The loop sees the token array through [peek] alone. *)
Lemma atSignLoop_ext (toks1 toks2 : list sqlSymType) (p : Z)
    (idxs : list Z) :
  Forall (fun i => peek toks1 i = peek toks2 i) idxs ->
  atSignLoop toks1 p idxs = atSignLoop toks2 p idxs.
Proof.
  intros Hall. induction Hall as [|i rest Hi Hrest IH]; [reflexivity|].
  cbn [atSignLoop]. rewrite IH.
  destruct (Z.ltb_spec i (len toks1)) as [H1|H1];
    destruct (Z.ltb_spec i (len toks2)) as [H2|H2].
  - rewrite !peek_in_range in Hi by assumption. rewrite Hi. reflexivity.
  - rewrite peek_in_range, peek_past_end in Hi by assumption.
    rewrite Hi. reflexivity.
  - rewrite peek_past_end, peek_in_range in Hi by assumption.
    rewrite <- Hi. reflexivity.
  - reflexivity.
Qed.

Lemma Lex_switch_window (toks1 toks2 : list sqlSymType) (p : Z)
    (tok : sqlSymType) :
  0 <= p < len toks1 -> 0 <= p < len toks2 ->
  peekID toks1 (p - 1) = peekID toks2 (p - 1) ->
  peekID toks1 (p - 2) = peekID toks2 (p - 2) ->
  (forall j : Z, 1 <= j <= 6 -> peek toks1 (p + j) = peek toks2 (p + j)) ->
  Lex_switch toks1 p tok = Lex_switch toks2 p tok.
Proof.
  intros Hp1 Hp2 Hprev Hpprev Hahead.
  assert (E1 : Lex_NOTHING toks1 p tok = Lex_NOTHING toks2 p tok).
  { unfold Lex_NOTHING. rewrite !returning_guard, Hprev by assumption.
    reflexivity. }
  assert (E2 : Lex_INDEX toks1 p tok = Lex_INDEX toks2 p tok).
  { rewrite !Lex_INDEX_peeks by assumption. cbv zeta.
    rewrite Hprev, Hpprev.
    rewrite <- !(id_peek _ (p + 1)), <- !(id_peek _ (p + 2)) by lia.
    rewrite (Hahead 1), (Hahead 2) by lia.
    rewrite (atSignLoop_ext toks1 toks2 p (range (p + 1) (p + 7)));
      [reflexivity|].
    apply Forall_forall. intros i Hin. unfold range in Hin.
    apply in_map_iff in Hin. destruct Hin as [k [<- Hk]].
    apply in_seq in Hk.
    replace (p + 1 + Z.of_nat k) with (p + (1 + Z.of_nat k)) by lia.
    apply Hahead. lia. }
  assert (E3 : Lex_keyword toks1 p tok = Lex_keyword toks2 p tok).
  { apply Lex_keyword_alike; rewrite Hahead by lia; split; reflexivity. }
  unfold Lex_switch. rewrite E1, E2, E3. reflexivity.
Qed.

(** X11. The token Lex returns is determined by the token at the new
    position, the identities of the two tokens before it and the six
    tokens after it: two token arrays that agree there give the same
    result, whatever they hold further back or further ahead. *)
Theorem Lex_depends_on_window (l1 l2 : lexer) (lval : sqlSymType) :
  nextPos l1 = nextPos l2 ->
  0 <= nextPos l1 < len (tokens l1) ->
  0 <= nextPos l1 < len (tokens l2) ->
  tokAt (tokens l1) (nextPos l1) = tokAt (tokens l2) (nextPos l1) ->
  peekID (tokens l1) (nextPos l1 - 1) = peekID (tokens l2) (nextPos l1 - 1) ->
  peekID (tokens l1) (nextPos l1 - 2) = peekID (tokens l2) (nextPos l1 - 2) ->
  (forall j : Z, 1 <= j <= 6 ->
     peek (tokens l1) (nextPos l1 + j) = peek (tokens l2) (nextPos l1 + j)) ->
  exists (l1' l2' : lexer) (lval' : sqlSymType),
    Lex l1 lval = Some (l1', lval', id lval') /\
    Lex l2 lval = Some (l2', lval', id lval').
Proof.
  intros Hsame Hp1 Hp2 Htok Hprev Hpprev Hahead.
  eexists. eexists. eexists.
  split; [apply Lex_in_range; exact Hp1|].
  rewrite Lex_in_range by (rewrite <- Hsame; exact Hp2).
  rewrite <- Hsame, <- Htok.
  rewrite (Lex_switch_window (tokens l1) (tokens l2) (nextPos l1)
             _ Hp1 Hp2 Hprev Hpprev Hahead).
  reflexivity.
Qed.

(** *** Successive calls *)

Lemma nextPos_small (l : lexer) :
  -1 <= lastPos l -> lastPos l < max_int -> nextPos l = lastPos l + 1.
Proof.
  intros H0 H1. unfold nextPos. apply int_small. unfold max_int in *. lia.
Qed.

Lemma set_lastPos_same (l : lexer) : set_lastPos l (lastPos l) = l.
Proof. destruct l. reflexivity. Qed.

(** One call from a position at or after the start. *)
Lemma Lex_step (l : lexer) (lval : sqlSymType) :
  -1 <= lastPos l -> lastPos l < max_int ->
  exists (tok : sqlSymType) (r : Z),
    Lex l lval = Some (set_lastPos l (lastPos l + 1), tok, r) /\
    (lastPos l + 1 < len (tokens l) ->
     same_text (tokAt (tokens l) (lastPos l + 1)) tok) /\
    (len (tokens l) <= lastPos l + 1 -> tok = eofSym l).
Proof.
  intros H0 H1. pose proof (nextPos_small l H0 H1) as Hnext.
  destruct (Z.lt_ge_cases (lastPos l + 1) (len (tokens l))) as [Hin|Hout].
  - eexists. eexists. split.
    + rewrite Lex_in_range by lia. rewrite Hnext. reflexivity.
    + split; [|lia]. intros _. apply Lex_switch_same_text.
  - eexists. eexists. split.
    + rewrite Lex_past_end by lia. rewrite Hnext. reflexivity.
    + split; [lia|]. reflexivity.
Qed.

Lemma LexN_from (n : nat) :
  forall (l : lexer) (lval : sqlSymType),
    -1 <= lastPos l -> lastPos l + Z.of_nat n <= max_int ->
    exists (l' : lexer) (out : list sqlSymType),
      LexN n l lval = Some (l', out) /\
      l' = set_lastPos l (lastPos l + Z.of_nat n) /\
      List.length out = n /\
      forall k : nat, (k < n)%nat ->
        (lastPos l + 1 + Z.of_nat k < len (tokens l) ->
         same_text (tokAt (tokens l) (lastPos l + 1 + Z.of_nat k))
           (nth k out zeroSym)) /\
        (len (tokens l) <= lastPos l + 1 + Z.of_nat k ->
         nth k out zeroSym = eofSym l).
Proof.
  induction n as [|n IH]; intros l lval H0 H1.
  - exists l, []. split; [reflexivity|].
    split; [rewrite Z.add_0_r; symmetry; apply set_lastPos_same|].
    split; [reflexivity|]. intros k Hk. lia.
  - destruct (Lex_step l lval H0 ltac:(lia)) as [tok [r [HLex [Hin Hout]]]].
    set (l1 := set_lastPos l (lastPos l + 1)) in *.
    destruct (IH l1 tok) as [l' [out [Hrun [Hl' [Hlen Hnth]]]]].
    + unfold l1. cbn [set_lastPos lastPos]. lia.
    + unfold l1. cbn [set_lastPos lastPos]. lia.
    + exists l', (tok :: out). cbn [LexN]. rewrite HLex, Hrun.
      split; [reflexivity|]. split.
      * rewrite Hl'. unfold l1, set_lastPos.
        cbn [lastPos tokens in_ nakedIntType stmt numPlaceholders
             numAnnotations lastError].
        f_equal. lia.
      * split; [cbn [List.length]; rewrite Hlen; reflexivity|].
        intros [|k] Hk.
        -- cbn [nth]. rewrite Z.add_0_r. split; assumption.
        -- cbn [nth]. specialize (Hnth k ltac:(lia)).
           unfold l1 in Hnth. cbn [set_lastPos lastPos tokens] in Hnth.
           replace (lastPos l + 1 + Z.of_nat (S k))
             with (lastPos l + 1 + 1 + Z.of_nat k) by lia.
           exact Hnth.
Qed.

(** X12. After init, [n] calls to Lex hand the parser the tokens of the
    array in order, each with its own text and offset, and after them the
    end-of-input token as often as asked; the position ends at [n - 1] and
    the token array is the one given to init. *)
Theorem Lex_stream (l0 : lexer) (sql : string) (toks : list sqlSymType)
    (nakedInt : option typesT) (n : nat) :
  Z.of_nat n <= max_int ->
  exists (l' : lexer) (out : list sqlSymType),
    LexN n (init l0 sql toks nakedInt) zeroSym = Some (l', out) /\
    lastPos l' = Z.of_nat n - 1 /\
    tokens l' = toks /\
    List.length out = n /\
    forall k : nat, (k < n)%nat ->
      ((k < List.length toks)%nat ->
       same_text (nth k toks zeroSym) (nth k out zeroSym)) /\
      ((List.length toks <= k)%nat ->
       nth k out zeroSym
       = {| id := 0; pos := int32 (slen sql); str := "EOF" |}).
Proof.
  intros Hn.
  destruct (LexN_from n (init l0 sql toks nakedInt) zeroSym)
    as [l' [out [Hrun [Hl' [Hlen Hnth]]]]].
  - cbn [init lastPos]. lia.
  - cbn [init lastPos]. lia.
  - exists l', out. split; [exact Hrun|]. rewrite Hl'.
    cbn [init set_lastPos lastPos tokens].
    split; [lia|]. split; [reflexivity|]. split; [exact Hlen|].
    intros k Hk. specialize (Hnth k Hk).
    cbn [init lastPos tokens] in Hnth.
    replace (-1 + 1 + Z.of_nat k) with (Z.of_nat k) in Hnth by lia.
    unfold tokAt, len in Hnth. rewrite Nat2Z.id in Hnth.
    destruct Hnth as [Hin Hout]. split.
    + intros Hlt. apply Hin. lia.
    + intros Hge. apply Hout. lia.
Qed.

(** X13. After a call that returned a token of the array, lastToken is
    that token as the array holds it: the text and the offset of the token
    returned, and the identity it had before any retagging. *)
Theorem lastToken_after_Lex (l : lexer) (lval : sqlSymType) :
  0 <= nextPos l < len (tokens l) ->
  exists (l' : lexer) (lval' : sqlSymType),
    Lex l lval = Some (l', lval', id lval') /\
    index (tokens l) (nextPos l) = Some (lastToken l') /\
    same_text (lastToken l') lval'.
Proof.
  intros Hp. eexists. eexists.
  split; [apply Lex_in_range; exact Hp|].
  assert (Hlast : lastToken (set_lastPos l (nextPos l))
                  = tokAt (tokens l) (nextPos l)).
  { unfold lastToken. cbn [set_lastPos lastPos tokens].
    destruct (Z.ltb_spec (nextPos l) 0); [lia|].
    destruct (Z.leb_spec (len (tokens l)) (nextPos l)); [lia|].
    reflexivity. }
  rewrite Hlast. split; [apply index_tokAt; exact Hp|].
  apply Lex_switch_same_text.
Qed.

(** *** Panics and results of the error builder *)

(** Every offset within a text lies on one of its lines. *)
Lemma source_line_exists (lIn : string) (at_ : Z) :
  0 <= at_ <= slen lIn ->
  exists before line after : string,
    lIn = before ++ line ++ after /\
    has_byte newline line = false /\
    (before = EmptyString \/ exists b, before = b ++ nl) /\
    (after = EmptyString \/ exists a, after = nl ++ a) /\
    slen before <= at_ <= slen before + slen line.
Proof.
  intros Hpos. set (n := Z.to_nat at_).
  assert (Hn : (n <= String.length lIn)%nat) by (unfold slen in *; lia).
  destruct (split_last newline (str_take n lIn)) as [a1 [b1 [E1 [Hb1 Ha1]]]].
  destruct (split_first newline (str_drop n lIn)) as [a2 [b2 [E2 [Ha2 Hb2]]]].
  exists a1, (b1 ++ a2), b2.
  assert (Hlen : slen a1 + slen b1 = at_).
  { rewrite <- slen_app, <- E1. unfold slen.
    rewrite str_take_length by exact Hn. lia. }
  split.
  { rewrite <- (str_take_drop n lIn) at 1. rewrite E1, E2.
    rewrite !sapp_assoc. reflexivity. }
  split; [rewrite has_byte_app, Hb1, Ha2; reflexivity|].
  split; [exact Ha1|]. split; [exact Hb2|].
  rewrite slen_app. pose proof (slen_nonneg b1). pose proof (slen_nonneg a2).
  lia.
Qed.

(** X14. PopulateErrorDetails panics exactly when the offset of the token
    lies outside the source text, or when no error is pending and the
    token is not the ERROR token; whenever it returns, it returns an error
    that is not nil and carries the detail block outermost. *)
Theorem PopulateErrorDetails_panics_iff (tokID : Z) (lastTokStr : string)
    (lastTokPos : Z) (lastErr : goerror) (lIn : string) :
  (PopulateErrorDetails tokID lastTokStr lastTokPos lastErr lIn = None
   <-> (lastTokPos < 0 \/ slen lIn < lastTokPos)
       \/ (tokID <> ERROR /\ lastErr = None)) /\
  (forall r : goerror,
     PopulateErrorDetails tokID lastTokStr lastTokPos lastErr lIn = Some r ->
     exists (e : error) (detail : string), r = Some (errWithDetail e detail)).
Proof.
  destruct (Z.lt_ge_cases lastTokPos 0) as [Hneg|Hnonneg];
    [|destruct (Z.lt_ge_cases (slen lIn) lastTokPos) as [Hbig|Hfit]].
  - (* lIn[lastTokPos:] panics *)
    assert (Hrun : PopulateErrorDetails tokID lastTokStr lastTokPos lastErr lIn
                   = None).
    { unfold PopulateErrorDetails, slice_from.
      destruct (Z.ltb_spec lastTokPos 0); [|lia]. cbn [orb].
      match goal with |- bind ?X _ = _ => destruct X end; reflexivity. }
    rewrite Hrun. split; [tauto | discriminate].
  - assert (Hrun : PopulateErrorDetails tokID lastTokStr lastTokPos lastErr lIn
                   = None).
    { unfold PopulateErrorDetails, slice_from.
      destruct (Z.ltb_spec (slen lIn) lastTokPos); [|lia].
      rewrite orb_true_r.
      match goal with |- bind ?X _ = _ => destruct X end; reflexivity. }
    rewrite Hrun. split; [tauto | discriminate].
  - destruct (source_line_exists lIn lastTokPos ltac:(lia))
      as [before [line [after [E [Hl [Hb [Ha Hin]]]]]]].
    subst lIn.
    rewrite (PopulateErrorDetails_at before line after tokID lastTokStr
               lastTokPos lastErr Hl Hb Ha Hin).
    destruct (Z.eqb_spec tokID ERROR) as [Htok|Htok].
    + cbv zeta. unfold WithCandidateCode, New. cbn [option_map].
      destruct lastErr as [e|]; cbn [WithSecondaryError bind WithDetail
                                     option_map].
      * split; [split; [discriminate|]|].
        -- intros [H|[H _]]; [lia | contradiction].
        -- intros r Hr. injection Hr as <-. eexists. eexists. reflexivity.
      * split; [split; [discriminate|]|].
        -- intros [H|[H _]]; [lia | contradiction].
        -- intros r Hr. injection Hr as <-. eexists. eexists. reflexivity.
    + destruct lastErr as [e|]; cbn [Error_ option_map bind].
      * destruct (negb (Contains (message e) "syntax error"));
          cbn [Wrap WithDetail option_map bind].
        -- split; [split; [discriminate|]|].
           ++ intros [H|[_ H]]; [lia | discriminate H].
           ++ intros r Hr. injection Hr as <-. eexists. eexists. reflexivity.
        -- split; [split; [discriminate|]|].
           ++ intros [H|[_ H]]; [lia | discriminate H].
           ++ intros r Hr. injection Hr as <-. eexists. eexists. reflexivity.
      * split; [split; [tauto|reflexivity]|discriminate].
Qed.

(** The offset of the last token of a lexer whose tokens all lie within
    the source text. *)
Lemma lastToken_pos_in_range (l : lexer) :
  Forall (fun t => 0 <= pos t <= slen (in_ l)) (tokens l) ->
  slen (in_ l) <= max_int32 ->
  0 <= pos (lastToken l) <= slen (in_ l).
Proof.
  intros Hall Hfit. unfold lastToken. pose proof (slen_nonneg (in_ l)).
  destruct (Z.ltb_spec (lastPos l) 0); [cbn [pos zeroSym]; lia|].
  destruct (Z.leb_spec (len (tokens l)) (lastPos l)).
  - cbn [pos]. rewrite int32_small by (unfold max_int32 in *; lia). lia.
  - rewrite Forall_forall in Hall. apply Hall. unfold tokAt.
    apply nth_In. unfold len in *. lia.
Qed.

(** X15. With an error pending, populateErrorDetails never panics on a
    lexer whose source text fits an int32 and whose tokens all have their
    offset within it, wherever the position stands: before the first
    token, on a token, or past the end. It changes the pending error
    alone. *)
Theorem populateErrorDetails_succeeds (l : lexer) (e : error) :
  Forall (fun t => 0 <= pos t <= slen (in_ l)) (tokens l) ->
  slen (in_ l) <= max_int32 ->
  lastError l = Some e ->
  exists (e' : error) (detail : string),
    populateErrorDetails l
    = Some (set_lastError l (Some (errWithDetail e' detail))).
Proof.
  intros Hall Hfit Herr.
  pose proof (lastToken_pos_in_range l Hall Hfit) as Hpos.
  unfold populateErrorDetails. rewrite Herr.
  destruct (PopulateErrorDetails_line (id (lastToken l)) (str (lastToken l))
              (pos (lastToken l)) e (in_ l) Hpos)
    as [r [before [line [after [_ [_ [_ [_ [_ [_ Hrun]]]]]]]]]].
  rewrite Hrun. cbn [bind]. eexists. eexists. reflexivity.
Qed.

(** *** The error callbacks *)

Lemma prefix_app (p m : string) : String.prefix p (p ++ m) = true.
Proof.
  induction p as [|a p IH]; [destruct m; reflexivity|].
  cbn [String.append String.prefix].
  destruct (ascii_dec a a) as [_|Hne]; [exact IH | contradiction].
Qed.

Lemma TrimPrefix_app (p m : string) : TrimPrefix (p ++ m) p = m.
Proof.
  unfold TrimPrefix, HasPrefix. rewrite prefix_app.
  rewrite <- (Nat.add_0_r (String.length p)). apply str_drop_app_r.
Qed.

Lemma TrimPrefix_none (s p : string) :
  HasPrefix s p = false -> TrimPrefix s p = s.
Proof. intros H. unfold TrimPrefix. rewrite H. reflexivity. Qed.

Lemma message_asSyntaxError (e : error) :
  message (asSyntaxError e)
  = if Contains (message e) "syntax error" then message e
    else "syntax error: " ++ message e.
Proof.
  unfold asSyntaxError.
  destruct (Contains (message e) "syntax error"); reflexivity.
Qed.

Lemma details_asSyntaxError (e : error) :
  details (asSyntaxError e) = details e.
Proof.
  unfold asSyntaxError.
  destruct (Contains (message e) "syntax error"); reflexivity.
Qed.

Lemma hints_asSyntaxError (e : error) : hints (asSyntaxError e) = hints e.
Proof.
  unfold asSyntaxError.
  destruct (Contains (message e) "syntax error"); reflexivity.
Qed.

(** The error left by [populateErrorDetails] over a pending error. *)
Lemma populateErrorDetails_pending (l : lexer) (e : error) :
  0 <= pos (lastToken l) <= slen (in_ l) ->
  exists detail : string,
    populateErrorDetails (set_lastError l (Some e))
    = Some (set_lastError l
        (Some (errWithDetail
           (if id (lastToken l) =? ERROR then
              errWithSecondaryError
                (errWithCandidateCode
                   (errNew ("lexical error: " ++ str (lastToken l))) Syntax)
                e
            else errWrap (asSyntaxError e) (atOrNear (str (lastToken l))))
           detail))).
Proof.
  intros Hpos. unfold populateErrorDetails.
  rewrite lastToken_set_lastError. cbn [set_lastError lastError in_].
  destruct (PopulateErrorDetails_line (id (lastToken l)) (str (lastToken l))
              (pos (lastToken l)) e (in_ l) Hpos)
    as [r [before [line [after [_ [_ [_ [_ [_ [Hr Hrun]]]]]]]]]].
  rewrite Hrun. cbn [bind]. subst r. eexists. reflexivity.
Qed.



(** X18. Error followed by SetHelp. After the help token the pending
    syntax error becomes the help payload: its message opens with the
    marker and goes on with the message Error built, the source block
    remains its only detail and the help text is its only hint. After any
    other token the message Error built is kept and the hint is the only
    addition. *)
Theorem SetHelp_after_Error (l : lexer) (e : string) (msg : HelpMessage) :
  0 <= pos (lastToken l) <= slen (in_ l) ->
  exists (l1 : lexer) (r1 : error) (detail : string),
    Error l e = Some l1 /\
    lastError l1 = Some r1 /\
    details r1 = [detail] /\
    hints r1 = [] /\
    (id (lastToken l) = HELPTOKEN ->
     exists r : error,
       lastError (SetHelp l1 msg) = Some r /\
       message r = "help token in input: " ++ message r1 /\
       details r = [detail] /\
       hints r = [HelpMessage_String msg]) /\
    (id (lastToken l) <> HELPTOKEN ->
     exists (r : error) (hint : string),
       lastError (SetHelp l1 msg) = Some r /\
       message r = message r1 /\
       details r = [detail] /\
       hints r = [hint] /\
       (Command msg <> EmptyString -> hint = "try \h " ++ Command msg) /\
       (Command msg = EmptyString -> hint = "try \hf " ++ Function msg)).
Proof.
  intros Hpos. unfold Error. cbv zeta.
  unfold WithCandidateCode, New. cbn [option_map].
  destruct (populateErrorDetails_pending l
              (errWithCandidateCode
                 (errNew (TrimPrefix e "syntax error: ")) Syntax) Hpos)
    as [detail Hrun].
  match type of Hrun with
  | context [errWithDetail ?x detail] =>
      assert (Hd : details x = [] /\ hints x = [])
        by (destruct (id (lastToken l) =? ERROR); cbn [details hints];
            rewrite ?details_asSyntaxError, ?hints_asSyntaxError;
            split; reflexivity);
      set (X := x) in *
  end.
  destruct Hd as [Hd1 Hd2].
  eexists. eexists. exists detail.
  split; [exact Hrun|]. split; [reflexivity|].
  split; [cbn [details]; rewrite Hd1; reflexivity|].
  split; [cbn [hints]; rewrite Hd2; reflexivity|].
  unfold SetHelp, populateHelpMsg, specialHelpErrorPrefix.
  cbn [set_lastError lastError isNil].
  rewrite !lastToken_set_lastError. split.
  - intros Hhelp. rewrite Hhelp, Z.eqb_refl.
    cbn [set_lastError lastError Wrap WithHint option_map].
    eexists. split; [reflexivity|].
    cbn [message details hints]. rewrite Hd1, Hd2.
    repeat split; reflexivity.
  - intros Hhelp. apply Z.eqb_neq in Hhelp. rewrite Hhelp.
    destruct (String.eqb_spec (Command msg) EmptyString) as [Hc|Hc];
      cbn [negb set_lastError lastError WithHint option_map];
      eexists; eexists; (split; [reflexivity|]);
      cbn [message details hints]; rewrite Hd1, Hd2;
      repeat split; try reflexivity; intros; congruence.
Qed.

(** *** Annotations *)

Lemma wrap_small (bits z : Z) :
  1 <= bits -> 0 <= z < 2 ^ (bits - 1) -> wrap bits z = z.
Proof.
  intros Hb Hz. unfold wrap.
  replace (2 ^ bits) with (2 * 2 ^ (bits - 1)).
  - rewrite Z.mod_small; lia.
  - replace bits with (Z.succ (bits - 1)) at 2 by lia.
    rewrite Z.pow_succ_r by lia. reflexivity.
Qed.

Lemma NewAnnotationN_from (n : nat) :
  forall l : lexer,
    1 <= AnnotationIdx_bits ->
    0 <= numAnnotations l ->
    numAnnotations l + Z.of_nat n < 2 ^ (AnnotationIdx_bits - 1) ->
    NewAnnotationN n l
    = (set_numAnnotations l (numAnnotations l + Z.of_nat n),
       map (fun k => numAnnotations l + Z.of_nat k) (seq 1 n)).
Proof.
  induction n as [|n IH]; intros l Hb H0 Hn.
  - cbn [NewAnnotationN seq map]. rewrite Z.add_0_r.
    destruct l; reflexivity.
  - cbn [NewAnnotationN]. unfold NewAnnotation. cbv zeta.
    rewrite wrap_small by lia.
    cbn [set_numAnnotations numAnnotations].
    rewrite IH; cbn [set_numAnnotations numAnnotations]; try lia.
    unfold set_numAnnotations.
    cbn [in_ tokens nakedIntType lastPos stmt numPlaceholders
         numAnnotations lastError].
    f_equal.
    + f_equal. lia.
    + cbn [seq map]. f_equal; try lia.
      rewrite <- (seq_shift n 1), map_map. apply map_ext. intros k. lia.
Qed.

(** X19. After init, [n] calls to NewAnnotation return the indices 1 to
    [n] in order, as long as [n] fits the index type, and leave the
    counter at [n]; nothing else in the lexer changes. *)
Theorem NewAnnotation_consecutive (l0 : lexer) (sql : string)
    (toks : list sqlSymType) (nakedInt : option typesT) (n : nat) :
  1 <= AnnotationIdx_bits ->
  Z.of_nat n < 2 ^ (AnnotationIdx_bits - 1) ->
  NewAnnotationN n (init l0 sql toks nakedInt)
  = (set_numAnnotations (init l0 sql toks nakedInt) (Z.of_nat n),
     map Z.of_nat (seq 1 n)).
Proof.
  intros Hb Hn.
  rewrite NewAnnotationN_from; cbn [init numAnnotations]; try lia.
  f_equal.
Qed.

End Lexer.

Arguments nextPos {typesT Statement}.
Arguments eofSym {typesT Statement}.
Arguments set_tokens {typesT Statement}.
Arguments set_lastPos {typesT Statement}.
Arguments set_numPlaceholders {typesT Statement}.
Arguments set_lastError {typesT Statement}.
Arguments init {typesT Statement}.
Arguments Lex {typesT Statement}.
Arguments lastToken {typesT Statement}.
Arguments UpdateNumPlaceholders {typesT Statement}.
Arguments populateErrorDetails {typesT Statement}.
Arguments populateHelpMsg {typesT Statement}.
Arguments SetHelp {typesT Statement HelpMessage}.
Arguments pendingError {typesT Statement}.
Arguments set_stmt {typesT Statement}.
Arguments set_numAnnotations {typesT Statement}.
Arguments cleanup {typesT Statement}.
Arguments NewAnnotation {typesT Statement}.
Arguments SetStmt {typesT Statement}.
Arguments setErr {typesT Statement}.
Arguments setErrNoDetails {typesT Statement}.
Arguments Error {typesT Statement}.
Arguments LexN {typesT Statement}.
Arguments NewAnnotationN {typesT Statement}.

(** ** The sample numbering *)

Lemma ordinal_inj (a b : Terminal) : ordinal a = ordinal b -> a = b.
Proof.
  destruct a; destruct b; intros H; (reflexivity || discriminate H).
Qed.

Lemma sample_code_inj (a b : Terminal) :
  sample_code a = sample_code b -> a = b.
Proof. unfold sample_code. intros H. apply ordinal_inj. lia. Qed.

Lemma sample_code_keyword (a : Terminal) : 255 < sample_code a.
Proof. unfold sample_code. destruct a; reflexivity. Qed.

(** ** The properties on the sample statements *)

(** In [(INDEX (a))] the INDEX token is returned as INDEX_BEFORE_PAREN. *)
Lemma Lex_INDEX_before_paren_witness :
  exists (l' : lexer unit unit) (lval' : sqlSymType),
    Lex sample_code (lexerAt sql_index_paren toks_index_paren 0 None) zeroSym
    = Some (l', lval', sample_code INDEX_BEFORE_PAREN).
Proof.
  destruct (Lex_INDEX_before_paren unit unit sample_code sample_code_inj
              (lexerAt sql_index_paren toks_index_paren 0 None) zeroSym)
    as [l' [lval' [HLex [Hparen _]]]].
  - vm_compute. split; [discriminate | reflexivity].
  - reflexivity.
  - exists l', lval'. rewrite HLex. rewrite Hparen; [reflexivity|].
    split; [left; right; reflexivity | reflexivity].
Defined.

(** In [OPTIONS INDEX a (b)] the INDEX token follows OPTIONS and is
    followed by a name and an opening parenthesis, and Lex returns it with
    the identity INDEX, not INDEX_BEFORE_NAME_THEN_PAREN. *)
Lemma Lex_INDEX_after_OPTIONS_before_name_counterexample :
  afterOPTIONS sample_code toks_options_index_name 1 /\
  followedByNonPunctThenParen toks_options_index_name 1 /\
  ~ followedByParen toks_options_index_name 1 /\
  Lex sample_code
    (lexerAt sql_options_index_name toks_options_index_name 0 None) zeroSym
  = Some (lexerAt sql_options_index_name toks_options_index_name 1 None,
          word (sample_code INDEX) 8 "INDEX", sample_code INDEX) /\
  sample_code INDEX <> sample_code INDEX_BEFORE_NAME_THEN_PAREN.
Proof.
  split; [reflexivity|]. split; [split; reflexivity|].
  split; [intros H; discriminate H|]. split; [reflexivity|].
  intros H; discriminate H.
Qed.

(** In [ORDER BY index t.a@idx] the INDEX token is returned as
    INDEX_AFTER_ORDER_BY_BEFORE_AT; in [ORDER BY index] it stays INDEX. *)
Lemma Lex_INDEX_after_order_by_witness :
  (exists (l' : lexer unit unit) (lval' : sqlSymType),
     Lex sample_code
       (lexerAt sql_order_by_index_at toks_order_by_index_at 1 None) zeroSym
     = Some (l', lval', sample_code INDEX_AFTER_ORDER_BY_BEFORE_AT)) /\
  (exists (l' : lexer unit unit) (lval' : sqlSymType),
     Lex sample_code
       (lexerAt sql_order_by_index toks_order_by_index 1 None) zeroSym
     = Some (l', lval', sample_code INDEX)).
Proof.
  split.
  - destruct (Lex_INDEX_after_order_by unit unit sample_code sample_code_inj
                sample_code_keyword
                (lexerAt sql_order_by_index_at toks_order_by_index_at 1 None)
                zeroSym)
      as [l' [lval' [HLex [[_ Hat] _]]]].
    + vm_compute. split; [discriminate | reflexivity].
    + reflexivity.
    + right. split; reflexivity.
    + intros j Hj Hlen.
      assert (Hcases : j = 1 \/ j = 2 \/ j = 3 \/ j = 4 \/ j = 5).
      { change (nextPos _) with 2 in Hlen.
        change (len _) with 8 in Hlen. lia. }
      destruct Hcases as [->|[->|[->|[->| ->]]]]; vm_compute;
        intros H; discriminate H.
    + exists l', lval'. rewrite HLex. rewrite Hat; [reflexivity|].
      exists 4. split; [lia|]. split; [reflexivity|]. split; [reflexivity|].
      intros j Hj.
      assert (Hcases : j = 1 \/ j = 2 \/ j = 3) by lia.
      destruct Hcases as [->|[->| ->]];
        [left; reflexivity | right; reflexivity | left; reflexivity].
  - destruct (Lex_INDEX_after_order_by unit unit sample_code sample_code_inj
                sample_code_keyword
                (lexerAt sql_order_by_index toks_order_by_index 1 None)
                zeroSym)
      as [l' [lval' [HLex [_ Hstay]]]].
    + vm_compute. split; [discriminate | reflexivity].
    + reflexivity.
    + right. split; reflexivity.
    + intros j Hj Hlen. exfalso.
      change (nextPos _) with 2 in Hlen.
      change (len _) with 3 in Hlen. lia.
    + exists l', lval'. rewrite HLex. rewrite Hstay; [reflexivity| |].
      * intros [k [Hk [Hlen _]]].
        change (nextPos _) with 2 in Hlen.
        change (len _) with 3 in Hlen. lia.
      * intros [Hcomma _]. vm_compute in Hcomma. discriminate Hcomma.
Defined.

(** In [a, INDEX (b@c)] the INDEX token follows a comma and an opening
    parenthesis, which is neither of the identifier class nor a dot,
    stands before the at-sign; Lex returns INDEX_BEFORE_PAREN, so the
    identity is not left as it was. *)
Lemma Lex_INDEX_after_comma_before_paren_counterexample :
  afterCommaOrOrderBy sample_code toks_comma_index_paren 2 /\
  id (tokAt toks_comma_index_paren 3) = rune "(" /\
  id (tokAt toks_comma_index_paren 5) = rune "@" /\
  ~ atSignAfterObjectName toks_comma_index_paren 2 /\
  Lex sample_code
    (lexerAt sql_comma_index_paren toks_comma_index_paren 1 None) zeroSym
  = Some (lexerAt sql_comma_index_paren toks_comma_index_paren 2 None,
          word (sample_code INDEX_BEFORE_PAREN) 3 "INDEX",
          sample_code INDEX_BEFORE_PAREN) /\
  sample_code INDEX_BEFORE_PAREN <> sample_code INDEX.
Proof.
  split; [left; reflexivity|]. split; [reflexivity|].
  split; [reflexivity|]. split.
  - intros [k [Hk [_ [_ Hname]]]].
    specialize (Hname 1 ltac:(lia)). vm_compute in Hname.
    destruct Hname as [H|H]; discriminate H.
  - split; [reflexivity|]. intros H; discriminate H.
Qed.

(** [SET TRACING = 'on'] retags SET, [SET tracing.custom = 1] does not. *)
Lemma Lex_SET_TRACING_witness :
  (exists (l' : lexer unit unit) (lval' : sqlSymType),
     Lex sample_code
       (lexerAt sql_set_tracing_on toks_set_tracing_on (-1) None) zeroSym
     = Some (l', lval', sample_code SET_TRACING)) /\
  (exists (l' : lexer unit unit) (lval' : sqlSymType),
     Lex sample_code
       (lexerAt sql_set_tracing_custom toks_set_tracing_custom (-1) None)
       zeroSym
     = Some (l', lval', sample_code SET)).
Proof.
  split.
  - destruct (Lex_SET_TRACING unit unit sample_code sample_code_inj
                (lexerAt sql_set_tracing_on toks_set_tracing_on (-1) None)
                zeroSym)
      as [l' [lval' [HLex [[_ Hon] _]]]].
    + vm_compute. split; [discriminate | reflexivity].
    + reflexivity.
    + exists l', lval'. rewrite HLex. rewrite Hon; [reflexivity|].
      left. split; [reflexivity|]. intros H; discriminate H.
  - destruct (Lex_SET_TRACING unit unit sample_code sample_code_inj
                (lexerAt sql_set_tracing_custom toks_set_tracing_custom (-1)
                   None) zeroSym)
      as [l' [lval' [HLex [[Hcustom _] Hstay]]]].
    + vm_compute. split; [discriminate | reflexivity].
    + reflexivity.
    + exists l', lval'. rewrite HLex. rewrite Hstay; [reflexivity|].
      intros Hset. destruct (Hcustom Hset) as [[_ Hdot]|[Hsession _]].
      * apply Hdot. reflexivity.
      * vm_compute in Hsession. discriminate Hsession.
Defined.



(** Offset 13 of the three-line statement is column 5 of line 2: the
    detail quotes two lines and ends in four spaces and the caret. *)
Lemma PopulateErrorDetails_detail_witness :
  exists retErr : error,
    PopulateErrorDetails sample_code IDENT "x" 13 (Some (errNew "bad"))
      sql_three_lines
    = Some (Some (errWithDetail retErr
        ("source SQL:" ++ nl ++ "SELECT 1" ++ nl ++ "FROM x y z" ++ nl
         ++ "    ^"))).
Proof.
  destruct (PopulateErrorDetails_detail sample_code IDENT "x" 13
              (errNew "bad") sql_three_lines)
    as [_ Hcolumn].
  - vm_compute. split; discriminate.
  - apply (Hcolumn "SELECT 1" "FROM x y z" (nl ++ "LIMIT 1")).
    + reflexivity.
    + reflexivity.
    + reflexivity.
    + right. exists "LIMIT 1". reflexivity.
    + reflexivity.
    + vm_compute. discriminate.
Defined.

(** The third call to Lex on [ORDER BY index] meets the end of the input;
    a lone [index] and a token of identity 0 come back as they are; and
    two end-of-input tokens after [ORDER BY index] change nothing. *)
Lemma Lex_end_of_input_witness :
  Lex sample_code (lexerAt sql_order_by_index toks_order_by_index 2 None)
    zeroSym
  = Some (lexerAt sql_order_by_index toks_order_by_index 3 None,
          {| id := 0; pos := 14; str := "EOF" |}, 0) /\
  lastToken (lexerAt sql_order_by_index toks_order_by_index 3 None)
  = {| id := 0; pos := 14; str := "EOF" |} /\
  Lex sample_code (lexerAt "?" [word 0 0 "?"] (-1) None) zeroSym
  = Some (lexerAt "?" [word 0 0 "?"] 0 None, word 0 0 "?", 0) /\
  Lex sample_code
    (lexerAt "index" [word (sample_code INDEX) 0 "index"] (-1) None) zeroSym
  = Some (lexerAt "index" [word (sample_code INDEX) 0 "index"] 0 None,
          word (sample_code INDEX) 0 "index", sample_code INDEX) /\
  (exists (l1 l2 : lexer unit unit) (lval' : sqlSymType),
     Lex sample_code (lexerAt sql_order_by_index toks_order_by_index 1 None)
       zeroSym
     = Some (l1, lval', id lval') /\
     Lex sample_code
       (lexerAt sql_order_by_index
          (toks_order_by_index
           ++ [{| id := 0; pos := 14; str := "EOF" |};
               {| id := 0; pos := 14; str := "EOF" |}]) 1 None) zeroSym
     = Some (l2, lval', id lval')).
Proof.
  pose proof (Lex_end_of_input unit unit sample_code sample_code_keyword
                (lexerAt sql_order_by_index toks_order_by_index 2 None)
                zeroSym) as [Hend _].
  pose proof (Lex_end_of_input unit unit sample_code sample_code_keyword
                (lexerAt sql_order_by_index toks_order_by_index 3 None)
                zeroSym) as [_ [Hlast _]].
  pose proof (Lex_end_of_input unit unit sample_code sample_code_keyword
                (lexerAt "?" [word 0 0 "?"] (-1) None) zeroSym)
    as [_ [_ [_ [Hzero _]]]].
  pose proof (Lex_end_of_input unit unit sample_code sample_code_keyword
                (lexerAt "index" [word (sample_code INDEX) 0 "index"] (-1)
                   None) zeroSym) as [_ [_ [_ [_ [Hneighbours _]]]]].
  pose proof (Lex_end_of_input unit unit sample_code sample_code_keyword
                (lexerAt sql_order_by_index toks_order_by_index 1 None)
                zeroSym) as [_ [_ [_ [_ [_ Hextra]]]]].
  split; [|split; [|split; [|split]]].
  - apply Hend; vm_compute; discriminate.
  - apply Hlast; vm_compute; discriminate.
  - apply Hzero; [vm_compute; split; [discriminate | reflexivity]|].
    reflexivity.
  - apply Hneighbours; [vm_compute; split; [discriminate | reflexivity]| |];
      reflexivity.
  - apply (Hextra 2%nat). vm_compute. split; [discriminate | reflexivity].
Defined.

(** The second call to Lex on [(INDEX (a))] returns the INDEX token with
    its text and offset and leaves the tokens in place. *)
Lemma Lex_changes_identity_only_witness :
  exists (l' : lexer unit unit) (lval' : sqlSymType),
    Lex sample_code (lexerAt sql_index_paren toks_index_paren 0 None) zeroSym
    = Some (l', lval', id lval') /\
    str lval' = "INDEX" /\ pos lval' = 1 /\
    tokens l' = toks_index_paren.
Proof.
  destruct (Lex_changes_identity_only unit unit sample_code
              (lexerAt sql_index_paren toks_index_paren 0 None) zeroSym)
    as [tok [l' [lval' [Htok [HLex [Hstr [Hpos [Htoks _]]]]]]]].
  - vm_compute. split; [discriminate | reflexivity].
  - exists l', lval'. vm_compute in Htok. injection Htok as <-.
    repeat split; assumption.
Defined.

(** Recording the placeholders 0 and 2 leaves the counter at 3. *)
Lemma UpdateNumPlaceholders_counts_witness :
  numPlaceholders
    (fold_left UpdateNumPlaceholders [0; 2]
       (init (lexerAt EmptyString [] 5 None) "SELECT $1, $3" [] None))
  = 3.
Proof.
  destruct (UpdateNumPlaceholders_counts unit unit
              (lexerAt EmptyString [] 5 None) "SELECT $1, $3" [] None [0; 2])
    as [_ [Hupper [Hmax _]]].
  - repeat constructor; vm_compute; discriminate.
  - destruct Hmax as [i [Hin Heq]]; [discriminate|].
    pose proof (Hupper 2 (or_intror (or_introl eq_refl))) as H2.
    rewrite Heq in *.
    destruct Hin as [<-|[<-|[]]]; [exfalso; lia | reflexivity].
Defined.


(** An error raised before the first call to Lex on the three-line
    statement: at or near an empty text, caret in the first column. *)
Lemma lastToken_before_first_token_witness :
  lastToken (lexerAt sql_three_lines [] (-1) (Some (errNew "bad")))
  = {| id := 0; pos := 0; str := EmptyString |} /\
  populateErrorDetails sample_code
    (lexerAt sql_three_lines [] (-1) (Some (errNew "bad")))
  = Some (lexerAt sql_three_lines [] (-1)
      (Some (errWithDetail
         (errWrap (errWrap (errNew "bad") "syntax error")
            ("at or near " ++ dquote ++ dquote))
         ("source SQL:" ++ nl ++ "SELECT 1" ++ nl ++ "^")))).
Proof.
  destruct (lastToken_before_first_token unit unit sample_code
              sample_code_keyword
              (lexerAt sql_three_lines [] (-1) (Some (errNew "bad")))
              (errNew "bad"))
    as [Hzero [_ [first [rest [_ [_ [_ Hrun]]]]]]].
  - reflexivity.
  - reflexivity.
  - split; [exact Hzero|]. reflexivity.
Defined.

(** ** The further properties on the sample statements *)

Ltac in_range := vm_compute; split; [discriminate | reflexivity].

(** NOTHING after RETURNING is retagged; NOTHING as the first token is
    not. *)
Lemma Lex_NOTHING_AFTER_RETURNING_witness :
  (exists (l' : lexer unit unit) (lval' : sqlSymType),
     Lex sample_code
       (lexerAt "RETURNING NOTHING" toks_returning_nothing 0 None) zeroSym
     = Some (l', lval', sample_code NOTHING_AFTER_RETURNING)) /\
  (exists (l' : lexer unit unit) (lval' : sqlSymType),
     Lex sample_code
       (lexerAt "NOTHING" [word (sample_code NOTHING) 0 "NOTHING"] (-1) None)
       zeroSym
     = Some (l', lval', sample_code NOTHING)).
Proof.
  split.
  - destruct (Lex_NOTHING_AFTER_RETURNING unit unit sample_code
                sample_code_inj sample_code_keyword
                (lexerAt "RETURNING NOTHING" toks_returning_nothing 0 None)
                zeroSym)
      as [l' [lval' [HLex [[_ Hafter] _]]]].
    + in_range.
    + reflexivity.
    + exists l', lval'. rewrite HLex, Hafter; reflexivity.
  - destruct (Lex_NOTHING_AFTER_RETURNING unit unit sample_code
                sample_code_inj sample_code_keyword
                (lexerAt "NOTHING" [word (sample_code NOTHING) 0 "NOTHING"]
                   (-1) None) zeroSym)
      as [l' [lval' [HLex [_ [_ Hfirst]]]]].
    + in_range.
    + reflexivity.
    + exists l', lval'. rewrite HLex, Hfirst; reflexivity.
Defined.

(** AS before OF SYSTEM is retagged. *)
Lemma Lex_AS_LA_witness :
  exists (l' : lexer unit unit) (lval' : sqlSymType),
    Lex sample_code
      (lexerAt "AS OF SYSTEM TIME" toks_as_of_system_time (-1) None) zeroSym
    = Some (l', lval', sample_code AS_LA).
Proof.
  destruct (Lex_AS_LA unit unit sample_code sample_code_inj
              (lexerAt "AS OF SYSTEM TIME" toks_as_of_system_time (-1) None)
              zeroSym)
    as [l' [lval' [HLex [[_ Hla] _]]]].
  - in_range.
  - reflexivity.
  - exists l', lval'. rewrite HLex, Hla; [reflexivity|].
    split; reflexivity.
Defined.

(** NOT before BETWEEN is retagged. *)
Lemma Lex_NOT_LA_witness :
  exists (l' : lexer unit unit) (lval' : sqlSymType),
    Lex sample_code (lexerAt "NOT BETWEEN" toks_not_between (-1) None)
      zeroSym
    = Some (l', lval', sample_code NOT_LA).
Proof.
  destruct (Lex_NOT_LA unit unit sample_code sample_code_inj
              (lexerAt "NOT BETWEEN" toks_not_between (-1) None) zeroSym)
    as [l' [lval' [HLex [[_ Hla] _]]]].
  - in_range.
  - reflexivity.
  - exists l', lval'. rewrite HLex, Hla; [reflexivity|].
    exists BETWEEN. split; [left; reflexivity | reflexivity].
Defined.

(** GENERATED before BY is retagged GENERATED_BY_DEFAULT. *)
Lemma Lex_GENERATED_witness :
  exists (l' : lexer unit unit) (lval' : sqlSymType),
    Lex sample_code (lexerAt "GENERATED BY" toks_generated_by (-1) None)
      zeroSym
    = Some (l', lval', sample_code GENERATED_BY_DEFAULT).
Proof.
  destruct (Lex_GENERATED unit unit sample_code sample_code_inj
              (lexerAt "GENERATED BY" toks_generated_by (-1) None) zeroSym)
    as [l' [lval' [HLex [_ [[_ Hby] _]]]]].
  - in_range.
  - reflexivity.
  - exists l', lval'. rewrite HLex, Hby; reflexivity.
Defined.

(** WITH before ORDINALITY is retagged. *)
Lemma Lex_WITH_LA_witness :
  exists (l' : lexer unit unit) (lval' : sqlSymType),
    Lex sample_code
      (lexerAt "WITH ORDINALITY" toks_with_ordinality (-1) None) zeroSym
    = Some (l', lval', sample_code WITH_LA).
Proof.
  destruct (Lex_WITH_LA unit unit sample_code sample_code_inj
              (lexerAt "WITH ORDINALITY" toks_with_ordinality (-1) None)
              zeroSym)
    as [l' [lval' [HLex [[_ Hla] _]]]].
  - in_range.
  - reflexivity.
  - exists l', lval'. rewrite HLex, Hla; [reflexivity|].
    exists ORDINALITY. split; [right; left; reflexivity | reflexivity].
Defined.

(** NULLS before LAST is retagged. *)
Lemma Lex_NULLS_LA_witness :
  exists (l' : lexer unit unit) (lval' : sqlSymType),
    Lex sample_code (lexerAt "NULLS LAST" toks_nulls_last (-1) None) zeroSym
    = Some (l', lval', sample_code NULLS_LA).
Proof.
  destruct (Lex_NULLS_LA unit unit sample_code sample_code_inj
              (lexerAt "NULLS LAST" toks_nulls_last (-1) None) zeroSym)
    as [l' [lval' [HLex [[_ Hla] _]]]].
  - in_range.
  - reflexivity.
  - exists l', lval'. rewrite HLex, Hla; [reflexivity|].
    right. reflexivity.
Defined.

(** RESET before ALL is retagged RESET_ALL. *)
Lemma Lex_before_ALL_witness :
  exists (l' : lexer unit unit) (lval' : sqlSymType),
    Lex sample_code (lexerAt "RESET ALL" toks_reset_all (-1) None) zeroSym
    = Some (l', lval', sample_code RESET_ALL).
Proof.
  destruct (Lex_before_ALL unit unit sample_code sample_code_inj
              (lexerAt "RESET ALL" toks_reset_all (-1) None) zeroSym
              RESET RESET_ALL)
    as [l' [lval' [HLex [[_ Hall] _]]]].
  - left. reflexivity.
  - in_range.
  - reflexivity.
  - exists l', lval'. rewrite HLex, Hall; reflexivity.
Defined.

(** ON before UPDATE CASCADE is retagged. *)
Lemma Lex_ON_LA_witness :
  exists (l' : lexer unit unit) (lval' : sqlSymType),
    Lex sample_code
      (lexerAt "ON UPDATE CASCADE" toks_on_update_cascade (-1) None) zeroSym
    = Some (l', lval', sample_code ON_LA).
Proof.
  destruct (Lex_ON_LA unit unit sample_code sample_code_inj
              (lexerAt "ON UPDATE CASCADE" toks_on_update_cascade (-1) None)
              zeroSym)
    as [l' [lval' [HLex [[_ Hla] _]]]].
  - in_range.
  - reflexivity.
  - exists l', lval'. rewrite HLex, Hla; [reflexivity|].
    right. split; [reflexivity|].
    exists CASCADE. split; [right; right; left; reflexivity | reflexivity].
Defined.

(** The identifier of [(INDEX (a))] is returned as it is. *)
Lemma Lex_other_identities_unchanged_witness :
  Lex sample_code (lexerAt sql_index_paren toks_index_paren 2 None) zeroSym
  = Some (lexerAt sql_index_paren toks_index_paren 3 None,
          word IDENT 8 "a", IDENT).
Proof.
  apply (Lex_other_identities_unchanged unit unit sample_code
           (lexerAt sql_index_paren toks_index_paren 2 None) zeroSym).
  - in_range.
  - intros k Hin E. change (id (tokAt _ _)) with IDENT in E.
    pose proof (sample_code_keyword k) as Hk.
    unfold sample_code, IDENT in *. destruct k; discriminate E.
Defined.

(** The opening parenthesis of [(INDEX (a))] is returned as punctuation,
    not as 0. *)
Lemma Lex_returns_identity_or_keyword_witness :
  exists (l' : lexer unit unit) (lval' : sqlSymType) (r : Z),
    Lex sample_code (lexerAt sql_index_paren toks_index_paren (-1) None)
      zeroSym
    = Some (l', lval', r) /\ r <> 0.
Proof.
  destruct (Lex_returns_identity_or_keyword unit unit sample_code
              sample_code_keyword
              (lexerAt sql_index_paren toks_index_paren (-1) None) zeroSym)
    as [l' [lval' [r [HLex [_ [_ Hzero]]]]]].
  - in_range.
  - exists l', lval', r. split; [exact HLex|].
    intros H0. apply Hzero in H0. vm_compute in H0. discriminate H0.
Defined.

(** The two arrays agree around INDEX, and Lex returns the same token. *)
Lemma Lex_depends_on_window_witness :
  exists (l1' l2' : lexer unit unit) (lval' : sqlSymType),
    Lex sample_code (lexerAt "one" toks_window_1 3 None) zeroSym
    = Some (l1', lval', id lval') /\
    Lex sample_code (lexerAt "two" toks_window_2 3 None) zeroSym
    = Some (l2', lval', id lval').
Proof.
  apply (Lex_depends_on_window unit unit sample_code sample_code_keyword
           (lexerAt "one" toks_window_1 3 None)
           (lexerAt "two" toks_window_2 3 None) zeroSym).
  - reflexivity.
  - in_range.
  - in_range.
  - reflexivity.
  - reflexivity.
  - reflexivity.
  - intros j Hj. change (nextPos _) with 4.
    assert (Hcases : j = 1 \/ j = 2 \/ j = 3 \/ j = 4 \/ j = 5 \/ j = 6)
      by lia.
    destruct Hcases as [->|[->|[->|[->|[->| ->]]]]]; reflexivity.
Defined.

(** Five calls on [ORDER BY index]: three tokens, then end of input. *)
Lemma Lex_stream_witness :
  exists (l' : lexer unit unit) (out : list sqlSymType),
    LexN sample_code 5
      (init (lexerAt EmptyString [] 7 None) sql_order_by_index
         toks_order_by_index None) zeroSym
    = Some (l', out) /\
    lastPos l' = 4 /\
    str (nth 2 out zeroSym) = "index" /\
    nth 4 out zeroSym = {| id := 0; pos := 14; str := "EOF" |}.
Proof.
  destruct (Lex_stream unit unit sample_code (lexerAt EmptyString [] 7 None)
              sql_order_by_index toks_order_by_index None 5)
    as [l' [out [Hrun [Hpos [_ [_ Hnth]]]]]].
  - vm_compute. discriminate.
  - exists l', out. split; [exact Hrun|]. split; [exact Hpos|]. split.
    + destruct (Hnth 2%nat ltac:(lia)) as [Hin _].
      destruct (Hin ltac:(cbn; lia)) as [_ Hstr]. rewrite <- Hstr.
      reflexivity.
    + destruct (Hnth 4%nat ltac:(lia)) as [_ Hout].
      rewrite Hout; [reflexivity | cbn; lia].
Defined.

(** After INDEX of [(INDEX (a))] was returned retagged, lastToken still
    has the identity INDEX. *)
Lemma lastToken_after_Lex_witness :
  exists (l' : lexer unit unit) (lval' : sqlSymType),
    Lex sample_code (lexerAt sql_index_paren toks_index_paren 0 None) zeroSym
    = Some (l', lval', id lval') /\
    lastToken l' = word (sample_code INDEX) 1 "INDEX".
Proof.
  destruct (lastToken_after_Lex unit unit sample_code
              (lexerAt sql_index_paren toks_index_paren 0 None) zeroSym)
    as [l' [lval' [HLex [Hidx _]]]].
  - in_range.
  - exists l', lval'. split; [exact HLex|].
    assert (E : index (tokens (lexerAt sql_index_paren toks_index_paren 0
                                 None))
                  (nextPos (lexerAt sql_index_paren toks_index_paren 0 None))
                = Some (word (sample_code INDEX) 1 "INDEX"))
      by reflexivity.
    rewrite E in Hidx. injection Hidx as <-. reflexivity.
Defined.

(** An offset past the end of the text makes PopulateErrorDetails panic,
    and so does a missing error at an identifier. *)
Lemma PopulateErrorDetails_panics_iff_witness :
  PopulateErrorDetails sample_code IDENT "x" 99 (Some (errNew "bad"))
    sql_three_lines = None /\
  PopulateErrorDetails sample_code IDENT "x" 13 None sql_three_lines = None.
Proof.
  pose proof (PopulateErrorDetails_panics_iff sample_code IDENT "x" 99
                (Some (errNew "bad")) sql_three_lines) as [[_ Hfar] _].
  pose proof (PopulateErrorDetails_panics_iff sample_code IDENT "x" 13
                None sql_three_lines) as [[_ Hnil] _].
  split.
  - apply Hfar. left. right. reflexivity.
  - apply Hnil. right. split; [intros H; discriminate H | reflexivity].
Defined.

(** With an error pending, the details are built at every position of
    [ORDER BY index]. *)
Lemma populateErrorDetails_succeeds_witness :
  exists (e' : error) (detail : string),
    populateErrorDetails sample_code
      (lexerAt sql_order_by_index toks_order_by_index 3
         (Some (errNew "bad")))
    = Some (lexerAt sql_order_by_index toks_order_by_index 3
              (Some (errWithDetail e' detail))).
Proof.
  apply (populateErrorDetails_succeeds unit unit sample_code
           (lexerAt sql_order_by_index toks_order_by_index 3
              (Some (errNew "bad"))) (errNew "bad")).
  - repeat constructor; vm_compute; discriminate.
  - vm_compute. discriminate.
  - reflexivity.
Defined.



(** The parser's message at the help token of [SELECT ??], then SetHelp. *)
Lemma SetHelp_after_Error_witness :
  exists (l1 : lexer unit unit) (r : error),
    Error sample_code (lexerAt sql_help toks_help 1 None)
      "syntax error: unexpected HELPTOKEN" = Some l1 /\
    lastError
      (SetHelp sampleCommand sampleFunction sampleHelpText sample_code l1
         ("SELECT", EmptyString, "Command: SELECT"))
    = Some r /\
    message r
    = "help token in input: at or near " ++ dquote ++ "??" ++ dquote
      ++ ": syntax error: unexpected HELPTOKEN" /\
    hints r = ["Command: SELECT"].
Proof.
  destruct (SetHelp_after_Error unit unit sampleHelp sampleCommand
              sampleFunction sampleHelpText sample_code
              (lexerAt sql_help toks_help 1 None)
              "syntax error: unexpected HELPTOKEN"
              ("SELECT", EmptyString, "Command: SELECT"))
    as [l1 [r1 [detail [Hrun [Hlast [_ [_ [Hhelp _]]]]]]]].
  - vm_compute. split; discriminate.
  - destruct (Hhelp eq_refl) as [r [Hr [Hmsg [_ Hh]]]].
    exists l1, r. split; [exact Hrun|]. split; [exact Hr|].
    split; [|exact Hh]. rewrite Hmsg.
    vm_compute in Hrun. injection Hrun as <-.
    cbn [lastError] in Hlast. injection Hlast as <-. reflexivity.
Defined.

(** Three annotations, with the index type 32 bits wide. *)
Lemma NewAnnotation_consecutive_witness :
  snd (NewAnnotationN 32 3
         (init (lexerAt EmptyString [] 7 None) "SELECT 1" [] None))
  = [1; 2; 3].
Proof.
  rewrite (NewAnnotation_consecutive unit unit 32
             (lexerAt EmptyString [] 7 None) "SELECT 1" [] None 3).
  - reflexivity.
  - vm_compute. discriminate.
  - vm_compute. reflexivity.
Defined.


(** ** Properties of the flag values *)

(** X20. Set accepts exactly the texts both, schema and data, and String
    then gives the text back; any other text leaves the mode as it was and
    is named in the error. String followed by Set gives the mode back
    exactly for the three named modes: every other mode renders as the
    empty text, which Set rejects. *)
Theorem dumpMode_Set_String (m : Z) (s : string) :
  (snd (dumpMode_Set m s) = None
   <-> s = "both" \/ s = "schema" \/ s = "data") /\
  (snd (dumpMode_Set m s) = None ->
   dumpMode_String (fst (dumpMode_Set m s)) = s) /\
  (snd (dumpMode_Set m s) <> None ->
   dumpMode_Set m s
   = (m, Some (errNew ("invalid value for --dump-mode: " ++ s)))) /\
  (forall m' : Z,
     dumpMode_Set m (dumpMode_String m') = (m', None) <-> 0 <= m' <= 2).
Proof.
  split; [|split; [|split]].
  - unfold dumpMode_Set.
    destruct (String.eqb_spec s "both") as [->|H1]; [cbn; tauto|].
    destruct (String.eqb_spec s "schema") as [->|H2]; [cbn; tauto|].
    destruct (String.eqb_spec s "data") as [->|H3]; [cbn; tauto|].
    cbn [snd New]. split; [discriminate|]. intros [H|[H|H]]; contradiction.
  - unfold dumpMode_Set.
    destruct (String.eqb_spec s "both") as [->|H1]; [reflexivity|].
    destruct (String.eqb_spec s "schema") as [->|H2]; [reflexivity|].
    destruct (String.eqb_spec s "data") as [->|H3]; [reflexivity|].
    cbn [snd New]. discriminate.
  - unfold dumpMode_Set.
    destruct (String.eqb_spec s "both") as [->|H1]; [cbn; congruence|].
    destruct (String.eqb_spec s "schema") as [->|H2]; [cbn; congruence|].
    destruct (String.eqb_spec s "data") as [->|H3]; [cbn; congruence|].
    reflexivity.
  - intros m'. unfold dumpMode_String, dumpBoth, dumpSchemaOnly, dumpDataOnly.
    destruct (Z.eqb_spec m' 0) as [->|H0]; [cbn; split; [lia|reflexivity]|].
    destruct (Z.eqb_spec m' 1) as [->|H1]; [cbn; split; [lia|reflexivity]|].
    destruct (Z.eqb_spec m' 2) as [->|H2]; [cbn; split; [lia|reflexivity]|].
    cbn. split; [discriminate | lia].
Qed.

(** X21. Set accepts exactly the texts all and none, and String then
    gives the text back; any other text leaves the value as it was and is
    named in the error. String renders the two named values, from which
    Set gives the value back, and panics on every other value. *)
Theorem nodeDecommissionWaitType_Set_String (s : Z) (value : string) :
  (snd (nodeDecommissionWaitType_Set s value) = None
   <-> value = "all" \/ value = "none") /\
  (snd (nodeDecommissionWaitType_Set s value) = None ->
   nodeDecommissionWaitType_String
     (fst (nodeDecommissionWaitType_Set s value)) = Some value) /\
  (snd (nodeDecommissionWaitType_Set s value) <> None ->
   nodeDecommissionWaitType_Set s value
   = (s, Some (errNew ("invalid node decommission parameter: " ++ value
                       ++ " (possible values: all, none)")))) /\
  (forall s' : Z,
     (0 <= s' <= 1 ->
      exists text : string,
        nodeDecommissionWaitType_String s' = Some text /\
        nodeDecommissionWaitType_Set s text = (s', None)) /\
     (~ 0 <= s' <= 1 -> nodeDecommissionWaitType_String s' = None)).
Proof.
  split; [|split; [|split]].
  - unfold nodeDecommissionWaitType_Set.
    destruct (String.eqb_spec value "all") as [->|H1]; [cbn; tauto|].
    destruct (String.eqb_spec value "none") as [->|H2]; [cbn; tauto|].
    cbn [snd New]. split; [discriminate|]. intros [H|H]; contradiction.
  - unfold nodeDecommissionWaitType_Set.
    destruct (String.eqb_spec value "all") as [->|H1]; [reflexivity|].
    destruct (String.eqb_spec value "none") as [->|H2]; [reflexivity|].
    cbn [snd New]. discriminate.
  - unfold nodeDecommissionWaitType_Set.
    destruct (String.eqb_spec value "all") as [->|H1]; [cbn; congruence|].
    destruct (String.eqb_spec value "none") as [->|H2]; [cbn; congruence|].
    reflexivity.
  - intros s'. unfold nodeDecommissionWaitType_String,
      nodeDecommissionWaitAll, nodeDecommissionWaitNone.
    destruct (Z.eqb_spec s' 0) as [->|H0];
      [split; [intros _; eexists; split; reflexivity | lia]|].
    destruct (Z.eqb_spec s' 1) as [->|H1];
      [split; [intros _; eexists; split; reflexivity | lia]|].
    split; [lia | reflexivity].
Qed.

(** X22. Set accepts exactly the texts skip, enabled and strict, and
    String then gives the text back; any other text leaves the mode as it
    was and is named in the error. String renders the three named modes,
    from which Set gives the mode back, and panics on every other
    value. *)
Theorem nodeDecommissionCheckMode_Set_String (s : Z) (value : string) :
  (snd (nodeDecommissionCheckMode_Set s value) = None
   <-> value = "skip" \/ value = "enabled" \/ value = "strict") /\
  (snd (nodeDecommissionCheckMode_Set s value) = None ->
   nodeDecommissionCheckMode_String
     (fst (nodeDecommissionCheckMode_Set s value)) = Some value) /\
  (snd (nodeDecommissionCheckMode_Set s value) <> None ->
   nodeDecommissionCheckMode_Set s value
   = (s, Some (errNew ("invalid node decommission parameter: " ++ value
                       ++ " (possible values: enabled, strict, skip)")))) /\
  (forall s' : Z,
     (0 <= s' <= 2 ->
      exists text : string,
        nodeDecommissionCheckMode_String s' = Some text /\
        nodeDecommissionCheckMode_Set s text = (s', None)) /\
     (~ 0 <= s' <= 2 -> nodeDecommissionCheckMode_String s' = None)).
Proof.
  split; [|split; [|split]].
  - unfold nodeDecommissionCheckMode_Set.
    destruct (String.eqb_spec value "skip") as [->|H1]; [cbn; tauto|].
    destruct (String.eqb_spec value "enabled") as [->|H2]; [cbn; tauto|].
    destruct (String.eqb_spec value "strict") as [->|H3]; [cbn; tauto|].
    cbn [snd New]. split; [discriminate|]. intros [H|[H|H]]; contradiction.
  - unfold nodeDecommissionCheckMode_Set.
    destruct (String.eqb_spec value "skip") as [->|H1]; [reflexivity|].
    destruct (String.eqb_spec value "enabled") as [->|H2]; [reflexivity|].
    destruct (String.eqb_spec value "strict") as [->|H3]; [reflexivity|].
    cbn [snd New]. discriminate.
  - unfold nodeDecommissionCheckMode_Set.
    destruct (String.eqb_spec value "skip") as [->|H1]; [cbn; congruence|].
    destruct (String.eqb_spec value "enabled") as [->|H2];
      [cbn; congruence|].
    destruct (String.eqb_spec value "strict") as [->|H3]; [cbn; congruence|].
    reflexivity.
  - intros s'. unfold nodeDecommissionCheckMode_String,
      nodeDecommissionChecksSkip, nodeDecommissionChecksEnabled,
      nodeDecommissionChecksStrict.
    destruct (Z.eqb_spec s' 0) as [->|H0];
      [split; [intros _; eexists; split; reflexivity | lia]|].
    destruct (Z.eqb_spec s' 1) as [->|H1];
      [split; [intros _; eexists; split; reflexivity | lia]|].
    destruct (Z.eqb_spec s' 2) as [->|H2];
      [split; [intros _; eexists; split; reflexivity | lia]|].
    split; [lia | reflexivity].
Qed.

(** *** Split *)

Lemma Split_nonempty (s : string) (c : ascii) : Split s c <> [].
Proof.
  destruct s as [|a s]; cbn [Split]; [discriminate|].
  destruct (Ascii.eqb a c); [discriminate|].
  destruct (Split s c); discriminate.
Qed.

(** The pieces, each followed by the separator, make up the text followed
    by the separator. *)
Lemma Split_concat (s : string) (c : ascii) :
  fold_right (fun p acc => p ++ String c acc) EmptyString (Split s c)
  = s ++ String c EmptyString.
Proof.
  induction s as [|a s IH]; [reflexivity|].
  cbn [Split]. destruct (Ascii.eqb_spec a c) as [->|Hne].
  - cbn [fold_right String.append]. rewrite IH. reflexivity.
  - destruct (Split s c) as [|h t] eqn:E.
    + exfalso. exact (Split_nonempty s c E).
    + cbn [fold_right String.append] in *. rewrite IH. reflexivity.
Qed.

(** A text without the separator is its only piece. *)
Lemma Split_one (s : string) (c : ascii) (v : string) :
  Split s c = [v] -> s = v.
Proof.
  revert v. induction s as [|a s IH]; intros v H.
  - injection H as <-. reflexivity.
  - cbn [Split] in H. destruct (Ascii.eqb a c).
    + injection H as _ H. exfalso. exact (Split_nonempty s c H).
    + destruct (Split s c) as [|h t] eqn:E;
        [exfalso; exact (Split_nonempty s c E)|].
      injection H as <- ->. f_equal. apply IH. reflexivity.
Qed.

(** A text that splits in two is its two pieces around the separator. *)
Lemma Split_two (s : string) (c : ascii) (x y : string) :
  Split s c = [x; y] -> s = x ++ String c y.
Proof.
  revert x y. induction s as [|a s IH]; intros x y H; [discriminate H|].
  cbn [Split] in H. destruct (Ascii.eqb_spec a c) as [->|Hne].
  - injection H as <- H. apply Split_one in H. subst s. reflexivity.
  - destruct (Split s c) as [|h t] eqn:E; [discriminate H|].
    injection H as <- ->. cbn [String.append]. f_equal.
    apply IH. reflexivity.
Qed.

(** A text that ends in the separator has an empty last piece. *)
Lemma Split_trailing (s : string) (c : ascii) :
  In EmptyString (Split (s ++ String c EmptyString) c).
Proof.
  assert (H : exists front : list string,
            front <> [] /\
            Split (s ++ String c EmptyString) c
            = (front ++ [EmptyString])%list).
  { induction s as [|a s [front [Hne IH]]].
    - exists [EmptyString]. split; [discriminate|].
      cbn [String.append Split]. rewrite Ascii.eqb_refl. reflexivity.
    - cbn [String.append Split]. rewrite IH.
      destruct (Ascii.eqb a c).
      + exists (EmptyString :: front). split; [discriminate | reflexivity].
      + destruct front as [|h t]; [contradiction|].
        exists (String a h :: t). split; [discriminate | reflexivity]. }
  destruct H as [front [_ ->]]. apply in_or_app. right. left. reflexivity.
Qed.

Section LocalityListProperties.

Variable UnresolvedAddr : Type.
Variable MakeUnresolvedAddr : string -> string -> UnresolvedAddr.
Variable UnresolvedAddr_String : UnresolvedAddr -> string.

Local Abbreviation localityList := (localityList UnresolvedAddr).
Local Abbreviation list_String :=
  (localityList_String UnresolvedAddr_String).
Local Abbreviation Set_loop :=
  (localityList_Set_loop MakeUnresolvedAddr UnresolvedAddr_String).
Local Abbreviation list_Set :=
  (localityList_Set MakeUnresolvedAddr UnresolvedAddr_String).

Lemma localityList_String_acc (l : localityList) (acc : string) :
  fold_left
    (fun acc loc =>
       acc ++ (Key (LocalityTier loc) ++ "=" ++ Value (LocalityTier loc)
               ++ "@" ++ UnresolvedAddr_String (Address loc) ++ ","))
    l acc
  = acc ++ list_String l.
Proof.
  unfold localityList_String. revert acc.
  induction l as [|x l IH]; intros acc; cbn [fold_left].
  - rewrite sapp_nil_r. reflexivity.
  - rewrite IH. rewrite (IH (EmptyString ++ _)).
    cbn [String.append]. rewrite sapp_assoc. reflexivity.
Qed.

Lemma localityList_String_snoc (l : localityList)
    (x : LocalityAddress UnresolvedAddr) :
  list_String (l ++ [x])%list
  = list_String l
    ++ (Key (LocalityTier x) ++ "=" ++ Value (LocalityTier x)
        ++ "@" ++ UnresolvedAddr_String (Address x) ++ ",").
Proof.
  unfold localityList_String at 1. rewrite fold_left_app. cbn [fold_left].
  reflexivity.
Qed.

(** Every rendering is empty or ends in a comma. *)
Lemma localityList_String_shape (l : localityList) :
  list_String l = EmptyString \/
  exists body : string, list_String l = body ++ ",".
Proof.
  destruct l as [|x0 l0]; [left; reflexivity|].
  destruct (@exists_last _ (x0 :: l0)) as [l' [x E]]; [discriminate|].
  right. rewrite E, localityList_String_snoc.
  eexists. rewrite <- !sapp_assoc. reflexivity.
Qed.

Lemma len_two {A : Type} (l : list A) :
  len l = 2 -> exists x y : A, l = [x; y].
Proof.
  unfold len. intros H. destruct l as [|x [|y [|z l]]]; cbn in H; try lia.
  exists x, y. reflexivity.
Qed.

(** One turn of the loop of [Set]. *)
Lemma Set_loop_step (l : localityList) (value : string) :
  (~ parses value /\
   forall rest : list string,
     Set_loop l (value :: rest)
     = (l, Some (errNew ("invalid value for --locality-advertise-address: "
                         ++ list_String l))))
  \/
  (parses value /\
   exists tier addr key val : string,
     value = key ++ "=" ++ val ++ "@" ++ addr /\
     forall rest : list string,
       Set_loop l (value :: rest)
       = Set_loop
           (l ++ [{| Address := MakeUnresolvedAddr "tcp" addr;
                     LocalityTier := {| Key := key; Value := val |} |}])%list
           rest).
Proof.
  cbn [localityList_Set_loop]. cbv zeta.
  destruct (Z.eqb_spec (len (Split value "@")) 2) as [E1|E1]; cbn [negb].
  - destruct (len_two _ E1) as [tier [addr Hsplit]]. rewrite Hsplit.
    cbn [nth].
    destruct (Z.eqb_spec (len (Split tier "=")) 2) as [E2|E2]; cbn [negb].
    + destruct (len_two _ E2) as [key [val Htier]]. rewrite Htier.
      cbn [nth]. right. split.
      * exists tier, addr, key, val. split; assumption.
      * exists tier, addr, key, val. split; [|reflexivity].
        apply Split_two in Hsplit. apply Split_two in Htier.
        rewrite Hsplit, Htier.
        change (String "=" val) with ("=" ++ val).
        change (String "@" addr) with ("@" ++ addr).
        rewrite !sapp_assoc. reflexivity.
    + left. split; [|reflexivity].
      intros [t [a [k [v [Ht Hk]]]]]. rewrite Hsplit in Ht.
      injection Ht as <- <-. rewrite Hk in E2. apply E2. reflexivity.
  - left. split; [|reflexivity].
    intros [t [a [k [v [Ht Hk]]]]]. rewrite Ht in E1. apply E1. reflexivity.
Qed.

(** What the loop accepts and where it stops. *)
Lemma Set_loop_parses (values : list string) :
  forall (l res : localityList) (err : goerror),
    Set_loop l values = (res, err) ->
    (err = None -> Forall parses values) /\
    (forall e : error, err = Some e ->
       e = errNew ("invalid value for --locality-advertise-address: "
                   ++ list_String res) /\
       exists (good : list string) (bad : string) (rest : list string),
         values = (good ++ bad :: rest)%list /\
         Forall parses good /\ ~ parses bad /\
         Set_loop l good = (res, None)).
Proof.
  induction values as [|value rest IH]; intros l res err Hrun.
  - cbn [localityList_Set_loop] in Hrun. injection Hrun as <- <-.
    split; [intros _; constructor | discriminate].
  - destruct (Set_loop_step l value)
      as [[Hbad Hstep]|[Hgood [t [a [k [v [_ Hstep]]]]]]];
      rewrite Hstep in Hrun.
    + injection Hrun as <- <-. split; [discriminate|].
      intros e He. injection He as <-. split; [reflexivity|].
      exists [], value, rest. split; [reflexivity|].
      split; [constructor|]. split; [exact Hbad | reflexivity].
    + destruct (IH _ _ _ Hrun) as [Hok Herr]. split.
      * intros Hnone. constructor; [exact Hgood | exact (Hok Hnone)].
      * intros e He.
        destruct (Herr e He) as [Hmsg [good [bad [rest' [E [Hg [Hb Hres]]]]]]].
        split; [exact Hmsg|].
        exists (value :: good), bad, rest'. split; [rewrite E; reflexivity|].
        split; [constructor; assumption|]. split; [exact Hb|].
        rewrite Hstep. exact Hres.
Qed.

Lemma empty_does_not_parse : ~ parses EmptyString.
Proof. intros [t [a [k [v [H _]]]]]. discriminate H. Qed.

(** X23. Set never accepts what String renders: a rendering is empty or
    ends in a comma, so its last piece is empty and Set returns an error,
    whatever the list rendered and whatever the receiver held. *)
Theorem localityList_Set_rejects_String (l0 l : localityList) :
  snd (list_Set l0 (list_String l)) <> None.
Proof.
  unfold localityList_Set.
  destruct (Set_loop [] (Split (list_String l) ",")) as [res err] eqn:Hrun.
  cbn [snd]. intros ->.
  destruct (Set_loop_parses _ _ _ _ Hrun) as [Hok _].
  pose proof (Hok eq_refl) as Hall.
  rewrite Forall_forall in Hall.
  apply empty_does_not_parse, Hall.
  destruct (localityList_String_shape l) as [E|[body E]]; rewrite E.
  - left. reflexivity.
  - apply Split_trailing.
Qed.

Hypothesis addr_round_trip :
  forall a : string, UnresolvedAddr_String (MakeUnresolvedAddr "tcp" a) = a.

(** The rendering of what the loop accepted. *)
Lemma Set_loop_renders (values : list string) :
  forall l res : localityList,
    Set_loop l values = (res, None) ->
    list_String res = list_String l ++ with_commas values.
Proof.
  induction values as [|value rest IH]; intros l res Hrun.
  - cbn [localityList_Set_loop] in Hrun. injection Hrun as <-.
    cbn [with_commas fold_right]. rewrite sapp_nil_r. reflexivity.
  - destruct (Set_loop_step l value)
      as [[Hbad Hstep]|[Hgood [t [a [k [v [Hvalue Hstep]]]]]]];
      rewrite Hstep in Hrun; [discriminate Hrun|].
    rewrite (IH _ _ Hrun), localityList_String_snoc.
    cbn [LocalityTier Address Key Value]. rewrite addr_round_trip.
    unfold with_commas. cbn [fold_right]. rewrite Hvalue.
    change (String "," (fold_right (fun p acc => p ++ String "," acc)
                          EmptyString rest))
      with ("," ++ fold_right (fun p acc => p ++ String "," acc)
                     EmptyString rest).
    rewrite !sapp_assoc. reflexivity.
Qed.

(** X24. When Set accepts a value, the new list renders as that value
    followed by a comma, and every piece of the value between commas is a
    key, an equals sign, a value, an at-sign and an address. *)
Theorem localityList_Set_then_String (l0 l : localityList)
    (value : string) :
  list_Set l0 value = (l, None) ->
  list_String l = value ++ "," /\
  Forall parses (Split value ",").
Proof.
  unfold localityList_Set. intros Hrun.
  destruct (Set_loop_parses _ _ _ _ Hrun) as [Hok _].
  split; [|exact (Hok eq_refl)].
  rewrite (Set_loop_renders _ _ _ Hrun). unfold with_commas.
  rewrite Split_concat. reflexivity.
Qed.

(** X25. When Set rejects a value, the receiver is left with the entries
    of the pieces that came before the first malformed one, whatever it
    held before, and the message of the error renders that list: it shows
    the pieces accepted so far and not the piece rejected. *)
Theorem localityList_Set_error (l0 l : localityList) (value : string)
    (e : error) :
  list_Set l0 value = (l, Some e) ->
  exists (good : list string) (bad : string) (rest : list string),
    Split value "," = (good ++ bad :: rest)%list /\
    Forall parses good /\ ~ parses bad /\
    list_String l = with_commas good /\
    message e
    = "invalid value for --locality-advertise-address: "
      ++ with_commas good.
Proof.
  unfold localityList_Set. intros Hrun.
  destruct (Set_loop_parses _ _ _ _ Hrun) as [_ Herr].
  destruct (Herr e eq_refl) as [-> [good [bad [rest [E [Hg [Hb Hres]]]]]]].
  exists good, bad, rest. split; [exact E|]. split; [exact Hg|].
  split; [exact Hb|].
  pose proof (Set_loop_renders _ _ _ Hres) as Hr.
  cbn [String.append] in Hr.
  split; [exact Hr|]. cbn [message]. rewrite Hr. reflexivity.
Qed.

End LocalityListProperties.

(** *** The percent resolvers *)

Section DiskPercentResolverProperties.

Variable humanize_IBytes : Z -> string.
Variable humanizeutil_IBytes : Z -> string.

Local Abbreviation factory :=
  (diskPercentResolverFactory humanize_IBytes humanizeutil_IBytes).

Lemma int64_small (z : Z) : - 2 ^ 63 <= z <= MaxInt64 -> int64 z = z.
Proof. exact (int_small z). Qed.

(** X26. The factory refuses a disk of more than [MaxInt64] bytes and
    otherwise returns a resolver that never fails and computes what the
    memory resolver computes for the same size. For a percentage between
    0 and 100 the share is the product divided by 100, rounded down, and
    lies between 0 and the capacity, as long as the product of capacity
    and percentage fits 64 bits; beyond that the product wraps around,
    and up to twice that bound the share is zero or negative. *)
Theorem diskPercentResolverFactory_share (TotalBytes percent : Z) :
  0 <= TotalBytes < 2 ^ 64 ->
  0 <= percent <= 100 ->
  (MaxInt64 < TotalBytes ->
   factory TotalBytes None
   = (None,
      Some (errNew ("unsupported disk size " ++ humanize_IBytes TotalBytes
                    ++ ", max supported size is "
                    ++ humanizeutil_IBytes MaxInt64)))) /\
  (TotalBytes <= MaxInt64 ->
   exists f : percentResolverFunc,
     factory TotalBytes None = (Some f, None) /\
     f percent = memoryPercentResolver TotalBytes None percent /\
     snd (f percent) = None /\
     (TotalBytes * percent <= MaxInt64 ->
      fst (f percent) = TotalBytes * percent / 100 /\
      0 <= fst (f percent) <= TotalBytes) /\
     (MaxInt64 < TotalBytes * percent < 2 ^ 64 ->
      fst (f percent) = Z.quot (TotalBytes * percent - 2 ^ 64) 100 /\
      fst (f percent) <= 0)).
Proof.
  intros Ht Hp. unfold diskPercentResolverFactory. split.
  - intros Hbig. destruct (Z.gtb_spec TotalBytes MaxInt64); [|lia].
    reflexivity.
  - intros Hfit. destruct (Z.gtb_spec TotalBytes MaxInt64); [lia|].
    cbv zeta. eexists. split; [reflexivity|].
    assert (Ecap : int64 TotalBytes = TotalBytes)
      by (apply int64_small; lia).
    assert (Epct : int64 percent = percent)
      by (apply int64_small; unfold MaxInt64; lia).
    unfold memoryPercentResolver. cbn [fst snd].
    rewrite Ecap, Epct. split; [reflexivity|]. split; [reflexivity|].
    split.
    + intros Hprod. rewrite int64_small by nia.
      rewrite Z.quot_div_nonneg by nia.
      split; [reflexivity|]. split.
      * apply Z.div_pos; nia.
      * apply Z.div_le_upper_bound; nia.
    + intros Hover.
      assert (E : int64 (TotalBytes * percent)
                  = TotalBytes * percent - 2 ^ 64).
      { unfold int64, wrap. change (2 ^ (64 - 1)) with (2 ^ 63).
        unfold MaxInt64 in Hover.
        replace (TotalBytes * percent + 2 ^ 63)
          with (TotalBytes * percent - 2 ^ 63 + 1 * 2 ^ 64) by lia.
        rewrite Z.mod_add by lia. rewrite Z.mod_small by lia. lia. }
      rewrite E. split; [reflexivity|].
      unfold MaxInt64 in Hover.
      rewrite <- (Z.opp_involutive (TotalBytes * percent - 2 ^ 64)).
      rewrite Z.quot_opp_l by lia.
      assert (0 <= Z.quot (- (TotalBytes * percent - 2 ^ 64)) 100)
        by (apply Z.quot_pos; lia).
      lia.
Qed.

End DiskPercentResolverProperties.

(** *** The flag values at sample inputs *)

(** The text schema is accepted over any earlier mode and is rendered
    back. *)
Lemma dumpMode_Set_String_witness :
  dumpMode_String (fst (dumpMode_Set dumpDataOnly "schema")) = "schema" /\
  dumpMode_Set dumpDataOnly "tables"
  = (dumpDataOnly, Some (errNew "invalid value for --dump-mode: tables")).
Proof.
  destruct (dumpMode_Set_String dumpDataOnly "schema") as [_ [Hok _]].
  destruct (dumpMode_Set_String dumpDataOnly "tables") as [_ [_ [Herr _]]].
  split.
  - apply Hok. reflexivity.
  - apply Herr. discriminate.
Defined.

Lemma nodeDecommissionWaitType_Set_String_witness :
  nodeDecommissionWaitType_String
    (fst (nodeDecommissionWaitType_Set nodeDecommissionWaitAll "none"))
  = Some "none" /\
  nodeDecommissionWaitType_String 2 = None.
Proof.
  destruct (nodeDecommissionWaitType_Set_String nodeDecommissionWaitAll
              "none") as [_ [Hok [_ Hall]]].
  split.
  - apply Hok. reflexivity.
  - apply (Hall 2). lia.
Defined.

Lemma nodeDecommissionCheckMode_Set_String_witness :
  nodeDecommissionCheckMode_String
    (fst (nodeDecommissionCheckMode_Set nodeDecommissionChecksSkip "strict"))
  = Some "strict" /\
  nodeDecommissionCheckMode_String (-1) = None.
Proof.
  destruct (nodeDecommissionCheckMode_Set_String nodeDecommissionChecksSkip
              "strict") as [_ [Hok [_ Hall]]].
  split.
  - apply Hok. reflexivity.
  - apply (Hall (-1)). lia.
Defined.

(** The rendering of a list of one entry is rejected. *)
Lemma localityList_Set_rejects_String_witness :
  snd (localityList_Set sampleMakeAddr sampleAddrString []
         (localityList_String sampleAddrString [sampleEast]))
  <> None.
Proof.
  apply (localityList_Set_rejects_String sampleAddr sampleMakeAddr
           sampleAddrString [] [sampleEast]).
Defined.

(** Two well-formed pieces, over a receiver that held an entry. *)
Lemma localityList_Set_then_String_witness :
  localityList_String sampleAddrString [sampleEast; sampleZone]
  = "region=east@10.0.0.1:26257,zone=a@10.0.0.2:26257," /\
  Forall parses
    (Split "region=east@10.0.0.1:26257,zone=a@10.0.0.2:26257" ",").
Proof.
  apply (localityList_Set_then_String sampleAddr sampleMakeAddr
           sampleAddrString (fun a => eq_refl) [sampleZone]
           [sampleEast; sampleZone]
           "region=east@10.0.0.1:26257,zone=a@10.0.0.2:26257").
  reflexivity.
Defined.

(** A malformed second piece: the entry of the first piece is kept, the
    third piece is never read. *)
Lemma localityList_Set_error_witness :
  exists (good : list string) (bad : string) (rest : list string),
    Split "region=east@10.0.0.1:26257,bad,zone=a@10.0.0.2:26257" ","
    = (good ++ bad :: rest)%list /\
    Forall parses good /\ ~ parses bad /\
    localityList_String sampleAddrString [sampleEast] = with_commas good /\
    message
      (errNew ("invalid value for --locality-advertise-address: "
               ++ "region=east@10.0.0.1:26257,"))
    = "invalid value for --locality-advertise-address: "
      ++ with_commas good.
Proof.
  apply (localityList_Set_error sampleAddr sampleMakeAddr sampleAddrString
           (fun a => eq_refl) [sampleZone] [sampleEast]
           "region=east@10.0.0.1:26257,bad,zone=a@10.0.0.2:26257"
           (errNew ("invalid value for --locality-advertise-address: "
                    ++ "region=east@10.0.0.1:26257,"))).
  reflexivity.
Defined.

(** Half of a disk of 500 GB; and 99 percent of a disk of 2^57 bytes,
    whose product with 99 no longer fits. *)
Lemma diskPercentResolverFactory_share_witness :
  (exists f : percentResolverFunc,
     diskPercentResolverFactory sampleIBytes sampleIBytes 500000000000 None
     = (Some f, None) /\
     fst (f 50) = 250000000000) /\
  (exists f : percentResolverFunc,
     diskPercentResolverFactory sampleIBytes sampleIBytes (2 ^ 57) None
     = (Some f, None) /\
     fst (f 99) <= 0).
Proof.
  split.
  - destruct (diskPercentResolverFactory_share sampleIBytes sampleIBytes
                500000000000 50) as [_ Hfit]; [lia | lia |].
    destruct Hfit as [f [Hf [_ [_ [Hshare _]]]]];
      [unfold MaxInt64; lia|].
    exists f. split; [exact Hf|].
    destruct Hshare as [E _]; [unfold MaxInt64; lia|].
    rewrite E. reflexivity.
  - destruct (diskPercentResolverFactory_share sampleIBytes sampleIBytes
                (2 ^ 57) 99) as [_ Hfit]; [lia | lia |].
    destruct Hfit as [f [Hf [_ [_ [_ Hover]]]]];
      [unfold MaxInt64; lia|].
    exists f. split; [exact Hf|].
    destruct Hover as [_ Hneg]; [unfold MaxInt64; lia|].
    exact Hneg.
Defined.
